(** * Lighting sandbox: scene registry and entity controllers

    A shallow embedding of [src/utils/SceneManager.ts], of the light
    controller ([LightController], translated from its TypeScript class), of
    [src/components/ObjectController/ObjectController.tsx] and of the [App]
    shell that wires them.  The environment controller
    ([src/components/EnvironmentController/EnvironmentController.tsx]) only
    sets the background, the environment map and the tone mapping of the
    renderer; it reads and writes none of the maps below and is embedded on
    its own, as a second state machine over what it sets and the loading
    elements of its panel.

    JavaScript objects are mutable and shared by reference, so the embedding
    keeps an explicit store: every [new] allocates a location, the maps of the
    registry and of the controllers hold locations, and a field assignment is
    an update of the store at that location.  Numbers are IEEE-754 doubles
    ([PrimFloat.float]).  The identifier counters are doubles too, but they
    only ever hold the number of adds so far, which a double represents
    exactly below 2^53; they are kept in [N].  At 2^53 the increment of a
    double gives its argument back, so the counters of the embedding are
    those of the code as long as none is above [MAX_SAFE_INTEGER]
    ([counters_exact]); that the identifiers of a session are counted and
    never issued twice is shown under that bound.

    A JavaScript [Map] iterates in
    insertion order; that order only decides the order of the elements in a
    panel and is not kept.  The rendering library is an opaque collaborator:
    of its objects we keep the class (what [instanceof] sees) and the fields
    the controllers read or write.  The DOM is kept as far as it decides which
    handler can run: the elements of the two panels with the controls each
    has and the values its handlers close over. *)

From Stdlib Require Import Floats.PrimFloat.
From Stdlib Require Uint63.
From stdpp Require Import gmap strings pretty list fin_maps.

Local Open Scope string_scope.
#[local] Set Warnings "-inexact-float,-clear-no-such-hyp".

(** ** Values of the rendering library *)

Definition loc := positive.

Record Vector3 := mkVector3 { v_x : float; v_y : float; v_z : float }.
Record Euler := mkEuler { e_x : float; e_y : float; e_z : float }.

(** [new THREE.Color(0xffffff)] and [new THREE.Color('#ffffff')]: the
    constructor argument is kept, its decoding belongs to the library. *)
Inductive Color :=
| ColorHex (h : N)
| ColorStyle (s : string).

Inductive LightType := ambient | directional | point | spot.

Global Instance LightType_eq_dec : EqDecision LightType.
Proof. solve_decision. Defined.

Definition LightType_code (t : LightType) : nat :=
  match t with ambient => 0 | directional => 1 | point => 2 | spot => 3 end.

Definition LightType_decode (n : nat) : LightType :=
  match n with 0 => ambient | 1 => directional | 2 => point | _ => spot end.

Global Instance LightType_countable : Countable LightType.
Proof.
  apply (inj_countable' LightType_code LightType_decode).
  intros []; reflexivity.
Defined.

(** The text a template literal [`${type}`] produces for a light type. *)
Definition LightType_tag (t : LightType) : string :=
  match t with
  | ambient => "ambient"
  | directional => "directional"
  | point => "point"
  | spot => "spot"
  end.

Inductive Geometry :=
| BoxGeometry (w h d : float)
| SphereGeometry (r : float) (ws hs : N)
| CylinderGeometry (rt rb h : float) (rs : N)
| TorusGeometry (r tube : float) (rs ts : N)
| PlaneGeometry (w h : float).

(** A mesh owns its material: the controllers create one material per mesh
    and reach it only through [object.material]. *)
Record MeshStandardMaterial := mkMaterial {
  mat_color : Color;
  mat_roughness : float;
  mat_metalness : float;
  mat_doubleSide : bool
}.

(** What a light helper shows: the colour and position it read from its
    light at the last [update()]. *)
Record HelperView := mkHelperView { hv_color : Color; hv_position : Vector3 }.

(** The classes of scene-graph nodes the application creates. *)
Inductive Class3D :=
| AmbientLight (color : Color) (intensity : float)
| DirectionalLight (color : Color) (intensity : float)
| PointLight (color : Color) (intensity : float)
| SpotLight (color : Color) (intensity : float) (angle penumbra : float)
| Mesh (geometry : Geometry) (material : MeshStandardMaterial)
| Group
| DirectionalLightHelper (light : loc) (size : float) (view : option HelperView)
| PointLightHelper (light : loc) (sphereSize : float) (view : option HelperView)
| SpotLightHelper (light : loc) (view : option HelperView)
| GridHelper (size divisions : N)
| AxesHelper (size : N).

(** [THREE.Object3D]: every node has a transform and the two shadow flags. *)
Record Object3D := mkObject3D {
  o_class : Class3D;
  o_position : Vector3;
  o_rotation : Euler;
  o_scale : Vector3;
  o_castShadow : bool;
  o_receiveShadow : bool
}.

Definition zero3 : Vector3 := mkVector3 0 0 0.
Definition one3 : Vector3 := mkVector3 1 1 1.
Definition euler0 : Euler := mkEuler 0 0 0.

(** [new C(...)]: identity transform, no shadows. *)
Definition new3D (c : Class3D) : Object3D :=
  mkObject3D c zero3 euler0 one3 false false.

Definition with_class (c : Class3D) (o : Object3D) : Object3D :=
  mkObject3D c (o_position o) (o_rotation o) (o_scale o)
             (o_castShadow o) (o_receiveShadow o).

Definition with_position (p : Vector3) (o : Object3D) : Object3D :=
  mkObject3D (o_class o) p (o_rotation o) (o_scale o)
             (o_castShadow o) (o_receiveShadow o).

Definition with_rotation (r : Euler) (o : Object3D) : Object3D :=
  mkObject3D (o_class o) (o_position o) r (o_scale o)
             (o_castShadow o) (o_receiveShadow o).

Definition with_scale (s : Vector3) (o : Object3D) : Object3D :=
  mkObject3D (o_class o) (o_position o) (o_rotation o) s
             (o_castShadow o) (o_receiveShadow o).

Definition with_castShadow (b : bool) (o : Object3D) : Object3D :=
  mkObject3D (o_class o) (o_position o) (o_rotation o) (o_scale o)
             b (o_receiveShadow o).

Definition with_receiveShadow (b : bool) (o : Object3D) : Object3D :=
  mkObject3D (o_class o) (o_position o) (o_rotation o) (o_scale o)
             (o_castShadow o) b.

(** [x instanceof THREE.Light] and the properties of a light. *)
Definition light_color (o : Object3D) : option Color :=
  match o_class o with
  | AmbientLight c _ | DirectionalLight c _ | PointLight c _
  | SpotLight c _ _ _ => Some c
  | _ => None
  end.

Definition light_intensity (o : Object3D) : option float :=
  match o_class o with
  | AmbientLight _ i | DirectionalLight _ i | PointLight _ i
  | SpotLight _ i _ _ => Some i
  | _ => None
  end.

(** [light.color = c], guarded in the source by ['color' in light]. *)
Definition set_light_color (c : Color) (o : Object3D) : Object3D :=
  match o_class o with
  | AmbientLight _ i => with_class (AmbientLight c i) o
  | DirectionalLight _ i => with_class (DirectionalLight c i) o
  | PointLight _ i => with_class (PointLight c i) o
  | SpotLight _ i a p => with_class (SpotLight c i a p) o
  | _ => o
  end.

(** [light.intensity = v] on a [THREE.Light]. *)
Definition set_light_intensity (v : float) (o : Object3D) : Object3D :=
  match o_class o with
  | AmbientLight c _ => with_class (AmbientLight c v) o
  | DirectionalLight c _ => with_class (DirectionalLight c v) o
  | PointLight c _ => with_class (PointLight c v) o
  | SpotLight c _ a p => with_class (SpotLight c v a p) o
  | _ => o
  end.

(** [light instanceof THREE.DirectionalLight || light instanceof THREE.SpotLight] *)
Definition is_directional_or_spot (o : Object3D) : bool :=
  match o_class o with
  | DirectionalLight _ _ | SpotLight _ _ _ _ => true
  | _ => false
  end.

(** [object instanceof THREE.Mesh] *)
Definition is_Mesh (o : Object3D) : bool :=
  match o_class o with Mesh _ _ => true | _ => false end.

Definition is_light_helper (o : Object3D) : bool :=
  match o_class o with
  | DirectionalLightHelper _ _ _ | PointLightHelper _ _ _
  | SpotLightHelper _ _ => true
  | _ => false
  end.

Definition set_material (f : MeshStandardMaterial → MeshStandardMaterial)
    (o : Object3D) : Object3D :=
  match o_class o with
  | Mesh g m => with_class (Mesh g (f m)) o
  | _ => o
  end.

Definition mat_with_color (c : Color) (m : MeshStandardMaterial) :=
  mkMaterial c (mat_roughness m) (mat_metalness m) (mat_doubleSide m).
Definition mat_with_roughness (r : float) (m : MeshStandardMaterial) :=
  mkMaterial (mat_color m) r (mat_metalness m) (mat_doubleSide m).
Definition mat_with_metalness (x : float) (m : MeshStandardMaterial) :=
  mkMaterial (mat_color m) (mat_roughness m) x (mat_doubleSide m).

(** ** The scene registry, [SceneManager]

    [scene] is the child list of the [THREE.Scene]; the two maps are the
    private [lights] and [objects] fields.  Camera, renderer and orbit
    controls carry no state the controllers touch. *)

Record SceneManager := mkSceneManager {
  scene : list loc;
  sm_lights : gmap string loc;
  sm_objects : gmap string loc
}.

(** [Object3D.remove]: drops the child when it is there. *)
Fixpoint children_remove (o : loc) (children : list loc) : list loc :=
  match children with
  | [] => []
  | c :: rest => if decide (c = o) then rest else c :: children_remove o rest
  end.

(** [Object3D.add]: a node has one parent, so a child that is already in the
    list is taken out before it is appended. *)
Definition children_add (o : loc) (children : list loc) : list loc :=
  children_remove o children ++ [o].

Module SceneManager.

Definition new : SceneManager := mkSceneManager [] ∅ ∅.

Definition addLight (id : string) (light : loc) (sm : SceneManager)
    : loc * SceneManager :=
  (light,
   mkSceneManager (children_add light (scene sm))
                  (<[id := light]> (sm_lights sm))
                  (sm_objects sm)).

Definition removeLight (id : string) (sm : SceneManager)
    : bool * SceneManager :=
  match sm_lights sm !! id with
  | Some light =>
      (true,
       mkSceneManager (children_remove light (scene sm))
                      (delete id (sm_lights sm))
                      (sm_objects sm))
  | None => (false, sm)
  end.

Definition getLight (id : string) (sm : SceneManager) : option loc :=
  sm_lights sm !! id.

Definition getLights (sm : SceneManager) : gmap string loc := sm_lights sm.

Definition addObject (id : string) (object : loc) (sm : SceneManager)
    : loc * SceneManager :=
  (object,
   mkSceneManager (children_add object (scene sm))
                  (sm_lights sm)
                  (<[id := object]> (sm_objects sm))).

Definition removeObject (id : string) (sm : SceneManager)
    : bool * SceneManager :=
  match sm_objects sm !! id with
  | Some object =>
      (true,
       mkSceneManager (children_remove object (scene sm))
                      (sm_lights sm)
                      (delete id (sm_objects sm)))
  | None => (false, sm)
  end.

Definition getObject (id : string) (sm : SceneManager) : option loc :=
  sm_objects sm !! id.

Definition getObjects (sm : SceneManager) : gmap string loc := sm_objects sm.

End SceneManager.

(** ** Metadata records of the controllers *)

(** [interface LightData]; an optional field that was never assigned, or was
    assigned [undefined], is [None]. *)
Record LightData := mkLightData {
  ld_id : string;
  ld_type : LightType;
  ld_color : string;
  ld_intensity : float;
  ld_position : option Vector3;
  ld_target : option Vector3;
  ld_castShadow : option bool;
  ld_helper : option loc
}.

(** [interface ObjectData] *)
Record ObjectData := mkObjectData {
  od_id : string;
  od_type : string;
  od_position : Vector3;
  od_rotation : Euler;
  od_scale : Vector3;
  od_color : string;
  od_roughness : float;
  od_metalness : float;
  od_isCustomModel : option bool;
  od_modelUrl : option string
}.

Definition ld_with_color (c : string) (d : LightData) : LightData :=
  mkLightData (ld_id d) (ld_type d) c (ld_intensity d) (ld_position d)
              (ld_target d) (ld_castShadow d) (ld_helper d).
Definition ld_with_intensity (v : float) (d : LightData) : LightData :=
  mkLightData (ld_id d) (ld_type d) (ld_color d) v (ld_position d)
              (ld_target d) (ld_castShadow d) (ld_helper d).
Definition ld_with_position (p : option Vector3) (d : LightData) : LightData :=
  mkLightData (ld_id d) (ld_type d) (ld_color d) (ld_intensity d) p
              (ld_target d) (ld_castShadow d) (ld_helper d).
Definition ld_with_castShadow (b : option bool) (d : LightData) : LightData :=
  mkLightData (ld_id d) (ld_type d) (ld_color d) (ld_intensity d)
              (ld_position d) (ld_target d) b (ld_helper d).
Definition ld_with_helper (h : option loc) (d : LightData) : LightData :=
  mkLightData (ld_id d) (ld_type d) (ld_color d) (ld_intensity d)
              (ld_position d) (ld_target d) (ld_castShadow d) h.

Definition od_with_position (p : Vector3) (d : ObjectData) : ObjectData :=
  mkObjectData (od_id d) (od_type d) p (od_rotation d) (od_scale d)
               (od_color d) (od_roughness d) (od_metalness d)
               (od_isCustomModel d) (od_modelUrl d).
Definition od_with_rotation (r : Euler) (d : ObjectData) : ObjectData :=
  mkObjectData (od_id d) (od_type d) (od_position d) r (od_scale d)
               (od_color d) (od_roughness d) (od_metalness d)
               (od_isCustomModel d) (od_modelUrl d).
Definition od_with_scale (s : Vector3) (d : ObjectData) : ObjectData :=
  mkObjectData (od_id d) (od_type d) (od_position d) (od_rotation d) s
               (od_color d) (od_roughness d) (od_metalness d)
               (od_isCustomModel d) (od_modelUrl d).
Definition od_with_color (c : string) (d : ObjectData) : ObjectData :=
  mkObjectData (od_id d) (od_type d) (od_position d) (od_rotation d)
               (od_scale d) c (od_roughness d) (od_metalness d)
               (od_isCustomModel d) (od_modelUrl d).
Definition od_with_roughness (x : float) (d : ObjectData) : ObjectData :=
  mkObjectData (od_id d) (od_type d) (od_position d) (od_rotation d)
               (od_scale d) (od_color d) x (od_metalness d)
               (od_isCustomModel d) (od_modelUrl d).
Definition od_with_metalness (x : float) (d : ObjectData) : ObjectData :=
  mkObjectData (od_id d) (od_type d) (od_position d) (od_rotation d)
               (od_scale d) (od_color d) (od_roughness d) x
               (od_isCustomModel d) (od_modelUrl d).

(** ** The control panels

    [renderUI] rebuilds a panel from the metadata map.  An element keeps what
    its event handlers close over: the metadata object itself and, for the
    position sliders of a light, the vector read when the element was built. *)

Record LightElement := mkLightElement {
  le_lightData : loc;
  le_position : option Vector3;   (* position sliders, with the captured vector *)
  le_shadow : bool                (* the cast-shadows checkbox *)
}.

Record ObjectElement := mkObjectElement {
  oe_objectData : loc;
  oe_material : bool              (* colour, roughness and metalness controls *)
}.

Record LightController := mkLightController {
  lc_lights : gmap string loc;
  lightCounter : gmap LightType N;
  lc_panel : list LightElement
}.

Record ObjectController := mkObjectController {
  oc_objects : gmap string loc;
  objectCounter : N;
  modelCounter : N;
  oc_panel : list ObjectElement
}.

(** The part of the browser the object controller talks to: object URLs
    handed out by [URL.createObjectURL], the calls of [URL.revokeObjectURL]
    (latest first), and the loads the GLTF loader has in flight, each with
    the [id] and [objectURL] its callbacks close over. *)
Record Browser := mkBrowser {
  blobCount : N;
  revoked : list string;
  loading : list (string * string)
}.

Record World := mkWorld {
  heap3D : gmap loc Object3D;
  heapLD : gmap loc LightData;
  heapOD : gmap loc ObjectData;
  sceneManager : SceneManager;
  lightController : LightController;
  objectController : ObjectController;
  browser : Browser
}.

Definition upd_heap3D (f : gmap loc Object3D → gmap loc Object3D) (w : World) :=
  mkWorld (f (heap3D w)) (heapLD w) (heapOD w) (sceneManager w)
          (lightController w) (objectController w) (browser w).
Definition upd_heapLD (f : gmap loc LightData → gmap loc LightData) (w : World) :=
  mkWorld (heap3D w) (f (heapLD w)) (heapOD w) (sceneManager w)
          (lightController w) (objectController w) (browser w).
Definition upd_heapOD (f : gmap loc ObjectData → gmap loc ObjectData) (w : World) :=
  mkWorld (heap3D w) (heapLD w) (f (heapOD w)) (sceneManager w)
          (lightController w) (objectController w) (browser w).
Definition upd_sceneManager (f : SceneManager → SceneManager) (w : World) :=
  mkWorld (heap3D w) (heapLD w) (heapOD w) (f (sceneManager w))
          (lightController w) (objectController w) (browser w).
Definition upd_lightController (f : LightController → LightController) (w : World) :=
  mkWorld (heap3D w) (heapLD w) (heapOD w) (sceneManager w)
          (f (lightController w)) (objectController w) (browser w).
Definition upd_objectController (f : ObjectController → ObjectController) (w : World) :=
  mkWorld (heap3D w) (heapLD w) (heapOD w) (sceneManager w)
          (lightController w) (f (objectController w)) (browser w).
Definition upd_browser (f : Browser → Browser) (w : World) :=
  mkWorld (heap3D w) (heapLD w) (heapOD w) (sceneManager w)
          (lightController w) (objectController w) (f (browser w)).

(** [new]: a location the store does not use yet. *)
Definition alloc3D (o : Object3D) (w : World) : loc * World :=
  let l := fresh (dom (heap3D w)) in (l, upd_heap3D <[l := o]> w).
Definition allocLD (d : LightData) (w : World) : loc * World :=
  let l := fresh (dom (heapLD w)) in (l, upd_heapLD <[l := d]> w).
Definition allocOD (d : ObjectData) (w : World) : loc * World :=
  let l := fresh (dom (heapOD w)) in (l, upd_heapOD <[l := d]> w).

(** Calls of the registry through [this.sceneManager]. *)
Definition sm_addLight (id : string) (light : loc) (w : World) : World :=
  upd_sceneManager (λ sm, (SceneManager.addLight id light sm).2) w.
Definition sm_removeLight (id : string) (w : World) : World :=
  upd_sceneManager (λ sm, (SceneManager.removeLight id sm).2) w.
Definition sm_addObject (id : string) (object : loc) (w : World) : World :=
  upd_sceneManager (λ sm, (SceneManager.addObject id object sm).2) w.
Definition sm_removeObject (id : string) (w : World) : World :=
  upd_sceneManager (λ sm, (SceneManager.removeObject id sm).2) w.

(** [helper.update()]: the helper reads colour and position of its light. *)
Definition helper_view (h : gmap loc Object3D) (light : loc) : option HelperView :=
  match h !! light with
  | Some o =>
      match light_color o with
      | Some c => Some (mkHelperView c (o_position o))
      | None => None
      end
  | None => None
  end.

Definition helper_refresh (h : gmap loc Object3D) (o : Object3D) : Object3D :=
  match o_class o with
  | DirectionalLightHelper l s _ =>
      with_class (DirectionalLightHelper l s (helper_view h l)) o
  | PointLightHelper l s _ =>
      with_class (PointLightHelper l s (helper_view h l)) o
  | SpotLightHelper l _ =>
      with_class (SpotLightHelper l (helper_view h l)) o
  | _ => o
  end.

(** The guarded call
    [if (helper instanceof DirectionalLightHelper || ...) helper.update()]. *)
Definition helper_update (helper : loc) (w : World) : World :=
  upd_heap3D (λ h, alter (helper_refresh h) helper h) w.

(** [Math.PI] *)
Definition Math_PI : float := 0x1.921fb54442d18p+1%float.

(** [x.toString()] of a counter inside a template literal *)
Definition number_text (n : N) : string := pretty n.

(** ** The light controller *)

Module LightController.

(** The constructor: no lights, every counter at zero. *)
Definition new : LightController :=
  mkLightController ∅
    (<[ambient := 0%N]> (<[directional := 0%N]>
       (<[point := 0%N]> (<[spot := 0%N]> ∅))))
    [].

(** [createLightElement]: which controls an element gets. *)
Definition createLightElement (lightData : loc) (d : LightData) : LightElement :=
  mkLightElement lightData
    (if decide (ld_type d = ambient) then None
     else Some (default zero3 (ld_position d)))
    (if decide (ld_type d = ambient) then false
     else bool_decide (ld_type d = directional ∨ ld_type d = spot)).

(** [renderLights]: one element per entry of [this.lights]. *)
Definition renderLights (w : World) : list LightElement :=
  omap (λ e, createLightElement e.2 <$> heapLD w !! e.2)
       (map_to_list (lc_lights (lightController w))).

Definition renderUI (w : World) : World :=
  upd_lightController
    (λ lc, mkLightController (lc_lights lc) (lightCounter lc) (renderLights w)) w.

Definition set_lights (f : gmap string loc → gmap string loc) (w : World) : World :=
  upd_lightController
    (λ lc, mkLightController (f (lc_lights lc)) (lightCounter lc) (lc_panel lc)) w.

Definition set_lightCounter (type : LightType) (count : N) (w : World) : World :=
  upd_lightController
    (λ lc, mkLightController (lc_lights lc)
                             (<[type := count]> (lightCounter lc)) (lc_panel lc)) w.

(** The identifier [addLight] builds: [`${type}_${count}`]. *)
Definition light_id (type : LightType) (count : N) : string :=
  LightType_tag type +:+ "_" +:+ number_text count.

(** [(this.lightCounter.get(type) || 0) + 1].  The sum is one of doubles:
    it is the next integer as long as the counter is not above
    [MAX_SAFE_INTEGER], which is where the sum in [N] stands for it. *)
Definition next_count (type : LightType) (w : World) : N :=
  (default 0 (lightCounter (lightController w) !! type) + 1)%N.

(** The [switch] of [addLight]: the light, its helper registered under
    [`${id}_helper`], and the metadata fields of the kind.  [LightType] is
    closed, so the [default] branch cannot be taken. *)
Definition createLight (type : LightType) (id : string) (lightData : LightData)
    (w : World) : loc * option loc * LightData * World :=
  let white := ColorHex 0xffffff in
  match type with
  | ambient =>
      let '(light, w) := alloc3D (new3D (AmbientLight white 1)) w in
      (light, None, lightData, w)
  | directional =>
      let '(light, w) :=
        alloc3D (with_castShadow true
                   (with_position (mkVector3 5 5 5)
                      (new3D (DirectionalLight white 1)))) w in
      let '(helper, w) :=
        alloc3D (new3D (DirectionalLightHelper light 1
                          (helper_view (heap3D w) light))) w in
      let w := sm_addObject (id +:+ "_helper") helper w in
      (light, Some helper,
       ld_with_castShadow (Some true)
         (ld_with_position (Some (mkVector3 5 5 5)) lightData), w)
  | point =>
      let '(light, w) :=
        alloc3D (with_position (mkVector3 2 2 2)
                   (new3D (PointLight white 1))) w in
      let '(helper, w) :=
        alloc3D (new3D (PointLightHelper light 0.5
                          (helper_view (heap3D w) light))) w in
      let w := sm_addObject (id +:+ "_helper") helper w in
      (light, Some helper,
       ld_with_position (Some (mkVector3 2 2 2)) lightData, w)
  | spot =>
      let '(light, w) :=
        alloc3D (with_castShadow true
                   (with_position (mkVector3 2 5 2)
                      (new3D (SpotLight white 1 (Math_PI / 6) 0.2)))) w in
      let '(helper, w) :=
        alloc3D (new3D (SpotLightHelper light
                          (helper_view (heap3D w) light))) w in
      let w := sm_addObject (id +:+ "_helper") helper w in
      (light, Some helper,
       ld_with_castShadow (Some true)
         (ld_with_position (Some (mkVector3 2 5 2)) lightData), w)
  end.

(** The metadata literal is local until [this.lights.set], so it is built
    as a value and stored once it is complete. *)
Definition addLight (type : LightType) (w : World) : World :=
  let count := next_count type w in
  let w := set_lightCounter type count w in
  let id := light_id type count in
  let lightData := mkLightData id type "#ffffff" 1 None None None None in
  let '(light, helper, lightData, w) := createLight type id lightData w in
  let w := sm_addLight id light w in
  let lightData := ld_with_helper helper lightData in
  let '(r, w) := allocLD lightData w in
  let w := set_lights <[id := r]> w in
  renderUI w.

(** JavaScript truthiness of [lightData.helper]: an object or [undefined]. *)
Definition removeLight (id : string) (w : World) : World :=
  match lc_lights (lightController w) !! id with
  | Some r =>
      let w :=
        match heapLD w !! r with
        | Some d =>
            match ld_helper d with
            | Some _ => sm_removeObject (id +:+ "_helper") w
            | None => w
            end
        | None => w
        end in
      let w := sm_removeLight id w in
      let w := set_lights (delete id) w in
      renderUI w
  | None => w
  end.

(** The refresh of the helper that closes the colour and position edits. *)
Definition refresh_helper_of (r : loc) (w : World) : World :=
  match heapLD w !! r with
  | Some d =>
      match ld_helper d with
      | Some helper => helper_update helper w
      | None => w
      end
  | None => w
  end.

Definition updateLightColor (id : string) (color : string) (w : World) : World :=
  match SceneManager.getLight id (sceneManager w),
        lc_lights (lightController w) !! id with
  | Some light, Some r =>
      let colorValue := ColorStyle color in
      let w := upd_heap3D (alter (set_light_color colorValue) light) w in
      let w := upd_heapLD (alter (ld_with_color color) r) w in
      refresh_helper_of r w
  | _, _ => w
  end.

Definition updateLightIntensity (id : string) (intensity : float) (w : World)
    : World :=
  match SceneManager.getLight id (sceneManager w),
        lc_lights (lightController w) !! id with
  | Some light, Some r =>
      let w := upd_heap3D (alter (set_light_intensity intensity) light) w in
      upd_heapLD (alter (ld_with_intensity intensity) r) w
  | _, _ => w
  end.

(** ['position' in light] holds of every [Object3D]. *)
Definition updateLightPosition (id : string) (position : Vector3) (w : World)
    : World :=
  match SceneManager.getLight id (sceneManager w),
        lc_lights (lightController w) !! id with
  | Some light, Some r =>
      let w := upd_heap3D (alter (with_position position) light) w in
      let w := upd_heapLD (alter (ld_with_position (Some position)) r) w in
      refresh_helper_of r w
  | _, _ => w
  end.

Definition updateShadowCasting (id : string) (castShadow : bool) (w : World)
    : World :=
  match SceneManager.getLight id (sceneManager w),
        lc_lights (lightController w) !! id with
  | Some light, Some r =>
      match heap3D w !! light with
      | Some o =>
          if is_directional_or_spot o then
            let w := upd_heap3D (alter (with_castShadow castShadow) light) w in
            upd_heapLD (alter (ld_with_castShadow (Some castShadow)) r) w
          else w
      | None => w
      end
  | _, _ => w
  end.

(** The [oninput] handler of the position slider number [index]: the other
    two coordinates are those of the vector captured by the element. *)
Definition positionInput (position : Vector3) (index : nat) (newValue : float)
    : Vector3 :=
  mkVector3 (if decide (index = 0) then newValue else v_x position)
            (if decide (index = 1) then newValue else v_y position)
            (if decide (index = 2) then newValue else v_z position).

End LightController.

(** ** The object controller *)

(** How a call ends: normally, or by a [throw] that leaves the state as it
    was when the exception was raised. *)
Inductive Completion :=
| Normal (w : World)
| Throw (msg : string) (w : World).

Definition final (c : Completion) : World :=
  match c with Normal w | Throw _ w => w end.

(** [Math.max] of two doubles: [NaN] wins, and [+0] is above [-0]. *)
Definition Math_max2 (a b : float) : float :=
  if (negb (a =? a) || negb (b =? b))%float then nan
  else if (a <? b)%float then b
  else if (b <? a)%float then a
  else if (a =? 0)%float then (a + b)%float
  else a.

Definition Math_max3 (a b c : float) : float := Math_max2 (Math_max2 a b) c.

Module ObjectController.

Definition new : ObjectController := mkObjectController ∅ 0 0 [].

(** [createObjectElement]: material controls only for primitives. *)
Definition createObjectElement (objectData : loc) (d : ObjectData)
    : ObjectElement :=
  mkObjectElement objectData
    (negb (default false (od_isCustomModel d))).

Definition renderObjects (w : World) : list ObjectElement :=
  omap (λ e, createObjectElement e.2 <$> heapOD w !! e.2)
       (map_to_list (oc_objects (objectController w))).

Definition renderUI (w : World) : World :=
  upd_objectController
    (λ oc, mkObjectController (oc_objects oc) (objectCounter oc)
                              (modelCounter oc) (renderObjects w)) w.

Definition set_objects (f : gmap string loc → gmap string loc) (w : World)
    : World :=
  upd_objectController
    (λ oc, mkObjectController (f (oc_objects oc)) (objectCounter oc)
                              (modelCounter oc) (oc_panel oc)) w.

(** [this.objectCounter++] and [this.modelCounter++], on doubles: the next
    integer as long as the counter is not above [MAX_SAFE_INTEGER], which is
    where the sums in [N] stand for them. *)
Definition incr_objectCounter (w : World) : World :=
  upd_objectController
    (λ oc, mkObjectController (oc_objects oc) (objectCounter oc + 1)%N
                              (modelCounter oc) (oc_panel oc)) w.

Definition incr_modelCounter (w : World) : World :=
  upd_objectController
    (λ oc, mkObjectController (oc_objects oc) (objectCounter oc)
                              (modelCounter oc + 1)%N (oc_panel oc)) w.

(** The geometry [switch] of [addObject]; [None] is its [default] branch. *)
Definition geometry_of (type : string) : option Geometry :=
  if decide (type = "box") then Some (BoxGeometry 1 1 1)
  else if decide (type = "sphere") then Some (SphereGeometry 0.5 32 32)
  else if decide (type = "cylinder") then Some (CylinderGeometry 0.5 0.5 1 32)
  else if decide (type = "torus") then Some (TorusGeometry 0.5 0.2 16 32)
  else None.

(** [`${type}_${this.objectCounter}`] *)
Definition object_id (type : string) (count : N) : string :=
  type +:+ "_" +:+ number_text count.

(** [addObject]; [rnd_x] and [rnd_z] are the two results of
    [Math.random()]. *)
Definition addObject (type : string) (rnd_x rnd_z : float) (w : World)
    : Completion :=
  let w := incr_objectCounter w in
  let id := object_id type (objectCounter (objectController w)) in
  match geometry_of type with
  | None => Throw ("Unsupported object type: " +:+ type) w
  | Some geometry =>
      let position :=
        mkVector3 (rnd_x * 4 - 2)
                  (if bool_decide (type = "cylinder" ∨ type = "box")
                   then 0.5 else 0.5)
                  (rnd_z * 4 - 2) in
      let rotation := euler0 in
      let scale := one3 in
      let material := mkMaterial (ColorHex 0x1a75ff) 0.5 0.2 false in
      let mesh :=
        with_receiveShadow true
          (with_castShadow true
             (with_scale scale
                (with_rotation rotation
                   (with_position position (new3D (Mesh geometry material)))))) in
      let '(mesh, w) := alloc3D mesh w in
      let w := sm_addObject id mesh w in
      let objectData :=
        mkObjectData id type position rotation scale "#1a75ff" 0.5 0.2
                     None None in
      let '(r, w) := allocOD objectData w in
      let w := set_objects <[id := r]> w in
      Normal (renderUI w)
  end.

(** Truthiness of [objectData.isCustomModel && objectData.modelUrl]. *)
Definition revocable (d : ObjectData) : option string :=
  match od_isCustomModel d, od_modelUrl d with
  | Some true, Some url => if decide (url = "") then None else Some url
  | _, _ => None
  end.

Definition revokeObjectURL (url : string) (w : World) : World :=
  upd_browser
    (λ b, mkBrowser (blobCount b) (url :: revoked b) (loading b)) w.

Definition removeObject (id : string) (w : World) : World :=
  match oc_objects (objectController w) !! id with
  | Some r =>
      let objectData := heapOD w !! r in
      let w := sm_removeObject id w in
      let w := set_objects (delete id) w in
      let w :=
        match objectData ≫= revocable with
        | Some url => revokeObjectURL url w
        | None => w
        end in
      renderUI w
  | None => w
  end.

(** The three material edits share their guard:
    [object && objectData && object instanceof THREE.Mesh]. *)
Definition material_edit (id : string)
    (on_material : MeshStandardMaterial → MeshStandardMaterial)
    (on_data : ObjectData → ObjectData) (w : World) : World :=
  match SceneManager.getObject id (sceneManager w),
        oc_objects (objectController w) !! id with
  | Some object, Some r =>
      match heap3D w !! object with
      | Some o =>
          if is_Mesh o then
            let w := upd_heap3D (alter (set_material on_material) object) w in
            upd_heapOD (alter on_data r) w
          else w
      | None => w
      end
  | _, _ => w
  end.

Definition updateObjectColor (id : string) (color : string) : World → World :=
  material_edit id (mat_with_color (ColorStyle color)) (od_with_color color).

Definition updateObjectRoughness (id : string) (roughness : float)
    : World → World :=
  material_edit id (mat_with_roughness roughness) (od_with_roughness roughness).

Definition updateObjectMetalness (id : string) (metalness : float)
    : World → World :=
  material_edit id (mat_with_metalness metalness) (od_with_metalness metalness).

Definition updateObjectPosition (id : string) (position : Vector3) (w : World)
    : World :=
  match SceneManager.getObject id (sceneManager w),
        oc_objects (objectController w) !! id with
  | Some object, Some r =>
      let w := upd_heap3D (alter (with_position position) object) w in
      upd_heapOD (alter (od_with_position position) r) w
  | _, _ => w
  end.

Definition updateObjectRotation (id : string) (rotation : Euler) (w : World)
    : World :=
  match SceneManager.getObject id (sceneManager w),
        oc_objects (objectController w) !! id with
  | Some object, Some r =>
      let w := upd_heap3D (alter (with_rotation rotation) object) w in
      upd_heapOD (alter (od_with_rotation rotation) r) w
  | _, _ => w
  end.

Definition updateObjectScale (id : string) (scale : Vector3) (w : World)
    : World :=
  match SceneManager.getObject id (sceneManager w),
        oc_objects (objectController w) !! id with
  | Some object, Some r =>
      let w := upd_heap3D (alter (with_scale scale) object) w in
      upd_heapOD (alter (od_with_scale scale) r) w
  | _, _ => w
  end.

(** The [oninput] handlers of the sliders of [createPositionControls],
    [createRotationControls] and [createScaleControls]: the other two
    components are read from the metadata object when the event fires. *)
Definition axisInput (current : Vector3) (index : nat) (newValue : float)
    : Vector3 :=
  mkVector3 (if decide (index = 0) then newValue else v_x current)
            (if decide (index = 1) then newValue else v_y current)
            (if decide (index = 2) then newValue else v_z current).

Definition angleInput (current : Euler) (index : nat) (newValue : float)
    : Euler :=
  let rad := (newValue * (Math_PI / 180))%float in
  mkEuler (if decide (index = 0) then rad else e_x current)
          (if decide (index = 1) then rad else e_y current)
          (if decide (index = 2) then rad else e_z current).

Definition positionInput (objectData : loc) (index : nat) (newValue : float)
    (w : World) : World :=
  match heapOD w !! objectData with
  | Some d =>
      updateObjectPosition (od_id d)
        (axisInput (od_position d) index newValue) w
  | None => w
  end.

Definition rotationInput (objectData : loc) (index : nat) (newValue : float)
    (w : World) : World :=
  match heapOD w !! objectData with
  | Some d =>
      updateObjectRotation (od_id d)
        (angleInput (od_rotation d) index newValue) w
  | None => w
  end.

Definition scaleInput (objectData : loc) (index : nat) (newValue : float)
    (w : World) : World :=
  match heapOD w !! objectData with
  | Some d =>
      updateObjectScale (od_id d) (axisInput (od_scale d) index newValue) w
  | None => w
  end.

(** [`model_${this.modelCounter}`] *)
Definition model_id (count : N) : string := "model_" +:+ number_text count.

(** [URL.createObjectURL(file)]: a fresh, non-empty handle. *)
Definition createObjectURL (w : World) : string * World :=
  let n := blobCount (browser w) in
  ("blob:" +:+ number_text n,
   upd_browser (λ b, mkBrowser (blobCount b + 1)%N (revoked b) (loading b)) w).

(** [handleModelUpload], up to the call of the loader: the load is in
    flight with [id] and [objectURL] captured by its callbacks. *)
Definition handleModelUpload (w : World) : World :=
  let '(objectURL, w) := createObjectURL w in
  let w := incr_modelCounter w in
  let id := model_id (modelCounter (objectController w)) in
  upd_browser
    (λ b, mkBrowser (blobCount b) (revoked b) ((id, objectURL) :: loading b)) w.

(** The success callback.  [gltf.scene] is a [THREE.Group] the loader has
    just built; [center] and [size] are what [Box3.setFromObject] measures
    on it.  The traversal that turns shadows on only touches meshes below
    the group, which the registry never looks at. *)
Definition onLoad (id objectURL : string) (center size : Vector3) (w : World)
    : World :=
  let position :=
    mkVector3 (- v_x center) (- v_y center + v_y size / 2) (- v_z center) in
  let maxDimension := Math_max3 (v_x size) (v_y size) (v_z size) in
  let model := with_position position (new3D Group) in
  let model :=
    if (5 <? maxDimension)%float then
      let scale := (5 / maxDimension)%float in
      with_scale (mkVector3 scale scale scale) model
    else model in
  let '(model, w) := alloc3D model w in
  let w := sm_addObject id model w in
  let objectData :=
    mkObjectData id "custom_model" zero3 euler0 one3 "#ffffff" 0.5 0.2
                 (Some true) (Some objectURL) in
  let '(r, w) := allocOD objectData w in
  let w := set_objects <[id := r]> w in
  renderUI w.

End ObjectController.

(** ** The application shell *)

Module App.

Definition empty : World :=
  mkWorld ∅ ∅ ∅ SceneManager.new LightController.new ObjectController.new
          (mkBrowser 0 [] []).

(** [scene.add(x)] for a node that is put in the scene without being
    registered. *)
Definition scene_add (o : loc) (w : World) : World :=
  upd_sceneManager
    (λ sm, mkSceneManager (children_add o (scene sm)) (sm_lights sm)
                          (sm_objects sm)) w.

Definition setupGrid (w : World) : World :=
  let '(gridHelper, w) := alloc3D (new3D (GridHelper 20 20)) w in
  let w := scene_add gridHelper w in
  let '(axesHelper, w) := alloc3D (new3D (AxesHelper 5)) w in
  scene_add axesHelper w.

Definition setupDefaultLighting (w : World) : World :=
  let '(ambientLight, w) :=
    alloc3D (new3D (AmbientLight (ColorHex 0x404040) 0.5)) w in
  sm_addLight "ambient_default" ambientLight w.

Definition setupDefaultObjects (w : World) : World :=
  let boxMaterial := mkMaterial (ColorHex 0x888888) 0.5 0.5 false in
  let '(box, w) :=
    alloc3D (with_position (mkVector3 0 0.5 0)
               (with_receiveShadow true
                  (with_castShadow true
                     (new3D (Mesh (BoxGeometry 1 1 1) boxMaterial))))) w in
  let w := sm_addObject "box_default" box w in
  let planeMaterial := mkMaterial (ColorHex 0xaaaaaa) 0.8 0.2 true in
  let '(plane, w) :=
    alloc3D (with_receiveShadow true
               (with_rotation (mkEuler (- Math_PI / 2) 0 0)
                  (new3D (Mesh (PlaneGeometry 20 20) planeMaterial)))) w in
  sm_addObject "plane_default" plane w.

(** The constructor of [App] followed by its [init]. *)
Definition init : World :=
  let w := setupGrid empty in
  let w := setupDefaultLighting w in
  let w := setupDefaultObjects w in
  let w := LightController.renderUI w in
  ObjectController.renderUI w.

End App.

(** ** User and loader events

    An event names the control it is fired on.  A control exists only in the
    panel as it was last rendered, and which controls an element has was
    decided when it was built. *)

Inductive Event :=
| AddLightClick (type : LightType)
| LightRemoveClick (el : LightElement)
| LightColorChange (el : LightElement) (newColor : string)
| LightIntensityInput (el : LightElement) (newIntensity : float)
| LightPositionInput (el : LightElement) (index : nat) (newValue : float)
| LightShadowChange (el : LightElement) (checked : bool)
| AddObjectClick (type : string) (rnd_x rnd_z : float)
| ObjectRemoveClick (el : ObjectElement)
| ObjectColorChange (el : ObjectElement) (newColor : string)
| ObjectRoughnessInput (el : ObjectElement) (newRoughness : float)
| ObjectMetalnessInput (el : ObjectElement) (newMetalness : float)
| ObjectPositionInput (el : ObjectElement) (index : nat) (newValue : float)
| ObjectRotationInput (el : ObjectElement) (index : nat) (newValue : float)
| ObjectScaleInput (el : ObjectElement) (index : nat) (newValue : float)
| ModelFileChosen
| ModelLoaded (id objectURL : string) (center size : Vector3)
| ModelFailed (id objectURL : string).

(** The four buttons [renderUI] of the object controller creates. *)
Definition objectTypes : list string := ["box"; "sphere"; "cylinder"; "torus"].

Definition enabled (e : Event) (w : World) : Prop :=
  match e with
  | AddLightClick _ => True
  | LightRemoveClick el | LightColorChange el _ | LightIntensityInput el _ =>
      el ∈ lc_panel (lightController w)
  | LightPositionInput el index _ =>
      el ∈ lc_panel (lightController w) ∧ is_Some (le_position el) ∧ index < 3
  | LightShadowChange el _ =>
      el ∈ lc_panel (lightController w) ∧ le_shadow el = true
  | AddObjectClick type _ _ => type ∈ objectTypes
  | ObjectRemoveClick el => el ∈ oc_panel (objectController w)
  | ObjectColorChange el _ | ObjectRoughnessInput el _
  | ObjectMetalnessInput el _ =>
      el ∈ oc_panel (objectController w) ∧ oe_material el = true
  | ObjectPositionInput el index _ | ObjectRotationInput el index _
  | ObjectScaleInput el index _ =>
      el ∈ oc_panel (objectController w) ∧ index < 3
  | ModelFileChosen => True
  | ModelLoaded id objectURL _ _ | ModelFailed id objectURL =>
      (id, objectURL) ∈ loading (browser w)
  end.

(** The loader calls exactly one of its completion callbacks, once. *)
Definition load_done (id objectURL : string) (w : World) : World :=
  upd_browser
    (λ b, mkBrowser (blobCount b) (revoked b)
            (filter (λ p, p ≠ (id, objectURL)) (loading b))) w.

Definition on_light (el : LightElement) (k : LightData → World → World)
    (w : World) : World :=
  match heapLD w !! le_lightData el with
  | Some d => k d w
  | None => w
  end.

Definition on_object (el : ObjectElement) (k : ObjectData → World → World)
    (w : World) : World :=
  match heapOD w !! oe_objectData el with
  | Some d => k d w
  | None => w
  end.

(** What the handler wired to the control does. *)
Definition handle (e : Event) (w : World) : World :=
  match e with
  | AddLightClick type => LightController.addLight type w
  | LightRemoveClick el =>
      on_light el (λ d, LightController.removeLight (ld_id d)) w
  | LightColorChange el newColor =>
      on_light el (λ d, LightController.updateLightColor (ld_id d) newColor) w
  | LightIntensityInput el newIntensity =>
      on_light el
        (λ d, LightController.updateLightIntensity (ld_id d) newIntensity) w
  | LightPositionInput el index newValue =>
      on_light el
        (λ d, LightController.updateLightPosition (ld_id d)
                (LightController.positionInput
                   (default zero3 (le_position el)) index newValue)) w
  | LightShadowChange el checked =>
      on_light el
        (λ d, LightController.updateShadowCasting (ld_id d) checked) w
  | AddObjectClick type rnd_x rnd_z =>
      final (ObjectController.addObject type rnd_x rnd_z w)
  | ObjectRemoveClick el =>
      on_object el (λ d, ObjectController.removeObject (od_id d)) w
  | ObjectColorChange el newColor =>
      on_object el
        (λ d, ObjectController.updateObjectColor (od_id d) newColor) w
  | ObjectRoughnessInput el newRoughness =>
      on_object el
        (λ d, ObjectController.updateObjectRoughness (od_id d) newRoughness) w
  | ObjectMetalnessInput el newMetalness =>
      on_object el
        (λ d, ObjectController.updateObjectMetalness (od_id d) newMetalness) w
  | ObjectPositionInput el index newValue =>
      ObjectController.positionInput (oe_objectData el) index newValue w
  | ObjectRotationInput el index newValue =>
      ObjectController.rotationInput (oe_objectData el) index newValue w
  | ObjectScaleInput el index newValue =>
      ObjectController.scaleInput (oe_objectData el) index newValue w
  | ModelFileChosen => ObjectController.handleModelUpload w
  | ModelLoaded id objectURL center size =>
      ObjectController.onLoad id objectURL center size
        (load_done id objectURL w)
  | ModelFailed id objectURL => load_done id objectURL w
  end.

(** The states a session can be in. *)
Inductive reachable : World → Prop :=
| reachable_init : reachable App.init
| reachable_step w e :
    reachable w → enabled e w → reachable (handle e w).

(** Running a list of events from a state, without asking whether the
    controls exist. *)
Definition run (es : list Event) (w : World) : World :=
  foldl (λ w e, handle e w) w es.

(** ** Edit operations, as one type

    The ten edit methods of the two controllers, each with the identifier
    it targets. *)

Inductive Edit :=
| LightColor (color : string)
| LightIntensity (intensity : float)
| LightPosition (position : Vector3)
| ShadowCasting (castShadow : bool)
| ObjectColor (color : string)
| ObjectRoughness (roughness : float)
| ObjectMetalness (metalness : float)
| ObjectPosition (position : Vector3)
| ObjectRotation (rotation : Euler)
| ObjectScale (scale : Vector3).

Definition on_lights (op : Edit) : bool :=
  match op with
  | LightColor _ | LightIntensity _ | LightPosition _ | ShadowCasting _ => true
  | _ => false
  end.

Definition edit (op : Edit) (id : string) (w : World) : World :=
  match op with
  | LightColor color => LightController.updateLightColor id color w
  | LightIntensity intensity =>
      LightController.updateLightIntensity id intensity w
  | LightPosition position => LightController.updateLightPosition id position w
  | ShadowCasting castShadow =>
      LightController.updateShadowCasting id castShadow w
  | ObjectColor color => ObjectController.updateObjectColor id color w
  | ObjectRoughness roughness =>
      ObjectController.updateObjectRoughness id roughness w
  | ObjectMetalness metalness =>
      ObjectController.updateObjectMetalness id metalness w
  | ObjectPosition position =>
      ObjectController.updateObjectPosition id position w
  | ObjectRotation rotation =>
      ObjectController.updateObjectRotation id rotation w
  | ObjectScale scale => ObjectController.updateObjectScale id scale w
  end.

(** The metadata map and the registry map an edit looks its target up in. *)
Definition metadata_of (op : Edit) (w : World) : gmap string loc :=
  if on_lights op then lc_lights (lightController w)
  else oc_objects (objectController w).

Definition registry_of (op : Edit) (w : World) : gmap string loc :=
  if on_lights op then sm_lights (sceneManager w)
  else sm_objects (sceneManager w).

Definition material_op (op : Edit) : bool :=
  match op with
  | ObjectColor _ | ObjectRoughness _ | ObjectMetalness _ => true
  | _ => false
  end.

(** ** Invariants of a session *)

Definition defined {A} (o : option A) : bool :=
  match o with Some _ => true | None => false end.

(** The kind invariant of a light metadata record: an ambient light has
    neither position nor shadow flag, a directional or spot light has a
    shadow flag, a point light has none. *)
Definition kind_invariant (d : LightData) : bool :=
  match ld_type d with
  | ambient => negb (defined (ld_position d)) && negb (defined (ld_castShadow d))
  | directional | spot => defined (ld_castShadow d)
  | point => negb (defined (ld_castShadow d))
  end.

(** What holds of the light controller between two events: every entry of
    [lights] leads to a record that carries the entry's id and satisfies the
    kind invariant, and every element of the panel was built from the record
    that is registered under its id. *)
Record lc_inv (w : World) : Prop := mk_lc_inv {
  lc_records : ∀ id r, lc_lights (lightController w) !! id = Some r →
     ∃ d, heapLD w !! r = Some d ∧ ld_id d = id ∧ kind_invariant d = true;
  lc_controls : ∀ el, el ∈ lc_panel (lightController w) →
     ∃ d, heapLD w !! le_lightData el = Some d ∧
          lc_lights (lightController w) !! ld_id d = Some (le_lightData el) ∧
          (is_Some (le_position el) → ld_type d ≠ ambient) ∧
          (le_shadow el = true → ld_type d = directional ∨ ld_type d = spot)
}.

(** The part of the world the light invariant reads. *)
Definition light_side (w : World) : gmap loc LightData * LightController :=
  (heapLD w, lightController w).

(** What an edit of a light does to that part: nothing, or the record
    registered under the id is rewritten by [f]. *)
Definition rewrites (f : LightData → LightData) (id : string) (w w' : World)
    : Prop :=
  light_side w' = light_side w ∨
  ∃ r, lc_lights (lightController w) !! id = Some r ∧
       light_side w' = (alter f r (heapLD w), lightController w).

(** *** The live lights

    What the registry holds in its lights map are allocated [THREE.Light]s. *)

(** [o instanceof THREE.Light] *)
Definition is_Light (o : Object3D) : bool := defined (light_intensity o).

Definition lights_ok (h : gmap loc Object3D) (m : gmap string loc) : Prop :=
  ∀ id l, m !! id = Some l → ∃ o, h !! l = Some o ∧ is_Light o = true.

Definition registry_inv (w : World) : Prop :=
  lights_ok (heap3D w) (sm_lights (sceneManager w)).

Definition keeps_light (f : Object3D → Object3D) : Prop :=
  ∀ o, is_Light (f o) = is_Light o.

Definition model_prefixed (id : string) : Prop := ∃ s, id = "model_" +:+ s.

(** [objectData.isCustomModel] is truthy. *)
Definition imported (d : ObjectData) : Prop := od_isCustomModel d = Some true.

Definition records_ok (h : gmap loc ObjectData) (m : gmap string loc) : Prop :=
  ∀ id r, m !! id = Some r →
    ∃ d, h !! r = Some d ∧ od_id d = id ∧
         (imported d → model_prefixed id ∧
                       ∃ url, od_modelUrl d = Some url ∧ url ≠ "").

Definition models_ok (h : gmap loc Object3D) (m : gmap string loc) : Prop :=
  ∀ id o, model_prefixed id → m !! id = Some o →
    ∃ obj, h !! o = Some obj ∧ is_Mesh obj = false.

Definition loading_ok (l : list (string * string)) : Prop :=
  ∀ id url, (id, url) ∈ l → model_prefixed id ∧ url ≠ "".

(** What holds of the object side between two events: a record marked as an
    imported model sits under a [model_] id and has a non-empty object URL;
    what the registry holds under a [model_] id is no mesh; the loads in
    flight are for [model_] ids and non-empty URLs. *)
Record oc_inv (w : World) : Prop := mk_oc_inv {
  oc_records : records_ok (heapOD w) (oc_objects (objectController w));
  oc_models : models_ok (heap3D w) (sm_objects (sceneManager w));
  oc_loading : loading_ok (loading (browser w))
}.

Definition keeps_class (f : Object3D → Object3D) : Prop :=
  ∀ o, is_Mesh (f o) = is_Mesh o.

Definition keeps_origin (f : ObjectData → ObjectData) : Prop :=
  ∀ d, od_id (f d) = od_id d ∧ od_isCustomModel (f d) = od_isCustomModel d ∧
       od_modelUrl (f d) = od_modelUrl d.

(** *** Records and live entities of primitives

    What relates the metadata of the object controller to the registry. *)

(** The references of a map are allocated, and no two keys share one. *)
Definition refs_ok {A} (h : gmap loc A) (m : gmap string loc) : Prop :=
  (∀ id l, m !! id = Some l → is_Some (h !! l)) ∧
  (∀ id1 id2 l, m !! id1 = Some l → m !! id2 = Some l → id1 = id2).

(** The identifiers the object controller uses as keys. *)
Definition is_object_id (id : string) : Prop :=
  (∃ type g n, ObjectController.geometry_of type = Some g ∧
               id = ObjectController.object_id type n) ∨
  model_prefixed id.

Definition ids_ok (m : gmap string loc) : Prop :=
  ∀ id r, m !! id = Some r → is_object_id id.

(** The record of a primitive and its live entity agree on the scale. *)
Definition scales_ok (hE : gmap loc Object3D) (so : gmap string loc)
    (hO : gmap loc ObjectData) (oo : gmap string loc) : Prop :=
  ∀ id r d o obj,
    oo !! id = Some r → hO !! r = Some d → ¬ imported d →
    so !! id = Some o → hE !! o = Some obj →
    o_scale obj = od_scale d.

Record sync_inv (w : World) : Prop := mk_sync_inv {
  sync_live : refs_ok (heap3D w) (sm_objects (sceneManager w));
  sync_records : refs_ok (heapOD w) (oc_objects (objectController w));
  sync_ids : ids_ok (oc_objects (objectController w));
  sync_scales :
    scales_ok (heap3D w) (sm_objects (sceneManager w))
              (heapOD w) (oc_objects (objectController w))
}.

Definition keeps_scale (f : Object3D → Object3D) : Prop :=
  ∀ o, o_scale (f o) = o_scale o.

Definition keeps_od_scale (f : ObjectData → ObjectData) : Prop :=
  ∀ d, od_scale (f d) = od_scale d ∧ od_isCustomModel (f d) = od_isCustomModel d.

(** *** Object URLs

    A URL is issued by [URL.createObjectURL], then goes with a load in
    flight, then is held by the record of an imported model, and is released
    when [removeObject] calls [URL.revokeObjectURL]. *)

Definition issued (b : Browser) (url : string) : Prop :=
  ∃ k, url = "blob:" +:+ number_text k ∧ (k < blobCount b)%N.

Definition held (h : gmap loc ObjectData) (m : gmap string loc)
    (id url : string) : Prop :=
  ∃ r d, m !! id = Some r ∧ h !! r = Some d ∧
         ObjectController.revocable d = Some url.

Definition pending (b : Browser) (id url : string) : Prop :=
  (id, url) ∈ loading b.

Record urls_ok (h : gmap loc ObjectData) (m : gmap string loc) (b : Browser)
    : Prop := mk_urls_ok {
  released_once : NoDup (revoked b);
  released_issued : ∀ url, url ∈ revoked b → issued b url;
  held_issued : ∀ id url, held h m id url → issued b url;
  pending_issued : ∀ id url, pending b id url → issued b url;
  held_live : ∀ id url, held h m id url → url ∉ revoked b;
  pending_live : ∀ id url, pending b id url → url ∉ revoked b;
  held_not_pending : ∀ id id' url, held h m id url → ¬ pending b id' url;
  held_unique : ∀ id id' url, held h m id url → held h m id' url → id = id';
  pending_unique :
    ∀ id id' url, pending b id url → pending b id' url → id = id';
  allocated : ∀ id r, m !! id = Some r → is_Some (h !! r)
}.

Definition url_inv (w : World) : Prop :=
  urls_ok (heapOD w) (oc_objects (objectController w)) (browser w).

(** The part of the world the URL invariant reads. *)
Definition object_side (w : World)
    : gmap loc ObjectData * gmap string loc * Browser :=
  (heapOD w, oc_objects (objectController w), browser w).

(** ** Generated identifiers *)

Inductive Category := Lights | Objects.

(** The value of the counter of a light type, as [addLight] reads it. *)
Definition light_count (type : LightType) (w : World) : N :=
  default 0%N (lightCounter (lightController w) !! type).

(** The identifier the handler of an event builds for the entity it creates:
    the [id] of [addLight], of [addObject] when it gets past its [switch],
    and of [handleModelUpload]. *)
Definition generated (e : Event) (w : World) : option (Category * string) :=
  match e with
  | AddLightClick type =>
      Some (Lights,
            LightController.light_id type (LightController.next_count type w))
  | AddObjectClick type _ _ =>
      match ObjectController.geometry_of type with
      | Some _ =>
          Some (Objects,
                ObjectController.object_id type
                  (objectCounter (objectController w) + 1)%N)
      | None => None
      end
  | ModelFileChosen =>
      Some (Objects,
            ObjectController.model_id (modelCounter (objectController w) + 1)%N)
  | _ => None
  end.

(** All identifiers generated while the events [es] are handled from [w],
    oldest first. *)
Fixpoint ids (es : list Event) (w : World) : list (Category * string) :=
  match es with
  | [] => []
  | e :: es =>
      match generated e w with
      | Some x => x :: ids es (handle e w)
      | None => ids es (handle e w)
      end
  end.

(** Where a generated identifier ends up: as a key of the metadata map and
    of the registry, or, for an upload, with the load in flight. *)
Definition registered (x : Category * string) (w : World) : Prop :=
  match x with
  | (Lights, id) =>
      is_Some (lc_lights (lightController w) !! id) ∧
      is_Some (sm_lights (sceneManager w) !! id)
  | (Objects, id) =>
      (is_Some (oc_objects (objectController w) !! id) ∧
       is_Some (sm_objects (sceneManager w) !! id)) ∨
      (∃ objectURL, (id, objectURL) ∈ loading (browser w))
  end.

(** A generated identifier lies above the counters of [w]. *)
Definition above (w : World) (x : Category * string) : Prop :=
  match x with
  | (Lights, id) =>
      ∃ type n, id = LightController.light_id type n ∧ (light_count type w < n)%N
  | (Objects, id) =>
      (∃ type g n, ObjectController.geometry_of type = Some g ∧
                   id = ObjectController.object_id type n ∧
                   (objectCounter (objectController w) < n)%N) ∨
      (∃ n, id = ObjectController.model_id n ∧
            (modelCounter (objectController w) < n)%N)
  end.

(** *** The range of the counters

    The counters of the code are doubles.  A double holds every integer up
    to 2^53, and [count + 1] is the next integer as long as [count] is at
    most [Number.MAX_SAFE_INTEGER]; at 2^53 the sum rounds to 2^53 again, so
    a counter that got there would stay and the identifier built from it
    would be built again.  Up to the bound the counters in [N] are the
    counters of the code. *)

Definition MAX_SAFE_INTEGER : N := 2 ^ 53 - 1.

(** The double that holds the integer [n], for [n] up to 2^53. *)
Definition Number (n : N) : float :=
  PrimFloat.of_uint63 (Uint63.of_Z (Z.of_N n)).

(** No counter of [w] is above the bound: the next add of any kind still
    counts one up. *)
Definition counters_exact (w : World) : Prop :=
  (∀ type, (light_count type w ≤ MAX_SAFE_INTEGER)%N) ∧
  (objectCounter (objectController w) ≤ MAX_SAFE_INTEGER)%N ∧
  (modelCounter (objectController w) ≤ MAX_SAFE_INTEGER)%N.

(** *** The identifiers as the specification words them

    Counters read off the events handled so far: the adds of one light type,
    all requests to add a primitive, all uploads. *)

Definition adds_light (type : LightType) (e : Event) : bool :=
  match e with AddLightClick t => bool_decide (t = type) | _ => false end.
Definition adds_object (e : Event) : bool :=
  match e with AddObjectClick _ _ _ => true | _ => false end.
Definition adds_object_of (type : string) (e : Event) : bool :=
  match e with AddObjectClick t _ _ => bool_decide (t = type) | _ => false end.
Definition adds_model (e : Event) : bool :=
  match e with ModelFileChosen => true | _ => false end.

Fixpoint count (p : Event → bool) (es : list Event) : N :=
  match es with
  | [] => 0
  | e :: es => ((if p e then 1 else 0) + count p es)%N
  end.

(** Type tag, underscore, and the number of this add among the adds that
    share its counter. *)
Definition counted_id (seen : list Event) (e : Event)
    : option (Category * string) :=
  match e with
  | AddLightClick type =>
      Some (Lights,
            LightType_tag type +:+ "_"
              +:+ pretty (count (adds_light type) seen + 1)%N)
  | AddObjectClick type _ _ =>
      if bool_decide (type ∈ objectTypes)
      then Some (Objects,
                 type +:+ "_" +:+ pretty (count adds_object seen + 1)%N)
      else None
  | ModelFileChosen =>
      Some (Objects, "model_" +:+ pretty (count adds_model seen + 1)%N)
  | _ => None
  end.

Fixpoint counted_ids (seen es : list Event) : list (Category * string) :=
  match es with
  | [] => []
  | e :: es =>
      match counted_id seen e with
      | Some x => x :: counted_ids (seen ++ [e]) es
      | None => counted_ids (seen ++ [e]) es
      end
  end.

(** The identifier a counter kept per primitive type would give: the type
    tag with the number of this add among the adds of the same type. *)
Definition per_type_object_id (seen : list Event) (type : string) : string :=
  type +:+ "_" +:+ pretty (count (adds_object_of type) seen + 1)%N.

(** ** Fixtures *)

(** A registry that already holds the light [1] under ["ambient_1"]. *)
Definition registry_with_ambient_1 : SceneManager :=
  (SceneManager.addLight "ambient_1" 1%positive SceneManager.new).2.

(** A registry that holds the light [1] under ["ambient_1"] and under
    ["ambient_2"]. *)
Definition registry_with_shared_light : SceneManager :=
  (SceneManager.addLight "ambient_2" 1%positive registry_with_ambient_1).2.

(** A session with one point light. *)
Definition one_point_light : World := LightController.addLight point App.init.

(** A session in which a model whose bounding box is 10 x 4 x 2, centred at
    the origin, has been uploaded and decoded. *)
Definition big_model_size : Vector3 := mkVector3 10 4 2.
Definition one_big_model : World :=
  handle (ModelLoaded "model_1" "blob:0" zero3 big_model_size)
         (handle ModelFileChosen App.init).

(** The element the panel of [one_big_model] has for the imported model. *)
Definition model_element : ObjectElement := mkObjectElement 1%positive false.

(** ** Further invariants of a session *)

(** *** The text of a counter *)

(** The decimal digits, of which [toString] makes the text of a counter. *)
Definition is_digit (c : Ascii.ascii) : bool :=
  bool_decide
    (String c "" ∈ ["0"; "1"; "2"; "3"; "4"; "5"; "6"; "7"; "8"; "9"]).

Fixpoint all_digits (s : string) : bool :=
  match s with
  | EmptyString => true
  | String c s => is_digit c && all_digits s
  end.

(** *** Kinds of nodes and what an edit leaves alone *)

(** What a node of the store is to the application: a light, the mesh of a
    primitive, the group of an imported model, the helper of a light, or the
    grid and the axes. *)
Inductive Kind := KLight | KMesh | KGroup | KLightHelper | KStatic.

Definition kind (o : Object3D) : Kind :=
  match o_class o with
  | AmbientLight _ _ | DirectionalLight _ _ | PointLight _ _
  | SpotLight _ _ _ _ => KLight
  | Mesh _ _ => KMesh
  | Group => KGroup
  | DirectionalLightHelper _ _ _ | PointLightHelper _ _ _
  | SpotLightHelper _ _ => KLightHelper
  | GridHelper _ _ | AxesHelper _ => KStatic
  end.

(** An update of a node that leaves it what it is. *)
Definition keeps_kind (f : Object3D → Object3D) : Prop :=
  ∀ o, kind (f o) = kind o.

(** What no edit changes in a record: the id, the type and the helper of a
    light; the id, the type and the origin of an object. *)
Definition same_origin_light (d d' : LightData) : Prop :=
  ld_id d' = ld_id d ∧ ld_type d' = ld_type d ∧ ld_helper d' = ld_helper d.

Definition same_origin_object (d d' : ObjectData) : Prop :=
  od_id d' = od_id d ∧ od_type d' = od_type d ∧
  od_isCustomModel d' = od_isCustomModel d ∧ od_modelUrl d' = od_modelUrl d.

(** Two stores with the same locations, related location by location. *)
Definition heap_related {A} (P : A → A → Prop) (h h' : gmap loc A) : Prop :=
  ∀ l, option_Forall2 P (h !! l) (h' !! l).

(** The events of the controls that edit a field. *)
Definition is_edit (e : Event) : bool :=
  match e with
  | LightColorChange _ _ | LightIntensityInput _ _ | LightPositionInput _ _ _
  | LightShadowChange _ _ | ObjectColorChange _ _ | ObjectRoughnessInput _ _
  | ObjectMetalnessInput _ _ | ObjectPositionInput _ _ _
  | ObjectRotationInput _ _ _ | ObjectScaleInput _ _ _ => true
  | _ => false
  end.

Definition same_kind (o o' : Object3D) : Prop := kind o' = kind o.

(** *** The identifier discipline *)

(** The ids [setupDefaultObjects] registers. *)
Definition default_objects : list string := ["box_default"; "plane_default"].

(** The lights whose record names a helper. *)
Definition has_helper (w : World) (id : string) : Prop :=
  ∃ r d, lc_lights (lightController w) !! id = Some r ∧
         heapLD w !! r = Some d ∧ is_Some (ld_helper d).

(** The identifier discipline, on the maps themselves: the records of the
    controllers are under generated ids whose number is not above the
    counter; the lights map holds the default light and the lights with a
    record; the objects map holds the default objects, the objects with a
    record and one helper per light that has one; a load in flight has a
    model id that is not in use, and no two loads share an id. *)
Record keys_ok (lc : gmap string loc) (count : LightType → N)
    (sl : gmap string loc) (oc : gmap string loc) (objects models : N)
    (so : gmap string loc) (helper : string → Prop)
    (pending : list (string * string)) : Prop := mk_keys_ok {
  keys_lights : ∀ id, is_Some (lc !! id) →
    ∃ type n, id = LightController.light_id type n ∧ (n ≤ count type)%N;
  keys_reg_lights : ∀ id,
    is_Some (sl !! id) ↔ id = "ambient_default" ∨ is_Some (lc !! id);
  keys_helpers : ∀ id, helper id → is_Some (lc !! id);
  keys_objects : ∀ id, is_Some (oc !! id) →
    (∃ type g n, ObjectController.geometry_of type = Some g ∧
                 id = ObjectController.object_id type n ∧ (n ≤ objects)%N) ∨
    (∃ n, id = ObjectController.model_id n ∧ (n ≤ models)%N);
  keys_reg_objects : ∀ k, is_Some (so !! k) ↔
    k ∈ default_objects ∨ is_Some (oc !! k) ∨
    ∃ id, helper id ∧ k = id +:+ "_helper";
  keys_pending : ∀ id url, (id, url) ∈ pending →
    (∃ n, id = ObjectController.model_id n ∧ (n ≤ models)%N) ∧
    oc !! id = None;
  keys_pending_once : NoDup pending.*1
}.

Definition keys_inv (w : World) : Prop :=
  keys_ok (lc_lights (lightController w)) (λ type, light_count type w)
          (sm_lights (sceneManager w))
          (oc_objects (objectController w))
          (objectCounter (objectController w))
          (modelCounter (objectController w))
          (sm_objects (sceneManager w))
          (has_helper w)
          (loading (browser w)).

(** *** The shape of the registry *)

(** The nodes put in the scene without being registered *)
Definition static (h : gmap loc Object3D) (l : loc) : Prop :=
  ∃ o, h !! l = Some o ∧ kind o = KStatic.

(** The entries of a registry map lead to nodes of the kinds [P]. *)
Definition all_kind (P : Kind → Prop) (h : gmap loc Object3D)
    (m : gmap string loc) : Prop :=
  ∀ id l, m !! id = Some l → ∃ o, h !! l = Some o ∧ P (kind o).

Definition is_entity (k : Kind) : Prop := k ≠ KLight ∧ k ≠ KStatic.

(** The shape of the registry: both maps lead to allocated nodes and no node
    is under two ids; the lights map holds lights and the objects map holds
    none; the children of the scene are the static nodes and the nodes of
    the two maps, each once. *)
Record shape_ok (h : gmap loc Object3D) (sc : list loc)
    (sl so : gmap string loc) : Prop := mk_shape_ok {
  shape_lights : refs_ok h sl;
  shape_objects : refs_ok h so;
  shape_light_kind : all_kind (λ k, k = KLight) h sl;
  shape_object_kind : all_kind is_entity h so;
  shape_scene_once : NoDup sc;
  shape_scene : ∀ l, l ∈ sc ↔
    static h l ∨ (∃ id, sl !! id = Some l) ∨ (∃ id, so !! id = Some l)
}.

Definition shape_inv (w : World) : Prop :=
  shape_ok (heap3D w) (scene (sceneManager w))
           (sm_lights (sceneManager w)) (sm_objects (sceneManager w)) ∧
  refs_ok (heapLD w) (lc_lights (lightController w)) ∧
  refs_ok (heapOD w) (oc_objects (objectController w)).

(** *** Records and live entities *)

(** The class [addLight] instantiates for a type *)
Definition instance_of (type : LightType) (o : Object3D) : bool :=
  match type, o_class o with
  | ambient, AmbientLight _ _ => true
  | directional, DirectionalLight _ _ => true
  | point, PointLight _ _ => true
  | spot, SpotLight _ _ _ _ => true
  | _, _ => false
  end.

(** A colour and the text of a record agree when they are the pair the
    entity was created with, or when the colour was built from the text. *)
Definition color_agrees (initial : Color * string) (c : Color) (text : string)
    : Prop :=
  (c, text) = initial ∨ c = ColorStyle text.

(** A record of the light controller and the live light of its id agree. *)
Record light_agrees (id : string) (d : LightData) (o : Object3D) : Prop :=
  mk_light_agrees {
  la_id : ld_id d = id;
  la_name : ∃ n, id = LightController.light_id (ld_type d) n;
  la_class : instance_of (ld_type d) o = true;
  la_intensity : light_intensity o = Some (ld_intensity d);
  la_color : ∃ c, light_color o = Some c ∧
                  color_agrees (ColorHex 0xffffff, "#ffffff") c (ld_color d);
  la_position : o_position o = default zero3 (ld_position d);
  la_castShadow : o_castShadow o = default false (ld_castShadow d);
  la_helper : is_Some (ld_helper d) ↔ ld_type d ≠ ambient
}.

(** A record of the object controller and the live entity of its id agree.
    The success callback of the loader centres and scales an imported model
    while its record starts at the origin with scale one, so of position,
    rotation and scale only the rotation is shared there. *)
Record object_agrees (id : string) (d : ObjectData) (o : Object3D) : Prop :=
  mk_object_agrees {
  oa_id : od_id d = id;
  oa_rotation : o_rotation o = od_rotation d;
  oa_primitive : od_isCustomModel d ≠ Some true →
    ∃ g n material,
      ObjectController.geometry_of (od_type d) = Some g ∧
      id = ObjectController.object_id (od_type d) n ∧
      o_class o = Mesh g material ∧
      mat_roughness material = od_roughness d ∧
      mat_metalness material = od_metalness d ∧
      color_agrees (ColorHex 0x1a75ff, "#1a75ff")
                   (mat_color material) (od_color d) ∧
      o_position o = od_position d ∧
      o_scale o = od_scale d ∧
      o_castShadow o = true ∧ o_receiveShadow o = true;
  oa_imported : od_isCustomModel d = Some true →
    o_class o = Group ∧ od_type d = "custom_model" ∧
    ∃ n, id = ObjectController.model_id n
}.

(** Every record of a metadata map has its entity in the registry, and the
    two are related by [R]. *)
Definition linked {A} (R : string → A → Object3D → Prop)
    (hA : gmap loc A) (m : gmap string loc)
    (hE : gmap loc Object3D) (sm : gmap string loc) : Prop :=
  ∀ id r d, m !! id = Some r → hA !! r = Some d →
    ∃ l o, sm !! id = Some l ∧ hE !! l = Some o ∧ R id d o.

Definition light_link (w : World) : Prop :=
  linked light_agrees (heapLD w) (lc_lights (lightController w))
         (heap3D w) (sm_lights (sceneManager w)).

Definition object_link (w : World) : Prop :=
  linked object_agrees (heapOD w) (oc_objects (objectController w))
         (heap3D w) (sm_objects (sceneManager w)).

Definition link_inv (w : World) : Prop := light_link w ∧ object_link w.

(** *** The grid and the axes *)



(** *** The panels *)

(** What holds of the panel of the light controller between two events. *)
Record light_panel_ok (w : World) : Prop := mk_light_panel_ok {
  lp_once : NoDup (le_lightData <$> lc_panel (lightController w));
  lp_complete : ∀ id r, lc_lights (lightController w) !! id = Some r →
    ∃ el, el ∈ lc_panel (lightController w) ∧ le_lightData el = r;
  lp_sound : ∀ el, el ∈ lc_panel (lightController w) →
    ∃ d, heapLD w !! le_lightData el = Some d ∧
         lc_lights (lightController w) !! ld_id d = Some (le_lightData el) ∧
         (is_Some (le_position el) ↔ ld_type d ≠ ambient) ∧
         (le_shadow el = true ↔ ld_type d = directional ∨ ld_type d = spot)
}.

Record object_panel_ok (w : World) : Prop := mk_object_panel_ok {
  op_once : NoDup (oe_objectData <$> oc_panel (objectController w));
  op_complete : ∀ id r, oc_objects (objectController w) !! id = Some r →
    ∃ el, el ∈ oc_panel (objectController w) ∧ oe_objectData el = r;
  op_sound : ∀ el, el ∈ oc_panel (objectController w) →
    ∃ d, heapOD w !! oe_objectData el = Some d ∧
         oc_objects (objectController w) !! od_id d = Some (oe_objectData el) ∧
         (oe_material el = true ↔ od_isCustomModel d ≠ Some true)
}.

(** The common shape of [renderLights] and [renderObjects]: one element,
    built by [mk], per entry of the metadata map. *)
Definition rendered {A B} (mk : loc → A → B) (h : gmap loc A)
    (m : gmap string loc) : list B :=
  omap (λ e : string * loc, mk e.2 <$> h !! e.2) (map_to_list m).

(** *** Going on from a state *)

(** The states a session can go on to from a state. *)
Inductive continues (w : World) : World → Prop :=
| continues_here : continues w w
| continues_step w' e :
    continues w w' → enabled e w' → continues w (handle e w').

(** A URL nothing refers to: it is not with a load in flight, not held by a
    record, and was not released. *)
Definition unreferenced (url : string) (w : World) : Prop :=
  issued (browser w) url ∧
  (url ∉ revoked (browser w)) ∧
  (∀ id, (id, url) ∉ loading (browser w)) ∧
  (∀ id, ¬ held (heapOD w) (oc_objects (objectController w)) id url).

(** *** The material of a mesh *)

(** [object.material] of a mesh *)
Definition material_of (o : Object3D) : option MeshStandardMaterial :=
  match o_class o with Mesh _ m => Some m | _ => None end.

(** *** The helpers of the lights *)

(** The light a helper was built for, and what it shows. *)
Definition helper_light (o : Object3D) : option loc :=
  match o_class o with
  | DirectionalLightHelper l _ _ | PointLightHelper l _ _
  | SpotLightHelper l _ => Some l
  | _ => None
  end.

Definition helper_shown (o : Object3D) : option HelperView :=
  match o_class o with
  | DirectionalLightHelper _ _ v | PointLightHelper _ _ v
  | SpotLightHelper _ v => v
  | _ => None
  end.

(** The helper class [addLight] instantiates for a type. *)
Definition helper_of (type : LightType) (o : Object3D) : bool :=
  match type, o_class o with
  | directional, DirectionalLightHelper _ _ _ => true
  | point, PointLightHelper _ _ _ => true
  | spot, SpotLightHelper _ _ => true
  | _, _ => false
  end.

(** Each helper a record points to is the one registered for the light of
    the record, and shows the light as it is now. *)
Definition helper_link (h : gmap loc Object3D) (hLD : gmap loc LightData)
    (lc sl so : gmap string loc) : Prop :=
  ∀ id r d hl, lc !! id = Some r → hLD !! r = Some d → ld_helper d = Some hl →
    ∃ l oh, so !! (id +:+ "_helper") = Some hl ∧ sl !! id = Some l ∧
            h !! hl = Some oh ∧ helper_of (ld_type d) oh = true ∧
            helper_light oh = Some l ∧ helper_shown oh = helper_view h l.

Definition helper_inv (w : World) : Prop :=
  helper_link (heap3D w) (heapLD w) (lc_lights (lightController w))
              (sm_lights (sceneManager w)) (sm_objects (sceneManager w)).

(** *** What an edit may write *)

(** The entity an edit event is aimed at: the id its handler passes to the
    update method, read from the record the element was built for. *)
Definition edited (e : Event) (w : World) : option (Category * string) :=
  match e with
  | LightColorChange el _ | LightIntensityInput el _
  | LightPositionInput el _ _ | LightShadowChange el _ =>
      (λ d, (Lights, ld_id d)) <$> heapLD w !! le_lightData el
  | ObjectColorChange el _ | ObjectRoughnessInput el _
  | ObjectMetalnessInput el _ | ObjectPositionInput el _ _
  | ObjectRotationInput el _ _ | ObjectScaleInput el _ _ =>
      (λ d, (Objects, od_id d)) <$> heapOD w !! oe_objectData el
  | _ => None
  end.

(** The nodes and records an edit of [x] may write: the live entity and the
    record of the id and, for a light, its helper. *)
Definition belongs (x : Category * string) (w : World) (l : loc) : Prop :=
  match x with
  | (Lights, id) =>
      sm_lights (sceneManager w) !! id = Some l ∨
      sm_objects (sceneManager w) !! (id +:+ "_helper") = Some l
  | (Objects, id) => sm_objects (sceneManager w) !! id = Some l
  end.

(** *** Further fixtures *)

(** A session with one box. *)
Definition one_box : World :=
  final (ObjectController.addObject "box" 0.5 0.25 App.init).

(** The element the panel of [one_point_light] has for its light. *)
Definition point_element : LightElement :=
  mkLightElement 1%positive (Some (mkVector3 2 2 2)) false.

(** The element the panel of [one_box] has for its box. *)
Definition box_element : ObjectElement := mkObjectElement 1%positive true.

(** A session in which an upload was started and failed. *)
Definition one_failed_upload : World :=
  handle (ModelFailed "model_1" "blob:0") (handle ModelFileChosen App.init).

(** A registry whose scene holds the light it has under ["ambient_1"]. *)
Definition registry_showing_ambient_1 : SceneManager :=
  (SceneManager.addLight "ambient_1" 1%positive SceneManager.new).2.

(** ** The environment controller *)

(** [THREE.ToneMapping]: the constants the tone-mapping selector offers. *)
Inductive ToneMapping :=
| NoToneMapping
| LinearToneMapping
| ReinhardToneMapping
| CineonToneMapping
| ACESFilmicToneMapping.

Record EnvironmentSettings := mkEnvironmentSettings {
  es_preset : string;
  es_toneMappingExposure : float;
  es_toneMapping : ToneMapping
}.

(** The texture [PMREMGenerator.fromEquirectangular] makes of the image the
    loader read; of it we keep the path the image was loaded from. *)
Inductive Texture := EnvironmentMap (hdrPath : string).

(** A [loading-env] element of the panel: the node, and whether the error
    callback has turned it into an error message. *)
Record LoadingElement := mkLoadingElement {
  el_node : N;
  el_error : bool
}.

(** What the environment controller reads and writes: its settings, the two
    tone-mapping properties of the renderer, the environment and the
    background of the scene, the [loading-env] children of its container in
    document order, the loads [rgbeLoader] has in flight with the path of
    each, and the [setTimeout] callbacks that are pending with the element
    each one removes.  [created] counts the elements made so far and gives
    each new one its identity. *)
Record Environment := mkEnvironment {
  currentSettings : EnvironmentSettings;
  toneMappingExposure : float;
  toneMapping : ToneMapping;
  environment : option Texture;
  background : option Texture;
  loadingElements : list LoadingElement;
  created : N;
  requests : list string;
  timers : list N
}.

Module EnvironmentController.

Definition baseHDRPath : string :=
  "https://raw.githack.com/pmndrs/drei-assets/456060a26bbeb8fdf79326f224b6d99b8bcce736/hdri/".

(** The object literal [hdrPresets], in the order of its keys. *)
Definition hdrPresets : list (string * string) :=
  [("none", "");
   ("apartment", "lebombo_1k.hdr");
   ("city", "potsdamer_platz_1k.hdr");
   ("dawn", "kiara_1_dawn_1k.hdr");
   ("forest", "forest_slope_1k.hdr");
   ("lobby", "st_fagans_interior_1k.hdr");
   ("night", "dikhololo_night_1k.hdr");
   ("park", "rooitou_park_1k.hdr");
   ("studio", "studio_small_03_1k.hdr");
   ("sunset", "venice_sunset_1k.hdr");
   ("warehouse", "empty_warehouse_01_1k.hdr")].

Definition toneMappingOptions : list (string * ToneMapping) :=
  [("None", NoToneMapping);
   ("Linear", LinearToneMapping);
   ("Reinhard", ReinhardToneMapping);
   ("Cineon", CineonToneMapping);
   ("ACESFilmic", ACESFilmicToneMapping)].

(** [this.hdrPresets[preset]] on the keys of the literal; a key that is
    missing reads [undefined]. *)
Fixpoint property (key : string) (object : list (string * string))
    : option string :=
  match object with
  | [] => None
  | (k, v) :: rest => if decide (k = key) then Some v else property key rest
  end.

(** The constructor, on a renderer with the given tone-mapping properties
    and a scene with the given environment and background. *)
Definition new (exposure : float) (mapping : ToneMapping)
    (env bg : option Texture) : Environment :=
  mkEnvironment (mkEnvironmentSettings "none" 1.0 ACESFilmicToneMapping)
                exposure mapping env bg [] 0 [] [].

(** [renderUI]: [this.container.innerHTML = ''] empties the container; the
    three controls it then builds show the current settings. *)
Definition renderUI (e : Environment) : Environment :=
  mkEnvironment (currentSettings e) (toneMappingExposure e) (toneMapping e)
                (environment e) (background e) [] (created e)
                (requests e) (timers e).

(** [updateEnvironment], up to the call of the loader. *)
Definition updateEnvironment (e : Environment) : Environment :=
  let s := currentSettings e in
  if decide (es_preset s = "none") then
    mkEnvironment s (es_toneMappingExposure s) (es_toneMapping s) None None
                  (loadingElements e) (created e) (requests e) (timers e)
  else
    let hdrPath :=
      baseHDRPath +:+ default "undefined" (property (es_preset s) hdrPresets) in
    let loadingText := mkLoadingElement (created e) false in
    mkEnvironment s (toneMappingExposure e) (toneMapping e)
                  (environment e) (background e)
                  (loadingElements e ++ [loadingText]) (created e + 1)
                  (requests e ++ [hdrPath]) (timers e).

Definition init (e : Environment) : Environment :=
  updateEnvironment (renderUI e).

Definition set_settings (s : EnvironmentSettings) (e : Environment)
    : Environment :=
  mkEnvironment s (toneMappingExposure e) (toneMapping e)
                (environment e) (background e) (loadingElements e)
                (created e) (requests e) (timers e).

(** The [onchange] and [oninput] handlers of the three controls. *)
Definition presetChange (newPreset : string) (e : Environment) : Environment :=
  let s := currentSettings e in
  updateEnvironment
    (set_settings
       (mkEnvironmentSettings newPreset (es_toneMappingExposure s)
                              (es_toneMapping s)) e).

Definition toneMappingChange (newToneMapping : ToneMapping) (e : Environment)
    : Environment :=
  let s := currentSettings e in
  updateEnvironment
    (set_settings
       (mkEnvironmentSettings (es_preset s) (es_toneMappingExposure s)
                              newToneMapping) e).

Definition exposureInput (newExposure : float) (e : Environment)
    : Environment :=
  let s := currentSettings e in
  updateEnvironment
    (set_settings
       (mkEnvironmentSettings (es_preset s) newExposure (es_toneMapping s)) e).

(** The success callback of [rgbeLoader.load]: the settings are read when it
    runs, and [document.getElementById('loading-env')] is the first element
    of that id in document order. *)
Definition onLoad (hdrPath : string) (e : Environment) : Environment :=
  let texture := EnvironmentMap hdrPath in
  let s := currentSettings e in
  mkEnvironment s (es_toneMappingExposure s) (es_toneMapping s)
                (Some texture) (Some texture)
                (tail (loadingElements e)) (created e)
                (requests e) (timers e).

(** The error callback: the first [loading-env] element, when there is one,
    becomes the error message and a timer is set to remove it. *)
Definition onError (e : Environment) : Environment :=
  match loadingElements e with
  | [] => e
  | loadingElement :: rest =>
      mkEnvironment (currentSettings e) (toneMappingExposure e)
                    (toneMapping e) (environment e) (background e)
                    (mkLoadingElement (el_node loadingElement) true :: rest)
                    (created e) (requests e)
                    (timers e ++ [el_node loadingElement])
  end.

(** The callback of [setTimeout]: [loadingElement.remove()], which does
    nothing to an element that has left the page. *)
Definition onTimeout (node : N) (e : Environment) : Environment :=
  mkEnvironment (currentSettings e) (toneMappingExposure e) (toneMapping e)
                (environment e) (background e)
                (filter (λ x, el_node x ≠ node) (loadingElements e))
                (created e) (requests e) (timers e).

End EnvironmentController.

(** The events of the environment panel: the three controls, the two ways a
    load in flight ends, and a timer that fires.  A load and a timer are
    named by their place among those pending. *)
Inductive EnvEvent :=
| PresetChange (newPreset : string)
| ToneMappingChange (newToneMapping : ToneMapping)
| ExposureInput (newExposure : float)
| EnvironmentLoaded (k : nat)
| EnvironmentFailed (k : nat)
| ErrorTimeout (k : nat).

(** The options of the two selectors are the keys of [hdrPresets] and the
    values of [toneMappingOptions]. *)
Definition env_enabled (ev : EnvEvent) (e : Environment) : Prop :=
  match ev with
  | PresetChange newPreset => newPreset ∈ EnvironmentController.hdrPresets.*1
  | ToneMappingChange newToneMapping =>
      newToneMapping ∈ EnvironmentController.toneMappingOptions.*2
  | ExposureInput _ => True
  | EnvironmentLoaded k | EnvironmentFailed k => is_Some (requests e !! k)
  | ErrorTimeout k => is_Some (timers e !! k)
  end.

Definition request_done (k : nat) (e : Environment) : Environment :=
  mkEnvironment (currentSettings e) (toneMappingExposure e) (toneMapping e)
                (environment e) (background e) (loadingElements e)
                (created e) (delete k (requests e)) (timers e).

Definition timer_done (k : nat) (e : Environment) : Environment :=
  mkEnvironment (currentSettings e) (toneMappingExposure e) (toneMapping e)
                (environment e) (background e) (loadingElements e)
                (created e) (requests e) (delete k (timers e)).

Definition env_handle (ev : EnvEvent) (e : Environment) : Environment :=
  match ev with
  | PresetChange newPreset => EnvironmentController.presetChange newPreset e
  | ToneMappingChange newToneMapping =>
      EnvironmentController.toneMappingChange newToneMapping e
  | ExposureInput newExposure =>
      EnvironmentController.exposureInput newExposure e
  | EnvironmentLoaded k =>
      match requests e !! k with
      | Some hdrPath =>
          EnvironmentController.onLoad hdrPath (request_done k e)
      | None => e
      end
  | EnvironmentFailed k =>
      match requests e !! k with
      | Some _ => EnvironmentController.onError (request_done k e)
      | None => e
      end
  | ErrorTimeout k =>
      match timers e !! k with
      | Some node => EnvironmentController.onTimeout node (timer_done k e)
      | None => e
      end
  end.

(** The states the environment panel can be in, whatever the renderer and
    the scene were constructed with. *)
Inductive env_reachable : Environment → Prop :=
| env_reachable_init exposure mapping env bg :
    env_reachable
      (EnvironmentController.init
         (EnvironmentController.new exposure mapping env bg))
| env_reachable_step e ev :
    env_reachable e → env_enabled ev e → env_reachable (env_handle ev e).

Definition env_run (evs : list EnvEvent) (e : Environment) : Environment :=
  foldl (λ e ev, env_handle ev e) e evs.

(** The events of the three controls. *)
Definition is_setting (ev : EnvEvent) : bool :=
  match ev with
  | PresetChange _ | ToneMappingChange _ | ExposureInput _ => true
  | _ => false
  end.

(** A path the controller may ask the loader for: the base path followed by
    the file of a preset other than [none]. *)
Definition preset_path (hdrPath : string) : Prop :=
  ∃ preset file,
    (preset, file) ∈ EnvironmentController.hdrPresets ∧
    preset ≠ "none" ∧ file ≠ "" ∧
    hdrPath = EnvironmentController.baseHDRPath +:+ file.

(** The elements that still read [Loading environment...]. *)
Definition still_loading (l : list LoadingElement) : list LoadingElement :=
  filter (λ x, el_error x = false) l.

(** The panel after the preset [city] was chosen. *)
Definition city_chosen : Environment :=
  env_handle (PresetChange "city")
    (EnvironmentController.init
       (EnvironmentController.new 1 NoToneMapping None None)).

(** ** The renderer and the settings *)

(** Background and environment of the scene are one; without a preset the
    renderer has the exposure and the tone mapping of the settings. *)
Definition follows (e : Environment) : Prop :=
  background e = environment e ∧
  (es_preset (currentSettings e) = "none" →
   toneMappingExposure e = es_toneMappingExposure (currentSettings e) ∧
   toneMapping e = es_toneMapping (currentSettings e)).

(** The selected preset is an option of the selector, and the paths in
    flight and the path of the environment map are paths of presets. *)
Definition requests_ok (e : Environment) : Prop :=
  es_preset (currentSettings e) ∈ EnvironmentController.hdrPresets.*1 ∧
  Forall preset_path (requests e) ∧
  (∀ hdrPath, environment e = Some (EnvironmentMap hdrPath) →
     preset_path hdrPath).

(** ** Loading indicators *)

(** The elements and the timers are older than the next element, an element
    a timer is waiting for has become an error message, and the loads in
    flight are no more than the elements that still read
    [Loading environment...]. *)
Record indicators_ok (e : Environment) : Prop := mk_indicators_ok {
  ind_elements : Forall (λ x, (el_node x < created e)%N) (loadingElements e);
  ind_once : NoDup (el_node <$> loadingElements e);
  ind_timers : Forall (λ n, (n < created e)%N) (timers e);
  ind_errors : ∀ n x, n ∈ timers e → x ∈ loadingElements e →
    el_node x = n → el_error x = true;
  ind_count :
    (length (requests e) ≤ length (still_loading (loadingElements e)))%nat
}.

(** * Properties *)

(** ** The scene registry *)

Section Registry.

Implicit Types (id : string) (sm : SceneManager) (light object : loc).

Lemma addLight_lights id light sm :
  sm_lights (SceneManager.addLight id light sm).2
  = <[id := light]> (sm_lights sm).
Proof. reflexivity. Qed.

Lemma addLight_objects id light sm :
  sm_objects (SceneManager.addLight id light sm).2 = sm_objects sm.
Proof. reflexivity. Qed.

Lemma children_remove_notin o (l : list loc) : o ∉ l → children_remove o l = l.
Proof.
  induction l as [|c l IH]; intros Hn; simpl; [done|].
  destruct (decide (c = o)) as [->|]; [set_solver|].
  f_equal. apply IH. set_solver.
Qed.

Lemma children_add_elem o (l : list loc) : o ∈ children_add o l.
Proof. unfold children_add. set_solver. Qed.

End Registry.

(** C3, counterexample: ["ambient_1"] is taken by light [1], yet adding
    light [2] under the same id returns normally with [2] and the entry of
    light [1] is replaced. *)
Lemma addLight_duplicate_not_rejected :
  sm_lights registry_with_ambient_1 !! "ambient_1" = Some 1%positive ∧
  (SceneManager.addLight "ambient_1" 2%positive registry_with_ambient_1).1
    = 2%positive ∧
  sm_lights
    (SceneManager.addLight "ambient_1" 2%positive registry_with_ambient_1).2
    !! "ambient_1" = Some 2%positive ∧
  sm_lights
    (SceneManager.addLight "ambient_1" 2%positive registry_with_ambient_1).2
    ≠ sm_lights registry_with_ambient_1.
Proof.
  repeat split; try reflexivity.
  intros H. apply (f_equal (λ m : gmap string loc, m !! "ambient_1")) in H.
  vm_compute in H. discriminate.
Qed.

(** C3, amended: on an id that is already taken [addLight] does not fail; it
    returns the light it was given, the entry of that id now holds this
    light, and every other entry, light or object, is as before. *)
Theorem addLight_taken_replaces (id : string) (light old : loc)
    (sm : SceneManager) :
  sm_lights sm !! id = Some old →
  (SceneManager.addLight id light sm).1 = light ∧
  SceneManager.getLight id (SceneManager.addLight id light sm).2 = Some light ∧
  (∀ j, j ≠ id →
     SceneManager.getLight j (SceneManager.addLight id light sm).2
     = SceneManager.getLight j sm) ∧
  sm_objects (SceneManager.addLight id light sm).2 = sm_objects sm.
Proof.
  intros _. unfold SceneManager.getLight. rewrite addLight_lights.
  repeat split.
  - apply lookup_insert_eq.
  - intros j Hj. by apply lookup_insert_ne.
Qed.

Lemma addLight_taken_replaces_witness :
  sm_lights registry_with_ambient_1 !! "ambient_1" = Some 1%positive ∧
  SceneManager.getLight "ambient_1"
    (SceneManager.addLight "ambient_1" 2%positive registry_with_ambient_1).2
  = Some 2%positive.
Proof.
  split; [reflexivity|].
  apply (addLight_taken_replaces "ambient_1" 2%positive 1%positive
           registry_with_ambient_1).
  reflexivity.
Defined.

(** C8: [removeLight] answers [true] exactly when the id had an entry; then
    the entry is gone, the light leaves the scene and all other entries stay.
    When it answers [false] the registry is untouched.  [removeObject] does
    the same on the object map, and [getLight]/[getObject] read the maps. *)
Theorem remove_reports_presence (id : string) (sm : SceneManager) :
  ((SceneManager.removeLight id sm).1 = true ↔ is_Some (sm_lights sm !! id)) ∧
  ((SceneManager.removeLight id sm).1 = true →
     SceneManager.getLight id (SceneManager.removeLight id sm).2 = None ∧
     sm_lights (SceneManager.removeLight id sm).2 = delete id (sm_lights sm) ∧
     sm_objects (SceneManager.removeLight id sm).2 = sm_objects sm ∧
     ∀ light, sm_lights sm !! id = Some light →
       scene (SceneManager.removeLight id sm).2
       = children_remove light (scene sm)) ∧
  ((SceneManager.removeLight id sm).1 = false →
     (SceneManager.removeLight id sm).2 = sm) ∧
  ((SceneManager.removeObject id sm).1 = true ↔ is_Some (sm_objects sm !! id)) ∧
  ((SceneManager.removeObject id sm).1 = true →
     SceneManager.getObject id (SceneManager.removeObject id sm).2 = None ∧
     sm_objects (SceneManager.removeObject id sm).2 = delete id (sm_objects sm) ∧
     sm_lights (SceneManager.removeObject id sm).2 = sm_lights sm ∧
     ∀ object, sm_objects sm !! id = Some object →
       scene (SceneManager.removeObject id sm).2
       = children_remove object (scene sm)) ∧
  ((SceneManager.removeObject id sm).1 = false →
     (SceneManager.removeObject id sm).2 = sm) ∧
  SceneManager.getObject id sm = sm_objects sm !! id ∧
  SceneManager.getLight id sm = sm_lights sm !! id.
Proof.
  unfold SceneManager.removeLight, SceneManager.removeObject,
    SceneManager.getLight, SceneManager.getObject.
  destruct (sm_lights sm !! id) as [light|] eqn:Hl;
    destruct (sm_objects sm !! id) as [object|] eqn:Ho; simpl;
    repeat split; intros; simplify_eq;
    rewrite ?lookup_delete_eq; try done;
    try (by eexists); try (by destruct H as [? ?]).
Qed.

(** C10, counterexample: registering again, under the same id, the light
    that is already stored there leaves the previously stored entity in the
    lights map; and when a light is stored under two ids, overwriting one of
    them leaves it in the map under the other. *)
Lemma addLight_same_light_stays :
  (sm_lights registry_with_ambient_1 !! "ambient_1" = Some 1%positive ∧
   ¬ (∀ j,
        sm_lights
          (SceneManager.addLight "ambient_1" 1%positive
             registry_with_ambient_1).2
          !! j ≠ Some 1%positive)) ∧
  (sm_lights registry_with_shared_light !! "ambient_1" = Some 1%positive ∧
   ¬ (∀ j,
        sm_lights
          (SceneManager.addLight "ambient_1" 2%positive
             registry_with_shared_light).2
          !! j ≠ Some 1%positive)).
Proof.
  split; (split; [reflexivity|]); intros H.
  - by apply (H "ambient_1").
  - by apply (H "ambient_2").
Qed.

(** C10, amended: [addLight] never rejects.  Whatever the id held before,
    [getLight id] then answers the light just passed, the other ids keep
    their entries, and the map is the old one with that single entry written
    last.  The light stored before is out of the map, unless it is the very
    light passed or was also registered under another id. *)
Theorem addLight_last_writer_wins (id : string) (light : loc)
    (sm : SceneManager) :
  (SceneManager.addLight id light sm).1 = light ∧
  SceneManager.getLight id (SceneManager.addLight id light sm).2 = Some light ∧
  sm_lights (SceneManager.addLight id light sm).2
    = <[id := light]> (sm_lights sm) ∧
  (∀ j, j ≠ id →
     SceneManager.getLight j (SceneManager.addLight id light sm).2
     = SceneManager.getLight j sm) ∧
  (∀ old, SceneManager.getLight id sm = Some old → old ≠ light →
     (∀ j, j ≠ id → SceneManager.getLight j sm ≠ Some old) →
     ∀ j, SceneManager.getLight j (SceneManager.addLight id light sm).2
          ≠ Some old).
Proof.
  unfold SceneManager.getLight. rewrite addLight_lights.
  split_and!; [done|apply lookup_insert_eq|done|..].
  - intros j Hj. by apply lookup_insert_ne.
  - intros old Hold Hne Hother j.
    destruct (decide (j = id)) as [->|Hj].
    + rewrite lookup_insert_eq. congruence.
    + rewrite lookup_insert_ne by done. by apply Hother.
Qed.

(** ** Edits on identifiers that are gone *)

(** C4: an edit whose identifier is missing from the metadata map of its
    controller, or from the registry, changes nothing: the world after the
    call is the world before it, metadata, registry and scene graph alike.
    None of the edit methods has a [throw], so the call always returns. *)
Theorem stale_edit_is_noop (op : Edit) (id : string) (w : World) :
  metadata_of op w !! id = None ∨ registry_of op w !! id = None →
  edit op id w = w.
Proof.
  unfold metadata_of, registry_of.
  destruct op; simpl;
    unfold LightController.updateLightColor,
      LightController.updateLightIntensity,
      LightController.updateLightPosition,
      LightController.updateShadowCasting,
      ObjectController.updateObjectColor,
      ObjectController.updateObjectRoughness,
      ObjectController.updateObjectMetalness,
      ObjectController.material_edit,
      ObjectController.updateObjectPosition,
      ObjectController.updateObjectRotation,
      ObjectController.updateObjectScale,
      SceneManager.getLight, SceneManager.getObject;
    intros [H|H]; rewrite H; try reflexivity;
    by repeat case_match.
Qed.

Lemma stale_edit_is_noop_witness :
  edit (LightIntensity 2.5) "point_7" one_point_light = one_point_light.
Proof.
  apply (stale_edit_is_noop (LightIntensity 2.5) "point_7" one_point_light).
  left. vm_compute. reflexivity.
Defined.

(** ** Reasoning about handlers

    [expose] unfolds a handler down to the updates of the world it is made
    of; the projections of the world stay folded. *)

Ltac expose :=
  cbv beta iota zeta delta
    [handle final on_light on_object alloc3D allocLD allocOD
     LightController.addLight LightController.createLight
     LightController.removeLight LightController.updateLightColor
     LightController.updateLightIntensity LightController.updateLightPosition
     LightController.updateShadowCasting LightController.refresh_helper_of
     LightController.set_lightCounter helper_update
     ObjectController.addObject ObjectController.removeObject
     ObjectController.updateObjectColor ObjectController.updateObjectRoughness
     ObjectController.updateObjectMetalness ObjectController.material_edit
     ObjectController.updateObjectPosition ObjectController.updateObjectRotation
     ObjectController.updateObjectScale ObjectController.positionInput
     ObjectController.rotationInput ObjectController.scaleInput
     ObjectController.handleModelUpload ObjectController.createObjectURL
     ObjectController.onLoad].

Lemma fresh_heap_None {A} (h : gmap loc A) : h !! fresh (dom h) = None.
Proof. apply not_elem_of_dom, is_fresh. Qed.

(** ** The kind invariant of light metadata *)

Section LightInvariant.

Implicit Types (w : World) (id : string) (r : loc) (d : LightData).

Lemma elem_of_renderLights w el :
  el ∈ LightController.renderLights w ↔
  ∃ id r d, lc_lights (lightController w) !! id = Some r ∧
            heapLD w !! r = Some d ∧
            el = LightController.createLightElement r d.
Proof.
  unfold LightController.renderLights. rewrite list_elem_of_omap. split.
  - intros [[id r] [Hin Hel]]. apply elem_of_map_to_list in Hin.
    simpl in Hel.
    destruct (heapLD w !! r) as [d|] eqn:Hd; simplify_eq/=.
    by eexists _, _, _.
  - intros (id & r & d & Hl & Hd & ->). exists (id, r). split.
    + by apply elem_of_map_to_list.
    + simpl. by rewrite Hd.
Qed.

Lemma lc_inv_frame w w' : light_side w' = light_side w → lc_inv w → lc_inv w'.
Proof.
  unfold light_side. intros [= H1 H2] [Ha Hb]. split; rewrite H1, H2; auto.
Qed.

(** The handlers of the object controller and of the loader do not touch
    the metadata of lights. *)
Lemma object_event_light_side e w :
  match e with
  | AddLightClick _ | LightRemoveClick _ | LightColorChange _ _
  | LightIntensityInput _ _ | LightPositionInput _ _ _
  | LightShadowChange _ _ => True
  | _ => light_side (handle e w) = light_side w
  end.
Proof.
  destruct e; try exact I; expose; unfold light_side;
    repeat case_match; simplify_eq; reflexivity.
Qed.

Lemma lc_inv_alter w w' f r :
  lc_inv w →
  light_side w' = (alter f r (heapLD w), lightController w) →
  (∀ d, ld_id (f d) = ld_id d) →
  (∀ d, ld_type (f d) = ld_type d) →
  (∀ d, heapLD w !! r = Some d → kind_invariant d = true →
        kind_invariant (f d) = true) →
  lc_inv w'.
Proof.
  unfold light_side. intros [Ha Hb] [= H1 H2] Hid Hty Hk.
  split; rewrite H1, H2.
  - intros id r0 Hr0. destruct (Ha _ _ Hr0) as (d & Hd & Hi & Hkd).
    destruct (decide (r0 = r)) as [->|Hne].
    + exists (f d). rewrite lookup_alter_eq, Hd. simpl. rewrite Hid. auto.
    + exists d. rewrite lookup_alter_ne by done. auto.
  - intros el Hel. destruct (Hb _ Hel) as (d & Hd & Hl & Hp & Hs).
    destruct (decide (le_lightData el = r)) as [He|Hne].
    + exists (f d). rewrite He in *. rewrite lookup_alter_eq, Hd. simpl.
      rewrite Hid, Hty. auto.
    + exists d. rewrite lookup_alter_ne by done. auto.
Qed.

(** After [renderUI] the panel agrees with the map it was built from. *)
Lemma lc_inv_render w w' :
  (∀ id r, lc_lights (lightController w') !! id = Some r →
     ∃ d, heapLD w' !! r = Some d ∧ ld_id d = id ∧ kind_invariant d = true) →
  lc_panel (lightController w') = LightController.renderLights w →
  heapLD w = heapLD w' →
  lc_lights (lightController w) = lc_lights (lightController w') →
  lc_inv w'.
Proof.
  intros Ha Hp Hh Hl. split; [done|].
  intros el. rewrite Hp, elem_of_renderLights, Hh, Hl.
  intros (id & r & d & Hr & Hd & ->).
  destruct (Ha _ _ Hr) as (d' & Hd' & Hid & _).
  assert (d' = d) as -> by congruence.
  exists d. unfold LightController.createLightElement. simpl.
  split_and!; [done|by rewrite Hid|..].
  - case_decide; [by intros [? ?]|done].
  - case_decide; [done|]. intros Hb. by apply bool_decide_eq_true in Hb.
Qed.

(** What [addLight] does to the metadata: one new record at a fresh
    location, registered under its own id, and a panel rendered last. *)
Lemma addLight_light_side type w :
  ∃ d, ld_id d
         = LightController.light_id type (LightController.next_count type w) ∧
       ld_type d = type ∧
       kind_invariant d = true ∧
       heapLD (LightController.addLight type w)
         = <[fresh (dom (heapLD w)) := d]> (heapLD w) ∧
       lc_lights (lightController (LightController.addLight type w))
         = <[ld_id d := fresh (dom (heapLD w))]>
             (lc_lights (lightController w)) ∧
       lc_panel (lightController (LightController.addLight type w))
         = LightController.renderLights (LightController.addLight type w).
Proof. destruct type; eexists; split_and!; try reflexivity; reflexivity. Qed.

Lemma lc_inv_addLight type w :
  lc_inv w → lc_inv (LightController.addLight type w).
Proof.
  intros [Ha Hb].
  destruct (addLight_light_side type w) as (d & Hid & _ & Hk & Hh & Hl & Hp).
  apply (lc_inv_render (LightController.addLight type w)); try done.
  rewrite Hh, Hl. intros id r.
  destruct (decide (ld_id d = id)) as [<-|Hne].
  - rewrite lookup_insert_eq. intros [= <-]. exists d.
    by rewrite lookup_insert_eq.
  - rewrite lookup_insert_ne by done. intros Hr.
    destruct (Ha _ _ Hr) as (d' & Hd' & Hi & Hkd). exists d'.
    rewrite lookup_insert_ne; [done|].
    intros <-. by rewrite fresh_heap_None in Hd'.
Qed.

Lemma removeLight_light_side id w :
  heapLD (LightController.removeLight id w) = heapLD w ∧
  (LightController.removeLight id w = w ∨
   lc_lights (lightController (LightController.removeLight id w))
     = delete id (lc_lights (lightController w)) ∧
   lc_panel (lightController (LightController.removeLight id w))
     = LightController.renderLights (LightController.removeLight id w)).
Proof.
  unfold LightController.removeLight.
  destruct (lc_lights (lightController w) !! id) as [r|]; [|by auto].
  split; [|right; split]; repeat case_match; reflexivity.
Qed.

Lemma lc_inv_removeLight id w :
  lc_inv w → lc_inv (LightController.removeLight id w).
Proof.
  intros Hinv.
  destruct (removeLight_light_side id w) as [Hh [->|[Hl Hp]]]; [done|].
  destruct Hinv as [Ha Hb].
  apply (lc_inv_render (LightController.removeLight id w)); try done.
  rewrite Hh, Hl. intros id' r Hr.
  apply lookup_delete_Some in Hr as [_ Hr]. eauto.
Qed.

Lemma updateLightColor_rewrites id color w :
  rewrites (ld_with_color color) id w
           (LightController.updateLightColor id color w).
Proof. unfold rewrites, light_side. expose. repeat case_match; eauto. Qed.

Lemma updateLightIntensity_rewrites id v w :
  rewrites (ld_with_intensity v) id w
           (LightController.updateLightIntensity id v w).
Proof. unfold rewrites, light_side. expose. repeat case_match; eauto. Qed.

Lemma updateLightPosition_rewrites id p w :
  rewrites (ld_with_position (Some p)) id w
           (LightController.updateLightPosition id p w).
Proof. unfold rewrites, light_side. expose. repeat case_match; eauto. Qed.

Lemma updateShadowCasting_rewrites id b w :
  rewrites (ld_with_castShadow (Some b)) id w
           (LightController.updateShadowCasting id b w).
Proof. unfold rewrites, light_side. expose. repeat case_match; eauto. Qed.

Lemma lc_inv_rewrites f id w w' :
  lc_inv w → rewrites f id w w' →
  (∀ d, ld_id (f d) = ld_id d) →
  (∀ d, ld_type (f d) = ld_type d) →
  (∀ r d, lc_lights (lightController w) !! id = Some r →
          heapLD w !! r = Some d → kind_invariant d = true →
          kind_invariant (f d) = true) →
  lc_inv w'.
Proof.
  intros Hinv [Hs|(r & Hr & Hs)] Hid Hty Hk.
  - by apply (lc_inv_frame w).
  - apply (lc_inv_alter w w' f r); eauto.
Qed.

(** Every handler keeps the invariant.  The position sliders and the
    shadow checkbox exist only in elements built for a record of a kind
    that carries the field, and the element still belongs to the record
    registered under its id. *)
Lemma lc_inv_step e w : lc_inv w → enabled e w → lc_inv (handle e w).
Proof.
  intros Hinv He.
  pose proof (object_event_light_side e w) as Hframe.
  destruct e; try (by apply (lc_inv_frame w)); clear Hframe; simpl in *.
  - by apply lc_inv_addLight.
  - unfold on_light. case_match; [|done]. by apply lc_inv_removeLight.
  - unfold on_light. case_match; [|done].
    eapply lc_inv_rewrites; [done|apply updateLightColor_rewrites|done..].
  - unfold on_light. case_match; [|done].
    eapply lc_inv_rewrites;
      [done|apply updateLightIntensity_rewrites|done..].
  - destruct He as (Hel & Hpos & _).
    destruct (lc_controls w Hinv el Hel) as (d & Hd & Hl & Hna & _).
    unfold on_light. rewrite Hd.
    eapply lc_inv_rewrites;
      [done|apply updateLightPosition_rewrites|done..|].
    intros r d' Hr Hd' Hk. assert (r = le_lightData el) as -> by congruence.
    assert (d' = d) as -> by congruence.
    specialize (Hna Hpos). revert Hk. unfold kind_invariant. simpl.
    by destruct (ld_type d).
  - destruct He as (Hel & Hsh).
    destruct (lc_controls w Hinv el Hel) as (d & Hd & Hl & _ & Hds).
    unfold on_light. rewrite Hd.
    eapply lc_inv_rewrites;
      [done|apply updateShadowCasting_rewrites|done..|].
    intros r d' Hr Hd' Hk. assert (r = le_lightData el) as -> by congruence.
    assert (d' = d) as -> by congruence.
    unfold kind_invariant. simpl. by destruct (Hds Hsh) as [-> | ->].
Qed.

Lemma lc_inv_init : lc_inv App.init.
Proof.
  split.
  - intros id r H. vm_compute in H. discriminate.
  - intros el H. vm_compute in H. by apply elem_of_nil in H.
Qed.

Lemma reachable_lc_inv w : reachable w → lc_inv w.
Proof.
  induction 1 as [|w e _ IH He]; [apply lc_inv_init|by apply lc_inv_step].
Qed.

End LightInvariant.

Lemma reachable_one_point_light : reachable one_point_light.
Proof. apply (reachable_step App.init (AddLightClick point)); constructor. Qed.

(** C7: in every state a session can reach, each record of the light
    controller's metadata map satisfies the kind invariant: an ambient light
    has neither position nor shadow flag, a directional or a spot light has a
    shadow flag, a point light has none.  Creation establishes it and every
    edit the panel offers keeps it. *)
Theorem light_metadata_kind_invariant (w : World) (id : string) (r : loc)
    (d : LightData) :
  reachable w →
  lc_lights (lightController w) !! id = Some r →
  heapLD w !! r = Some d →
  (ld_type d = ambient → ld_position d = None ∧ ld_castShadow d = None) ∧
  (ld_type d = directional ∨ ld_type d = spot → is_Some (ld_castShadow d)) ∧
  (ld_type d = point → ld_castShadow d = None).
Proof.
  intros Hw Hr Hd.
  destruct (lc_records w (reachable_lc_inv w Hw) id r Hr) as (d' & Hd' & _ & Hk).
  assert (d' = d) as -> by congruence.
  revert Hk. unfold kind_invariant, defined.
  destruct (ld_type d), (ld_position d), (ld_castShadow d); simpl;
    intros Hk; split_and!; try done; try (by intros [|]); by eexists.
Qed.

Lemma light_metadata_kind_invariant_witness :
  ld_castShadow
    (mkLightData "point_1" point "#ffffff" 1 (Some (mkVector3 2 2 2)) None None
       (Some 7%positive)) = None.
Proof.
  destruct (light_metadata_kind_invariant one_point_light "point_1" 1%positive
              (mkLightData "point_1" point "#ffffff" 1
                 (Some (mkVector3 2 2 2)) None None (Some 7%positive))
              reachable_one_point_light)
    as (_ & _ & Hpoint);
    [vm_compute; reflexivity..|].
  exact (Hpoint eq_refl).
Defined.

(** ** Intensity *)

Section Lights.
Implicit Types (h : gmap loc Object3D) (m : gmap string loc).

Lemma keeps_light_set_light_color c : keeps_light (set_light_color c).
Proof. intros [[] ? ? ? ? ?]; reflexivity. Qed.
Lemma keeps_light_set_light_intensity v : keeps_light (set_light_intensity v).
Proof. intros [[] ? ? ? ? ?]; reflexivity. Qed.
Lemma keeps_light_with_position p : keeps_light (with_position p).
Proof. intros o; reflexivity. Qed.
Lemma keeps_light_with_rotation p : keeps_light (with_rotation p).
Proof. intros o; reflexivity. Qed.
Lemma keeps_light_with_scale p : keeps_light (with_scale p).
Proof. intros o; reflexivity. Qed.
Lemma keeps_light_with_castShadow b : keeps_light (with_castShadow b).
Proof. intros o; reflexivity. Qed.
Lemma keeps_light_set_material g : keeps_light (set_material g).
Proof. intros [[] ? ? ? ? ?]; reflexivity. Qed.
Lemma keeps_light_helper_refresh h : keeps_light (helper_refresh h).
Proof. intros [[] ? ? ? ? ?]; reflexivity. Qed.

Lemma lights_ok_alter f l h m :
  keeps_light f → lights_ok h m → lights_ok (alter f l h) m.
Proof.
  intros Hf Hm id l' Hl. destruct (Hm id l' Hl) as (o & Ho & Hlight).
  destruct (decide (l' = l)) as [->|Hne].
  - exists (f o). rewrite lookup_alter_eq, Ho. by rewrite Hf.
  - exists o. by rewrite lookup_alter_ne.
Qed.

Lemma lights_ok_alloc o h m :
  lights_ok h m → lights_ok (<[fresh (dom h) := o]> h) m.
Proof.
  intros Hm id l Hl. destruct (Hm id l Hl) as (o' & Ho & Hlight).
  exists o'. rewrite lookup_insert_ne; [done|].
  intros <-. by rewrite fresh_heap_None in Ho.
Qed.

Lemma lights_ok_insert id l o h m :
  h !! l = Some o → is_Light o = true →
  lights_ok h m → lights_ok h (<[id := l]> m).
Proof.
  intros Ho Hlight Hm id' l'. destruct (decide (id = id')) as [<-|Hne].
  - rewrite lookup_insert_eq. intros [= <-]. eauto.
  - rewrite lookup_insert_ne by done. apply Hm.
Qed.

Lemma lights_ok_delete id h m : lights_ok h m → lights_ok h (delete id m).
Proof.
  intros Hm id' l Hl. apply lookup_delete_Some in Hl as [_ Hl].
  by apply (Hm id').
Qed.

(** What is allocated stays where it is when more is allocated. *)
Lemma lookup_alloc_later (o o' : Object3D) l h :
  h !! l = Some o → <[fresh (dom h) := o']> h !! l = Some o.
Proof.
  intros Hl. rewrite lookup_insert_ne; [done|].
  intros <-. by rewrite fresh_heap_None in Hl.
Qed.

Lemma lights_ok_empty h : lights_ok h ∅.
Proof. intros id l Hl. by rewrite lookup_empty in Hl. Qed.
End Lights.

Lemma removeLight_lights id sm :
sm_lights (SceneManager.removeLight id sm).2 = delete id (sm_lights sm).
Proof.
unfold SceneManager.removeLight.
destruct (sm_lights sm !! id) eqn:Hl; simpl; [done|].
symmetry. by apply delete_id.
Qed.

Lemma removeObject_lights id sm :
sm_lights (SceneManager.removeObject id sm).2 = sm_lights sm.
Proof. unfold SceneManager.removeObject. by case_match. Qed.

Create HintDb keeps_light discriminated.
#[local] Hint Resolve keeps_light_set_light_color
keeps_light_set_light_intensity keeps_light_with_position
keeps_light_with_rotation keeps_light_with_scale keeps_light_with_castShadow
keeps_light_set_material keeps_light_helper_refresh : keeps_light.

Ltac lights_step :=
first
  [ assumption
  | eapply lights_ok_insert;
      [solve [repeat first [apply lookup_insert_eq
                           | apply lookup_alloc_later]]
      |reflexivity|]
  | apply lights_ok_empty
  | apply lights_ok_delete
  | apply lights_ok_alter; [solve [eauto with keeps_light]|]
  | apply lights_ok_alloc ].

Lemma registry_inv_step e w :
  registry_inv w → enabled e w → registry_inv (handle e w).
Proof.
intros Hinv He. unfold registry_inv in *.
destruct e; expose;
  try match goal with t : LightType |- _ => destruct t end;
  try match goal with
      | |- context [ObjectController.geometry_of ?t] =>
          destruct (ObjectController.geometry_of t); expose
      end;
  repeat case_match; simpl;
  rewrite ?removeLight_lights, ?removeObject_lights; repeat lights_step.
Qed.

Lemma registry_inv_init : registry_inv App.init.
Proof.
unfold registry_inv, App.init, App.setupDefaultObjects,
  App.setupDefaultLighting, App.setupGrid, App.empty, App.scene_add.
expose. simpl. repeat lights_step.
Qed.

Lemma reachable_registry_inv w : reachable w → registry_inv w.
Proof.
induction 1 as [|w e _ IH He];
  [apply registry_inv_init|by apply registry_inv_step].
Qed.

(** What [updateLightIntensity] does when both lookups succeed. *)
Lemma updateLightIntensity_effect (id : string) (v : float) (w : World)
    (r l : loc) (d : LightData) (o : Object3D) :
  lc_lights (lightController w) !! id = Some r →
  heapLD w !! r = Some d →
  SceneManager.getLight id (sceneManager w) = Some l →
  heap3D w !! l = Some o →
  is_Light o = true →
  let w' := LightController.updateLightIntensity id v w in
  ld_intensity <$> heapLD w' !! r = Some v ∧
  heap3D w' !! l ≫= light_intensity = Some v ∧
  lightController w' = lightController w ∧
  sceneManager w' = sceneManager w.
Proof.
  intros Hr Hd Hl Ho Hi. simpl.
  unfold LightController.updateLightIntensity. rewrite Hl, Hr. simpl.
  rewrite !lookup_alter_eq, Hd, Ho. simpl.
  split_and!; try done.
  unfold is_Light, light_intensity, set_light_intensity in *.
  by destruct (o_class o).
Qed.

(** C2: in a reachable state, when the id has an entry in the metadata map
    of the light controller and an entry in the lights map of the registry,
    editing the intensity to a value [v] between 0 and 5 leaves [v] as the
    intensity of the metadata record and as the intensity of the live light,
    and both entries are still the same record and the same light. *)
Theorem intensity_edit_synchronised (w : World) (id : string) (v : float)
    (r l : loc) :
  reachable w →
  lc_lights (lightController w) !! id = Some r →
  SceneManager.getLight id (sceneManager w) = Some l →
  (0 <=? v)%float = true → (v <=? 5)%float = true →
  let w' := LightController.updateLightIntensity id v w in
  ld_intensity <$> heapLD w' !! r = Some v ∧
  heap3D w' !! l ≫= light_intensity = Some v ∧
  lc_lights (lightController w') !! id = Some r ∧
  SceneManager.getLight id (sceneManager w') = Some l.
Proof.
  intros Hw Hr Hl _ _.
  destruct (lc_records w (reachable_lc_inv w Hw) id r Hr) as (d & Hd & _).
  destruct (reachable_registry_inv w Hw id l Hl) as (o & Ho & Hlight).
  destruct (updateLightIntensity_effect id v w r l d o Hr Hd Hl Ho Hlight)
    as (H1 & H2 & H3 & H4).
  simpl in *. rewrite H3, H4. auto.
Qed.

Lemma intensity_edit_synchronised_witness :
  ld_intensity <$>
    heapLD (LightController.updateLightIntensity "point_1" 2.5 one_point_light)
      !! 1%positive = Some 2.5%float ∧
  heap3D (LightController.updateLightIntensity "point_1" 2.5 one_point_light)
    !! 6%positive ≫= light_intensity = Some 2.5%float.
Proof.
  destruct (intensity_edit_synchronised one_point_light "point_1" 2.5
              1%positive 6%positive reachable_one_point_light)
    as (H1 & H2 & _); try (vm_compute; reflexivity).
  split; [exact H1|exact H2].
Defined.

(** ** Imported models in the registry *)

Section Models.

Implicit Types (h : gmap loc Object3D) (m : gmap string loc).

Lemma keeps_class_set_light_color c : keeps_class (set_light_color c).
Proof. intros [[] ? ? ? ? ?]; reflexivity. Qed.
Lemma keeps_class_set_light_intensity v : keeps_class (set_light_intensity v).
Proof. intros [[] ? ? ? ? ?]; reflexivity. Qed.
Lemma keeps_class_with_position p : keeps_class (with_position p).
Proof. intros o; reflexivity. Qed.
Lemma keeps_class_with_rotation p : keeps_class (with_rotation p).
Proof. intros o; reflexivity. Qed.
Lemma keeps_class_with_scale p : keeps_class (with_scale p).
Proof. intros o; reflexivity. Qed.
Lemma keeps_class_with_castShadow b : keeps_class (with_castShadow b).
Proof. intros o; reflexivity. Qed.
Lemma keeps_class_set_material g : keeps_class (set_material g).
Proof. intros [[] ? ? ? ? ?]; reflexivity. Qed.
Lemma keeps_class_helper_refresh h : keeps_class (helper_refresh h).
Proof. intros [[] ? ? ? ? ?]; reflexivity. Qed.

Lemma models_ok_alter f l h m :
  keeps_class f → models_ok h m → models_ok (alter f l h) m.
Proof.
  intros Hf Hm id o Hp Ho. destruct (Hm id o Hp Ho) as (obj & Hobj & Hnm).
  destruct (decide (o = l)) as [->|Hne].
  - exists (f obj). rewrite lookup_alter_eq, Hobj. by rewrite Hf.
  - exists obj. by rewrite lookup_alter_ne.
Qed.

Lemma models_ok_alloc obj h m :
  models_ok h m → models_ok (<[fresh (dom h) := obj]> h) m.
Proof.
  intros Hm id o Hp Ho. destruct (Hm id o Hp Ho) as (obj' & Hobj & Hnm).
  exists obj'. rewrite lookup_insert_ne; [done|].
  intros <-. by rewrite fresh_heap_None in Hobj.
Qed.

Lemma models_ok_insert_other id o h m :
  ¬ model_prefixed id → models_ok h m → models_ok h (<[id := o]> m).
Proof.
  intros Hn Hm id' o' Hp. destruct (decide (id = id')) as [<-|Hne]; [done|].
  rewrite lookup_insert_ne by done. by apply Hm.
Qed.

Lemma models_ok_insert_group id o obj h m :
  h !! o = Some obj → is_Mesh obj = false →
  models_ok h m → models_ok h (<[id := o]> m).
Proof.
  intros Ho Hnm Hm id' o' Hp. destruct (decide (id = id')) as [<-|Hne].
  - rewrite lookup_insert_eq. intros [= <-]. eauto.
  - rewrite lookup_insert_ne by done. by apply Hm.
Qed.

Lemma models_ok_delete id h m : models_ok h m → models_ok h (delete id m).
Proof.
  intros Hm id' o' Hp Ho. apply lookup_delete_Some in Ho as [_ Ho].
  by apply (Hm id').
Qed.

End Models.

Section Records.

Implicit Types (h : gmap loc ObjectData) (m : gmap string loc).

Lemma keeps_origin_position p : keeps_origin (od_with_position p).
Proof. by intros d. Qed.
Lemma keeps_origin_rotation p : keeps_origin (od_with_rotation p).
Proof. by intros d. Qed.
Lemma keeps_origin_scale p : keeps_origin (od_with_scale p).
Proof. by intros d. Qed.
Lemma keeps_origin_color p : keeps_origin (od_with_color p).
Proof. by intros d. Qed.
Lemma keeps_origin_roughness p : keeps_origin (od_with_roughness p).
Proof. by intros d. Qed.
Lemma keeps_origin_metalness p : keeps_origin (od_with_metalness p).
Proof. by intros d. Qed.

Lemma records_ok_alter f r h m :
  keeps_origin f → records_ok h m → records_ok (alter f r h) m.
Proof.
  intros Hf Hm id r' Hr. destruct (Hm id r' Hr) as (d & Hd & Hid & Hc).
  destruct (Hf d) as (Hf1 & Hf2 & Hf3).
  destruct (decide (r' = r)) as [->|Hne].
  - exists (f d). rewrite lookup_alter_eq, Hd. unfold imported.
    by rewrite Hf1, Hf2, Hf3.
  - exists d. by rewrite lookup_alter_ne.
Qed.

Lemma records_ok_insert d h m :
  (imported d → model_prefixed (od_id d) ∧
                ∃ url, od_modelUrl d = Some url ∧ url ≠ "") →
  records_ok h m →
  records_ok (<[fresh (dom h) := d]> h) (<[od_id d := fresh (dom h)]> m).
Proof.
  intros Hd Hm id r. destruct (decide (od_id d = id)) as [<-|Hne].
  - rewrite lookup_insert_eq. intros [= <-]. exists d.
    by rewrite lookup_insert_eq.
  - rewrite lookup_insert_ne by done. intros Hr.
    destruct (Hm id r Hr) as (d' & Hd' & Hid & Hc). exists d'.
    rewrite lookup_insert_ne; [done|].
    intros <-. by rewrite fresh_heap_None in Hd'.
Qed.

Lemma records_ok_delete id h m : records_ok h m → records_ok h (delete id m).
Proof.
  intros Hm id' r Hr. apply lookup_delete_Some in Hr as [_ Hr].
  by apply (Hm id').
Qed.

End Records.

Create HintDb keeps discriminated.
#[local] Hint Resolve keeps_class_set_light_color
  keeps_class_set_light_intensity keeps_class_with_position
  keeps_class_with_rotation keeps_class_with_scale keeps_class_with_castShadow
  keeps_class_set_material keeps_class_helper_refresh
  keeps_origin_position keeps_origin_rotation keeps_origin_scale
  keeps_origin_color keeps_origin_roughness keeps_origin_metalness : keeps.

Lemma loading_ok_filter (P : string * string → Prop) `{!∀ x, Decision (P x)} l :
  loading_ok l → loading_ok (filter P l).
Proof.
  intros Hl id url Hin. apply list_elem_of_filter in Hin as [_ Hin].
  by apply Hl.
Qed.

Lemma loading_ok_cons n url l :
  url ≠ "" → loading_ok l →
  loading_ok ((ObjectController.model_id n, url) :: l).
Proof.
  intros Hu Hl id url' Hin. apply elem_of_cons in Hin as [[= -> ->]|Hin].
  - split; [by eexists|done].
  - by apply Hl.
Qed.

(** The ids of primitives and of light helpers never start with [model_]. *)
Lemma primitive_not_model type g n :
  ObjectController.geometry_of type = Some g →
  ¬ model_prefixed (ObjectController.object_id type n).
Proof.
  unfold ObjectController.geometry_of, ObjectController.object_id.
  intros Hg [s Hs]. repeat case_decide; simplify_eq/=.
Qed.

Lemma helper_not_model type n :
  ¬ model_prefixed (LightController.light_id type n +:+ "_helper").
Proof. intros [s Hs]. destruct type; simplify_eq/=. Qed.

(** Each update of the world a handler is made of keeps the invariant. *)
Section Preservation.

Implicit Types (w : World).

Lemma oc_inv_heap3D_alter f l w :
  keeps_class f → oc_inv w → oc_inv (upd_heap3D (alter f l) w).
Proof. intros Hf [? ? ?]. split; [done| |done]. by apply models_ok_alter. Qed.

Lemma oc_inv_alloc3D obj w :
  oc_inv w → oc_inv (upd_heap3D <[fresh (dom (heap3D w)) := obj]> w).
Proof. intros [? ? ?]. split; [done| |done]. by apply models_ok_alloc. Qed.

Lemma oc_inv_heapLD f w : oc_inv w → oc_inv (upd_heapLD f w).
Proof. by intros [? ? ?]. Qed.

Lemma oc_inv_lightController f w :
  oc_inv w → oc_inv (upd_lightController f w).
Proof. by intros [? ? ?]. Qed.

Lemma oc_inv_heapOD_alter f r w :
  keeps_origin f → oc_inv w → oc_inv (upd_heapOD (alter f r) w).
Proof. intros Hf [? ? ?]. split; [|done..]. by apply records_ok_alter. Qed.

Lemma oc_inv_sm_addLight id light w :
  oc_inv w → oc_inv (sm_addLight id light w).
Proof. by intros [? ? ?]. Qed.

Lemma oc_inv_sm_removeLight id w : oc_inv w → oc_inv (sm_removeLight id w).
Proof.
  intros [? ? ?]. split; [done| |done].
  unfold sm_removeLight, SceneManager.removeLight. simpl. by case_match.
Qed.

Lemma oc_inv_sm_addObject id o w :
  ¬ model_prefixed id → oc_inv w → oc_inv (sm_addObject id o w).
Proof.
  intros Hn [? ? ?]. split; [done| |done]. simpl.
  by apply models_ok_insert_other.
Qed.

Lemma oc_inv_sm_removeObject id w : oc_inv w → oc_inv (sm_removeObject id w).
Proof.
  intros [? ? ?]. split; [done| |done].
  unfold sm_removeObject, SceneManager.removeObject. simpl.
  case_match; [|done]. by apply models_ok_delete.
Qed.

Lemma oc_inv_new_group id obj w :
  is_Mesh obj = false → oc_inv w →
  oc_inv (sm_addObject id (fresh (dom (heap3D w)))
            (upd_heap3D <[fresh (dom (heap3D w)) := obj]> w)).
Proof.
  intros Hg [? ? ?]. split; [done| |done]. simpl.
  eapply models_ok_insert_group; [apply lookup_insert_eq|done|].
  by apply models_ok_alloc.
Qed.

Lemma oc_inv_new_record id d w :
  od_id d = id →
  (imported d → model_prefixed id ∧
                ∃ url, od_modelUrl d = Some url ∧ url ≠ "") →
  oc_inv w →
  oc_inv (ObjectController.set_objects <[id := fresh (dom (heapOD w))]>
            (upd_heapOD <[fresh (dom (heapOD w)) := d]> w)).
Proof.
  intros <- Hd [? ? ?]. split; [|done..]. simpl. by apply records_ok_insert.
Qed.

Lemma oc_inv_delete_record id w :
  oc_inv w → oc_inv (ObjectController.set_objects (delete id) w).
Proof. intros [? ? ?]. split; [|done..]. by apply records_ok_delete. Qed.

Lemma oc_inv_render_objects w :
  oc_inv w → oc_inv (ObjectController.renderUI w).
Proof. by intros [? ? ?]. Qed.

Lemma oc_inv_render_lights w : oc_inv w → oc_inv (LightController.renderUI w).
Proof. by intros [? ? ?]. Qed.

Lemma oc_inv_incr_objectCounter w :
  oc_inv w → oc_inv (ObjectController.incr_objectCounter w).
Proof. by intros [? ? ?]. Qed.

Lemma oc_inv_incr_modelCounter w :
  oc_inv w → oc_inv (ObjectController.incr_modelCounter w).
Proof. by intros [? ? ?]. Qed.

Lemma oc_inv_revoke url w :
  oc_inv w → oc_inv (ObjectController.revokeObjectURL url w).
Proof. by intros [? ? ?]. Qed.

Lemma oc_inv_load_done id url w : oc_inv w → oc_inv (load_done id url w).
Proof. intros [? ? ?]. split; [done..|]. by apply loading_ok_filter. Qed.

End Preservation.

(** One step through an exposed handler, from the outermost update in. *)
Ltac oc_step :=
  first
    [ assumption
    | apply oc_inv_render_objects | apply oc_inv_render_lights
    | apply oc_inv_heapLD | apply oc_inv_lightController
    | apply oc_inv_heap3D_alter; [solve [eauto with keeps]|]
    | apply oc_inv_heapOD_alter; [solve [eauto with keeps]|]
    | apply oc_inv_new_group; [reflexivity|]
    | apply oc_inv_alloc3D
    | apply oc_inv_sm_addLight | apply oc_inv_sm_removeLight
    | apply oc_inv_sm_removeObject
    | apply oc_inv_sm_addObject;
        [solve [eauto using helper_not_model, primitive_not_model]|]
    | apply oc_inv_delete_record
    | apply oc_inv_incr_objectCounter | apply oc_inv_incr_modelCounter
    | apply oc_inv_revoke | apply oc_inv_load_done
    | case_match ].

Lemma oc_inv_step e w : oc_inv w → enabled e w → oc_inv (handle e w).
Proof.
  intros Hinv He.
  destruct e; expose.
  - destruct type; expose; repeat oc_step.
  - repeat oc_step.
  - repeat oc_step.
  - repeat oc_step.
  - repeat oc_step.
  - repeat oc_step.
  - destruct (ObjectController.geometry_of type) as [g|] eqn:Hg;
      expose; repeat oc_step.
    all: apply oc_inv_new_record; [done|by intros [=]|]; repeat oc_step.
  - repeat oc_step.
  - repeat oc_step.
  - repeat oc_step.
  - repeat oc_step.
  - repeat oc_step.
  - repeat oc_step.
  - repeat oc_step.
  - destruct Hinv as [? ? ?]. split; [done..|]. simpl.
    apply loading_ok_cons; [discriminate|done].
  - destruct (oc_loading _ Hinv _ _ He) as [Hp Hu].
    repeat oc_step.
    all: apply oc_inv_new_record; [done|eauto|]; repeat oc_step.
  - repeat oc_step.
Qed.

Lemma oc_inv_init : oc_inv App.init.
Proof.
  split.
  - intros id r H. vm_compute in H. discriminate.
  - intros id o [s ->] H. vm_compute in H. discriminate.
  - intros id url H. vm_compute in H. by apply elem_of_nil in H.
Qed.

Lemma reachable_oc_inv w : reachable w → oc_inv w.
Proof.
  induction 1 as [|w e _ IH He]; [apply oc_inv_init|by apply oc_inv_step].
Qed.

Lemma reachable_one_big_model : reachable one_big_model.
Proof.
  apply (reachable_step _ (ModelLoaded "model_1" "blob:0" zero3 big_model_size)).
  - apply (reachable_step App.init ModelFileChosen); constructor.
  - vm_compute. apply list_elem_of_here.
Qed.


(** C6: in a reachable state, a colour, roughness or metalness edit aimed at
    the id of an imported model returns the world it was given: the live
    entity, the metadata record and everything else are as before.  The edit
    methods have no [throw]. *)
Theorem material_edit_on_import_is_noop (w : World) (op : Edit) (id : string)
    (r : loc) (d : ObjectData) :
  reachable w →
  oc_objects (objectController w) !! id = Some r →
  heapOD w !! r = Some d →
  od_isCustomModel d = Some true →
  material_op op = true →
  edit op id w = w.
Proof.
  intros [Hrec Hmod _]%reachable_oc_inv Hr Hd Hc Hop.
  destruct (Hrec id r Hr) as (d' & Hd' & _ & Himp).
  assert (d' = d) as -> by congruence.
  destruct (Himp Hc) as [Hp _].
  assert (∀ f g, ObjectController.material_edit id f g w = w) as Hnoop.
  { intros f g. unfold ObjectController.material_edit, SceneManager.getObject.
    destruct (sm_objects (sceneManager w) !! id) as [o|] eqn:Ho; [|done].
    rewrite Hr. destruct (Hmod id o Hp Ho) as (obj & -> & ->). done. }
  destruct op; try discriminate; apply Hnoop.
Qed.

Lemma material_edit_on_import_is_noop_witness :
  edit (ObjectColor "#ff0000") "model_1" one_big_model = one_big_model.
Proof.
  apply (material_edit_on_import_is_noop one_big_model (ObjectColor "#ff0000")
           "model_1" 1%positive
           (mkObjectData "model_1" "custom_model" zero3 euler0 one3 "#ffffff"
              0.5 0.2 (Some true) (Some "blob:0")));
    [exact reachable_one_big_model|vm_compute; reflexivity..].
Defined.

(** ** Object URLs along a session *)

Section Urls.
Implicit Types (h : gmap loc ObjectData) (m : gmap string loc) (b : Browser).

Lemma revocable_keeps f d :
  keeps_origin f →
  ObjectController.revocable (f d) = ObjectController.revocable d.
Proof.
  intros Hf. destruct (Hf d) as (_ & H2 & H3).
  unfold ObjectController.revocable. by rewrite H2, H3.
Qed.

Lemma held_alter f r h m id url :
  keeps_origin f → held (alter f r h) m id url ↔ held h m id url.
Proof.
  intros Hf. unfold held. split.
  - intros (r' & d & Hr & Hd & Hu).
    destruct (decide (r' = r)) as [->|Hne].
    + rewrite lookup_alter_eq in Hd.
      destruct (h !! r) as [d0|] eqn:Hd0; simplify_eq/=.
      rewrite revocable_keeps in Hu by done. eauto.
    + rewrite lookup_alter_ne in Hd by done. eauto.
  - intros (r' & d & Hr & Hd & Hu).
    destruct (decide (r' = r)) as [->|Hne].
    + exists r, (f d). rewrite lookup_alter_eq, Hd.
      by rewrite revocable_keeps.
    + exists r', d. by rewrite lookup_alter_ne.
Qed.

Lemma urls_ok_held h m h' m' b :
  (∀ id url, held h' m' id url → held h m id url) →
  (∀ id r, m' !! id = Some r → is_Some (h' !! r)) →
  urls_ok h m b → urls_ok h' m' b.
Proof.
  intros Hsub Hal [].
  split; eauto.
Qed.

Lemma urls_ok_alter f r h m b :
  keeps_origin f → urls_ok h m b → urls_ok (alter f r h) m b.
Proof.
  intros Hf Hok. apply (urls_ok_held h m); [| |done].
  - intros id url. by rewrite held_alter.
  - intros id r' Hr. destruct (allocated _ _ _ Hok id r' Hr) as [d Hd].
    destruct (decide (r' = r)) as [->|Hne].
    + rewrite lookup_alter_eq, Hd. by eexists.
    + rewrite lookup_alter_ne by done. by eexists.
Qed.

Lemma held_insert d id h m id' url :
  (∀ id r, m !! id = Some r → is_Some (h !! r)) →
  held (<[fresh (dom h) := d]> h) (<[id := fresh (dom h)]> m) id' url →
  (id' = id ∧ ObjectController.revocable d = Some url) ∨
  (id' ≠ id ∧ held h m id' url).
Proof.
  intros Hal (r & d' & Hr & Hd & Hu).
  destruct (decide (id = id')) as [<-|Hne].
  - rewrite lookup_insert_eq in Hr. injection Hr as <-.
    rewrite lookup_insert_eq in Hd. injection Hd as <-. by left.
  - rewrite lookup_insert_ne in Hr by done. right. split; [done|].
    destruct (Hal _ _ Hr) as [d0 Hd0].
    rewrite lookup_insert_ne in Hd.
    + by exists r, d'.
    + intros <-. by rewrite fresh_heap_None in Hd0.
Qed.

Lemma allocated_insert d id h m :
  (∀ id r, m !! id = Some r → is_Some (h !! r)) →
  ∀ id' r, <[id := fresh (dom h)]> m !! id' = Some r →
           is_Some (<[fresh (dom h) := d]> h !! r).
Proof.
  intros Hal id' r. destruct (decide (id = id')) as [<-|Hne].
  - rewrite lookup_insert_eq. intros [= <-]. rewrite lookup_insert_eq.
    by eexists.
  - rewrite lookup_insert_ne by done. intros Hr.
    destruct (Hal _ _ Hr) as [d0 Hd0]. exists d0.
    rewrite lookup_insert_ne; [done|].
    intros <-. by rewrite fresh_heap_None in Hd0.
Qed.

Lemma urls_ok_primitive d id h m b :
  ObjectController.revocable d = None →
  urls_ok h m b →
  urls_ok (<[fresh (dom h) := d]> h) (<[id := fresh (dom h)]> m) b.
Proof.
  intros Hd Hok. apply (urls_ok_held h m); [| |done].
  - intros id' url [[_ Hu]|[_ Hh]]%held_insert; [congruence|done|].
    apply (allocated _ _ _ Hok).
  - apply allocated_insert, (allocated _ _ _ Hok).
Qed.

Lemma held_delete id h m id' url :
  held h (delete id m) id' url ↔ id' ≠ id ∧ held h m id' url.
Proof.
  unfold held. split.
  - intros (r & d & Hr & Hd & Hu).
    apply lookup_delete_Some in Hr as [Hne Hr]. split; [done|eauto].
  - intros (Hne & r & d & Hr & Hd & Hu). exists r, d.
    split; [|done]. by apply lookup_delete_Some.
Qed.

Lemma urls_ok_delete id h m b :
  urls_ok h m b → urls_ok h (delete id m) b.
Proof.
  intros Hok. apply (urls_ok_held h m); [| |done].
  - intros id' url Hh. by apply held_delete in Hh as [_ ?].
  - intros id' r Hr. apply lookup_delete_Some in Hr as [_ Hr].
    by apply (allocated _ _ _ Hok id').
Qed.

(** Removing the record of an imported model and releasing its URL. *)
Lemma urls_ok_release id url h m b :
  held h m id url →
  urls_ok h m b →
  urls_ok h (delete id m)
          (mkBrowser (blobCount b) (url :: revoked b) (loading b)).
Proof.
  intros Hheld Hok. pose proof (urls_ok_delete id _ _ _ Hok) as Hok'.
  destruct Hok' as [H1 H2 H3 H4 H5 H6 H7 H8 H9 H10].
  split; simpl; try done.
  - constructor; [|done]. by apply (held_live _ _ _ Hok id).
  - intros url' [->|Hin]%elem_of_cons; [|by apply H2].
    apply (held_issued _ _ _ Hok id url Hheld).
  - intros id' url' Hh. apply not_elem_of_cons. split; [|by eapply H5].
    intros ->. apply held_delete in Hh as [Hne Hh].
    by destruct (held_unique _ _ _ Hok _ _ _ Hh Hheld).
  - intros id' url' Hp. apply not_elem_of_cons. split; [|by eapply H6].
    intros ->. by apply (held_not_pending _ _ _ Hok _ id' _ Hheld).
Qed.

Lemma issued_mono b b' url :
  (blobCount b ≤ blobCount b')%N → issued b url → issued b' url.
Proof. intros Hle (k & -> & Hk). exists k. split; [done|lia]. Qed.

Lemma issued_not_next b :
  ¬ issued b ("blob:" +:+ number_text (blobCount b)).
Proof.
  intros (k & Hk & Hlt). unfold number_text in Hk. simplify_eq/=. lia.
Qed.

(** [handleModelUpload]: a new URL is issued and goes with the load. *)
Lemma urls_ok_upload id h m b :
  urls_ok h m b →
  urls_ok h m
    (mkBrowser (blobCount b + 1) (revoked b)
       ((id, "blob:" +:+ number_text (blobCount b)) :: loading b)).
Proof.
  intros [H1 H2 H3 H4 H5 H6 H7 H8 H9 H10].
  pose proof (issued_not_next b) as Hnew.
  assert (∀ url, issued b url →
            issued (mkBrowser (blobCount b + 1) (revoked b)
                      ((id, "blob:" +:+ number_text (blobCount b))
                         :: loading b)) url) as Hmono.
  { intros url. apply issued_mono. simpl. lia. }
  split; simpl; try done; unfold pending; simpl.
  - eauto.
  - eauto.
  - intros id' url [[= -> ->]|Hin]%elem_of_cons; [|by eauto].
    exists (blobCount b). split; [done|simpl; lia].
  - intros id' url [[= -> ->]|Hin]%elem_of_cons; [|by eauto].
    intros Hin. by apply Hnew, H2.
  - intros id1 id2 url Hh [[= -> ->]|Hin]%elem_of_cons; [|by eapply H7].
    by apply Hnew, (H3 id1).
  - intros id1 id2 url [Heq1|Hin1]%elem_of_cons [Heq2|Hin2]%elem_of_cons;
      simplify_eq; try done.
    + destruct Hnew. by apply (H4 id2).
    + destruct Hnew. by apply (H4 id1).
    + by apply (H9 _ _ url).
Qed.

(** A load that has ended is no longer in flight. *)
Lemma urls_ok_done (P : string * string → Prop) `{!∀ x, Decision (P x)}
    h m b :
  urls_ok h m b →
  urls_ok h m (mkBrowser (blobCount b) (revoked b) (filter P (loading b))).
Proof.
  intros [H1 H2 H3 H4 H5 H6 H7 H8 H9 H10].
  split; simpl; try done; unfold pending; simpl.
  - intros id url [_ Hin]%list_elem_of_filter. by apply (H4 id).
  - intros id url [_ Hin]%list_elem_of_filter. by apply (H6 id).
  - intros id id' url Hh [_ Hin]%list_elem_of_filter. by apply (H7 id id' url).
  - intros id id' url [_ Hin]%list_elem_of_filter [_ Hin']%list_elem_of_filter.
    by apply (H9 _ _ url).
Qed.

(** The success callback: the URL passes from the load to the record. *)
Lemma urls_ok_loaded d id url h m b :
  ObjectController.revocable d = Some url →
  pending b id url →
  urls_ok h m b →
  urls_ok (<[fresh (dom h) := d]> h) (<[id := fresh (dom h)]> m)
    (mkBrowser (blobCount b) (revoked b)
       (filter (λ p, p ≠ (id, url)) (loading b))).
Proof.
  intros Hd Hp [H1 H2 H3 H4 H5 H6 H7 H8 H9 H10].
  assert (∀ id' url',
    held (<[fresh (dom h) := d]> h) (<[id := fresh (dom h)]> m) id' url' →
    (id' = id ∧ url' = url) ∨ (id' ≠ id ∧ held h m id' url')) as Hcases.
  { intros id' url' [[-> Hu]|?]%held_insert; [left|by right|done].
    split; [done|congruence]. }
  split; simpl; try done; unfold pending; simpl.
  - intros id' url' [[-> ->]|[_ Hh]]%Hcases; [by apply (H4 id)|by eauto].
  - intros id' url' [_ Hin]%list_elem_of_filter. by apply (H4 id').
  - intros id' url' [[-> ->]|[_ Hh]]%Hcases; [by apply (H6 id)|by eauto].
  - intros id' url' [_ Hin]%list_elem_of_filter. by apply (H6 id').
  - intros id1 id2 url' [[-> ->]|[_ Hh]]%Hcases
      [Hne Hin]%list_elem_of_filter.
    + apply Hne. f_equal. by apply (H9 _ _ url).
    + by apply (H7 id1 id2 url').
  - intros id1 id2 url' [[-> ->]|[Hn1 Hh1]]%Hcases
      [[-> Hu]|[Hn2 Hh2]]%Hcases; try done.
    + subst. by destruct (H7 id2 id url).
    + subst. by destruct (H7 id1 id url).
    + by apply (H8 _ _ url').
  - intros id1 id2 url' [_ Hin]%list_elem_of_filter
      [_ Hin']%list_elem_of_filter. by apply (H9 _ _ url').
  - by apply allocated_insert.
Qed.
End Urls.

Lemma url_inv_frame w w' : object_side w' = object_side w → url_inv w → url_inv w'.
Proof. unfold object_side, url_inv. by intros [= -> -> ->]. Qed.

Lemma light_event_object_side e w :
  match e with
  | AddLightClick _ | LightRemoveClick _ | LightColorChange _ _
  | LightIntensityInput _ _ | LightPositionInput _ _ _
  | LightShadowChange _ _ => object_side (handle e w) = object_side w
  | _ => True
  end.
Proof.
  destruct e; try exact I; expose; unfold object_side;
    try match goal with t : LightType |- _ => destruct t end;
    repeat case_match; simplify_eq; reflexivity.
Qed.

Ltac url_case :=
  repeat case_match; simpl;
  first
    [ assumption
    | apply urls_ok_alter; [solve [eauto with keeps]|assumption]
    | apply urls_ok_primitive; [reflexivity|assumption] ].

Lemma url_inv_step e w : url_inv w → enabled e w → url_inv (handle e w).
Proof.
  intros Hinv He.
  pose proof (light_event_object_side e w) as Hframe.
  destruct e; try (by apply (url_inv_frame w)); clear Hframe;
    expose; unfold url_inv in *.
  - destruct (ObjectController.geometry_of type) as [g|] eqn:Hg;
      expose; [|done]. url_case.
  - destruct (heapOD w !! oe_objectData el) as [d0|]; [|done].
    unfold ObjectController.removeObject.
    destruct (oc_objects (objectController w) !! od_id d0) as [r|] eqn:Hr;
      [|done].
    destruct (heapOD w !! r) as [d|] eqn:Hd; simpl.
    + destruct (ObjectController.revocable d) as [url|] eqn:Hu; simpl.
      * apply urls_ok_release; [|done]. by exists r, d.
      * by apply urls_ok_delete.
    + by apply urls_ok_delete.
  - url_case.
  - url_case.
  - url_case.
  - url_case.
  - url_case.
  - url_case.
  - simpl. apply urls_ok_upload. done.
  - simpl. apply urls_ok_loaded; [|done..].
    unfold ObjectController.revocable. simpl. case_decide; [|done].
    subst. destruct (pending_issued _ _ _ Hinv _ _ He) as (k & Hk & _).
    discriminate.
  - simpl. by apply urls_ok_done.
Qed.

Lemma url_inv_init : url_inv App.init.
Proof.
  assert (∀ id url,
    ¬ held (heapOD App.init) (oc_objects (objectController App.init)) id url)
    as Hnone.
  { intros id url (r & d & Hr & _). vm_compute in Hr. discriminate. }
  split; simpl.
  - constructor.
  - by intros url ?%elem_of_nil.
  - by intros id url ?%Hnone.
  - by intros id url ?%elem_of_nil.
  - by intros id url ?%Hnone.
  - by intros id url ?%elem_of_nil.
  - by intros id id' url ?%Hnone.
  - by intros id id' url ?%Hnone.
  - by intros id id' url ?%elem_of_nil.
  - intros id r Hr. vm_compute in Hr. discriminate.
Qed.

Lemma reachable_url_inv w : reachable w → url_inv w.
Proof.
  induction 1 as [|w e _ IH He]; [apply url_inv_init|by apply url_inv_step].
Qed.

(** ** Releasing the object URL *)

Section Release.

Implicit Types (w : World) (id : string).

Lemma removeObject_absent id w :
  oc_objects (objectController w) !! id = None →
  ObjectController.removeObject id w = w.
Proof. unfold ObjectController.removeObject. by intros ->. Qed.

Lemma removeObject_unregisters id w :
  oc_objects (objectController (ObjectController.removeObject id w)) !! id
  = None.
Proof.
  unfold ObjectController.removeObject.
  destruct (oc_objects (objectController w) !! id) as [r|] eqn:Hr; [|done].
  destruct (heapOD w !! r ≫= ObjectController.revocable); simpl;
    apply lookup_delete_eq.
Qed.

Lemma removeObject_unregisters_live id w :
  is_Some (oc_objects (objectController w) !! id) →
  sm_objects (sceneManager (ObjectController.removeObject id w)) !! id = None.
Proof.
  intros [r Hr]. unfold ObjectController.removeObject. rewrite Hr.
  destruct (heapOD w !! r ≫= ObjectController.revocable); simpl;
    unfold SceneManager.removeObject; case_match; simpl;
    [apply lookup_delete_eq|done..|apply lookup_delete_eq|done].
Qed.

Lemma removeObject_revoked id w r :
  oc_objects (objectController w) !! id = Some r →
  revoked (browser (ObjectController.removeObject id w))
  = match heapOD w !! r ≫= ObjectController.revocable with
    | Some url => url :: revoked (browser w)
    | None => revoked (browser w)
    end.
Proof.
  intros Hr. unfold ObjectController.removeObject. rewrite Hr.
  by destruct (heapOD w !! r ≫= ObjectController.revocable).
Qed.

End Release.

(** C5: in a reachable state, removing an object that has a metadata record
    unregisters it from both maps.  If the record is that of an imported
    model, the call releases the record's object URL, once: the URL had not
    been released before, and the calls of [URL.revokeObjectURL] grow by
    exactly this URL, so no URL occurs twice among them.  If the record is
    that of a primitive, no URL is released.  Removing the same id again
    returns the world unchanged, so nothing is released a second time. *)
Theorem removeObject_releases_once (w : World) (id : string) (r : loc)
    (d : ObjectData) :
  reachable w →
  oc_objects (objectController w) !! id = Some r →
  heapOD w !! r = Some d →
  let w' := ObjectController.removeObject id w in
  (od_isCustomModel d = Some true →
     ∃ url, od_modelUrl d = Some url ∧
            (url ∉ revoked (browser w)) ∧
            revoked (browser w') = url :: revoked (browser w)) ∧
  (od_isCustomModel d ≠ Some true →
     revoked (browser w') = revoked (browser w)) ∧
  NoDup (revoked (browser w')) ∧
  oc_objects (objectController w') !! id = None ∧
  sm_objects (sceneManager w') !! id = None ∧
  ObjectController.removeObject id w' = w'.
Proof.
  intros Hw Hr Hd. simpl.
  pose proof (reachable_oc_inv w Hw) as [Hrec _ _].
  pose proof (reachable_url_inv w Hw) as Hurl.
  rewrite (removeObject_revoked id w r Hr), Hd. simpl.
  assert (∀ url, ObjectController.revocable d = Some url →
                 url ∉ revoked (browser w)) as Hfresh.
  { intros url Hu. apply (held_live _ _ _ Hurl id). by exists r, d. }
  split_and!.
  - intros Hc. destruct (Hrec id r Hr) as (d' & Hd' & _ & Himp).
    assert (d' = d) as -> by congruence.
    destruct (Himp Hc) as (_ & url & Hu & Hne). exists url.
    assert (ObjectController.revocable d = Some url) as Hrev.
    { unfold ObjectController.revocable. rewrite Hc, Hu. by case_decide. }
    rewrite Hrev. auto.
  - intros Hc. unfold ObjectController.revocable.
    by destruct (od_isCustomModel d) as [[]|].
  - destruct (ObjectController.revocable d) as [url|] eqn:Hu.
    + constructor; [by apply Hfresh|apply (released_once _ _ _ Hurl)].
    + apply (released_once _ _ _ Hurl).
  - apply removeObject_unregisters.
  - apply removeObject_unregisters_live. by eexists.
  - apply removeObject_absent, removeObject_unregisters.
Qed.

Lemma removeObject_releases_once_witness :
  revoked (browser (ObjectController.removeObject "model_1" one_big_model))
  = "blob:0" :: revoked (browser one_big_model) ∧
  ObjectController.removeObject "model_1"
    (ObjectController.removeObject "model_1" one_big_model)
  = ObjectController.removeObject "model_1" one_big_model.
Proof.
  destruct (removeObject_releases_once one_big_model "model_1" 1%positive
              (mkObjectData "model_1" "custom_model" zero3 euler0 one3
                 "#ffffff" 0.5 0.2 (Some true) (Some "blob:0"))
              reachable_one_big_model)
    as (Himported & _ & _ & _ & _ & Htwice);
    [vm_compute; reflexivity..|].
  split; [|exact Htwice].
  destruct (Himported eq_refl) as (url & Hurl & _ & Hrev).
  simpl in Hurl. injection Hurl as <-. exact Hrev.
Defined.

(** ** Scaling along one axis *)

(** What the scale slider does in general: the live entity and the record
    both get the record's scale with the one component replaced. *)
Lemma scaleInput_effect (w : World) (id : string) (r o : loc)
    (d : ObjectData) (obj : Object3D) (index : nat) (v : float) :
  heapOD w !! r = Some d →
  od_id d = id →
  oc_objects (objectController w) !! id = Some r →
  SceneManager.getObject id (sceneManager w) = Some o →
  heap3D w !! o = Some obj →
  let w' := ObjectController.scaleInput r index v w in
  o_scale <$> heap3D w' !! o
    = Some (ObjectController.axisInput (od_scale d) index v) ∧
  od_scale <$> heapOD w' !! r
    = Some (ObjectController.axisInput (od_scale d) index v).
Proof.
  intros Hd <- Hr Ho Hobj. simpl.
  unfold ObjectController.scaleInput. rewrite Hd.
  unfold ObjectController.updateObjectScale. rewrite Ho, Hr. simpl.
  by rewrite !lookup_alter_eq, Hd, Hobj.
Qed.

(** When record and live entity agree on the scale, as they do for a
    primitive, the two other components of both stay as they were. *)
Lemma scaleInput_synchronised (w : World) (id : string) (r o : loc)
    (d : ObjectData) (obj : Object3D) (v : float) :
  heapOD w !! r = Some d →
  od_id d = id →
  oc_objects (objectController w) !! id = Some r →
  SceneManager.getObject id (sceneManager w) = Some o →
  heap3D w !! o = Some obj →
  o_scale obj = od_scale d →
  let w' := ObjectController.scaleInput r 0 v w in
  o_scale <$> heap3D w' !! o
    = Some (mkVector3 v (v_y (o_scale obj)) (v_z (o_scale obj))) ∧
  od_scale <$> heapOD w' !! r
    = Some (mkVector3 v (v_y (od_scale d)) (v_z (od_scale d))).
Proof.
  intros Hd Hid Hr Ho Hobj Hsync.
  destruct (scaleInput_effect w id r o d obj 0 v Hd Hid Hr Ho Hobj) as [H1 H2].
  simpl. rewrite H1, H2, Hsync. done.
Qed.

(** The scenario of the specification, from any state and for any
    primitive: the object is added, then one slider of its scale is moved to
    [v].  Both scales were (1, 1, 1); both get [v] on that axis and keep 1
    on the two others. *)
Lemma primitive_scale_scenario (w : World) (type : string) (g : Geometry)
    (rnd_x rnd_z v : float) (index : nat) :
  ObjectController.geometry_of type = Some g →
  let w1 := final (ObjectController.addObject type rnd_x rnd_z w) in
  let id := ObjectController.object_id type
              (objectCounter (objectController w) + 1)%N in
  ∃ r o,
    oc_objects (objectController w1) !! id = Some r ∧
    SceneManager.getObject id (sceneManager w1) = Some o ∧
    o_scale <$> heap3D w1 !! o = Some (mkVector3 1 1 1) ∧
    od_scale <$> heapOD w1 !! r = Some (mkVector3 1 1 1) ∧
    o_scale <$> heap3D (ObjectController.scaleInput r index v w1) !! o
      = Some (ObjectController.axisInput (mkVector3 1 1 1) index v) ∧
    od_scale <$> heapOD (ObjectController.scaleInput r index v w1) !! r
      = Some (ObjectController.axisInput (mkVector3 1 1 1) index v).
Proof.
  intros Hg. unfold ObjectController.addObject. rewrite Hg. simpl.
  exists (fresh (dom (heapOD w))), (fresh (dom (heap3D w))).
  assert (∀ d : ObjectData, <[fresh (dom (heapOD w)) := d]> (heapOD w)
                              !! fresh (dom (heapOD w)) = Some d) as HO
    by (intros; apply lookup_insert_eq).
  unfold ObjectController.scaleInput, ObjectController.updateObjectScale,
    SceneManager.getObject. simpl.
  rewrite !HO. simpl. rewrite !lookup_insert_eq. simpl.
  rewrite !lookup_alter_eq, !lookup_insert_eq. done.
Qed.

(** *** Scale of primitives along a session *)

Section Refs.
Context {A : Type}.
Implicit Types (h : gmap loc A) (m : gmap string loc).

Lemma refs_ok_alter f l h m : refs_ok h m → refs_ok (alter f l h) m.
Proof.
  intros [Hal Hinj]. split; [|done].
  intros id l' Hl. destruct (Hal id l' Hl) as [x Hx].
  destruct (decide (l' = l)) as [->|Hne].
  - rewrite lookup_alter_eq, Hx. by eexists.
  - rewrite lookup_alter_ne by done. by eexists.
Qed.

Lemma refs_ok_alloc x h m : refs_ok h m → refs_ok (<[fresh (dom h) := x]> h) m.
Proof.
  intros [Hal Hinj]. split; [|done].
  intros id l Hl. destruct (Hal id l Hl) as [y Hy]. exists y.
  rewrite lookup_insert_ne; [done|].
  intros <-. by rewrite fresh_heap_None in Hy.
Qed.

Lemma refs_ok_insert x id h m :
  refs_ok h m →
  refs_ok (<[fresh (dom h) := x]> h) (<[id := fresh (dom h)]> m).
Proof.
  intros [Hal Hinj].
  assert (∀ id' l, m !! id' = Some l → l ≠ fresh (dom h)) as Hold.
  { intros id' l Hl ->. destruct (Hal id' _ Hl) as [y Hy].
    by rewrite fresh_heap_None in Hy. }
  split.
  - intros id' l. destruct (decide (id = id')) as [<-|Hne].
    + rewrite lookup_insert_eq. intros [= <-]. rewrite lookup_insert_eq.
      by eexists.
    + rewrite lookup_insert_ne by done. intros Hl.
      destruct (Hal id' l Hl) as [y Hy]. exists y.
      rewrite lookup_insert_ne; [done|]. intros Heq. by apply (Hold id' l).
  - intros id1 id2 l.
    destruct (decide (id = id1)) as [<-|Hn1];
      destruct (decide (id = id2)) as [<-|Hn2]; try done.
    + rewrite lookup_insert_eq, lookup_insert_ne by done.
      intros [= <-] Hl. by destruct (Hold id2 _ Hl).
    + rewrite lookup_insert_eq, lookup_insert_ne by done.
      intros Hl [= <-]. by destruct (Hold id1 _ Hl).
    + rewrite !lookup_insert_ne by done. apply Hinj.
Qed.

Lemma refs_ok_delete id h m : refs_ok h m → refs_ok h (delete id m).
Proof.
  intros [Hal Hinj]. split.
  - intros id' l Hl. apply lookup_delete_Some in Hl as [_ Hl].
    by apply (Hal id').
  - intros id1 id2 l Hl1 Hl2.
    apply lookup_delete_Some in Hl1 as [_ Hl1].
    apply lookup_delete_Some in Hl2 as [_ Hl2]. by apply (Hinj _ _ l).
Qed.
End Refs.

Section Scales.
Implicit Types (hE : gmap loc Object3D) (hO : gmap loc ObjectData)
  (so oo : gmap string loc).

Lemma helper_not_object_id type n :
  ¬ is_object_id (LightController.light_id type n +:+ "_helper").
Proof.
  intros [(t & g & k & Hg & Hid)|Hm]; [|by apply helper_not_model in Hm].
  unfold ObjectController.geometry_of, ObjectController.object_id in *.
  repeat case_decide; destruct type; simplify_eq/=.
Qed.

Lemma ids_ok_insert id r oo : is_object_id id → ids_ok oo → ids_ok (<[id := r]> oo).
Proof.
  intros Hid Hok id' r'. destruct (decide (id = id')) as [<-|Hne]; [done|].
  rewrite lookup_insert_ne by done. apply Hok.
Qed.

Lemma ids_ok_delete id oo : ids_ok oo → ids_ok (delete id oo).
Proof.
  intros Hok id' r' Hr. apply lookup_delete_Some in Hr as [_ Hr].
  by apply (Hok id' r').
Qed.

Lemma scales_ok_alterE f l hE so hO oo :
  keeps_scale f → scales_ok hE so hO oo → scales_ok (alter f l hE) so hO oo.
Proof.
  intros Hf Hs id r d o obj Hr Hd Hn Ho Hobj.
  destruct (decide (o = l)) as [->|Hne].
  - rewrite lookup_alter_eq in Hobj.
    destruct (hE !! l) as [obj0|] eqn:H0; simplify_eq/=.
    rewrite Hf. by apply (Hs id r d l obj0).
  - rewrite lookup_alter_ne in Hobj by done. by apply (Hs id r d o obj).
Qed.

Lemma scales_ok_alterO g r hO hE so oo :
  keeps_od_scale g → scales_ok hE so hO oo → scales_ok hE so (alter g r hO) oo.
Proof.
  intros Hg Hs id r' d o obj Hr Hd Hn Ho Hobj.
  destruct (decide (r' = r)) as [->|Hne].
  - rewrite lookup_alter_eq in Hd.
    destruct (hO !! r) as [d0|] eqn:H0; simplify_eq/=.
    destruct (Hg d0) as [Hg1 Hg2]. rewrite Hg1.
    apply (Hs id r d0 o obj); try done.
    unfold imported in *. by rewrite <-Hg2.
  - rewrite lookup_alter_ne in Hd by done. by apply (Hs id r' d o obj).
Qed.

Lemma scales_ok_allocE x hE so hO oo :
  refs_ok hE so → scales_ok hE so hO oo →
  scales_ok (<[fresh (dom hE) := x]> hE) so hO oo.
Proof.
  intros [Hal _] Hs id r d o obj Hr Hd Hn Ho Hobj.
  destruct (Hal id o Ho) as [y Hy].
  rewrite lookup_insert_ne in Hobj.
  - by apply (Hs id r d o obj).
  - intros <-. by rewrite fresh_heap_None in Hy.
Qed.

Lemma scales_ok_insert_so id l hE so hO oo :
  ¬ is_object_id id → ids_ok oo →
  scales_ok hE so hO oo → scales_ok hE (<[id := l]> so) hO oo.
Proof.
  intros Hid Hids Hs id' r d o obj Hr Hd Hn Ho Hobj.
  destruct (decide (id = id')) as [<-|Hne].
  - destruct Hid. by apply (Hids id r).
  - rewrite lookup_insert_ne in Ho by done. by apply (Hs id' r d o obj).
Qed.

Lemma scales_ok_delete_so id hE so hO oo :
  scales_ok hE so hO oo → scales_ok hE (delete id so) hO oo.
Proof.
  intros Hs id' r d o obj Hr Hd Hn Ho Hobj.
  apply lookup_delete_Some in Ho as [_ Ho]. by apply (Hs id' r d o obj).
Qed.

Lemma scales_ok_delete_oo id hE so hO oo :
  scales_ok hE so hO oo → scales_ok hE so hO (delete id oo).
Proof.
  intros Hs id' r d o obj Hr Hd Hn Ho Hobj.
  apply lookup_delete_Some in Hr as [_ Hr]. by apply (Hs id' r d o obj).
Qed.

(** A new entity with its record. *)
Lemma scales_ok_add id x d hE so hO oo :
  refs_ok hE so → refs_ok hO oo →
  (¬ imported d → o_scale x = od_scale d) →
  scales_ok hE so hO oo →
  scales_ok (<[fresh (dom hE) := x]> hE) (<[id := fresh (dom hE)]> so)
            (<[fresh (dom hO) := d]> hO) (<[id := fresh (dom hO)]> oo).
Proof.
  intros [HalE _] [HalO _] Hnew Hs id' r d' o obj.
  destruct (decide (id = id')) as [<-|Hne].
  - rewrite !lookup_insert_eq. intros [= <-]. rewrite lookup_insert_eq.
    intros [= <-] Hn [= <-]. rewrite lookup_insert_eq. intros [= <-]. auto.
  - rewrite !(lookup_insert_ne _ id id') by done. intros Hr Hd Hn Ho Hobj.
    destruct (HalE id' o Ho) as [y Hy]. destruct (HalO id' r Hr) as [z Hz].
    rewrite lookup_insert_ne in Hd; last first.
    { intros <-. by rewrite fresh_heap_None in Hz. }
    rewrite lookup_insert_ne in Hobj; last first.
    { intros <-. by rewrite fresh_heap_None in Hy. }
    by apply (Hs id' r d' o obj).
Qed.

(** The scale edit: both sides of the one id get the new scale. *)
Lemma scales_ok_scale s id o r hE so hO oo :
  refs_ok hE so → refs_ok hO oo →
  so !! id = Some o → oo !! id = Some r →
  scales_ok hE so hO oo →
  scales_ok (alter (with_scale s) o hE) so (alter (od_with_scale s) r hO) oo.
Proof.
  intros [_ HinjE] [_ HinjO] Ho Hr Hs id' r' d o' obj Hr' Hd Hn Ho' Hobj.
  destruct (decide (id' = id)) as [->|Hne].
  - assert (r' = r) as -> by congruence. assert (o' = o) as -> by congruence.
    rewrite lookup_alter_eq in Hd. rewrite lookup_alter_eq in Hobj.
    destruct (hO !! r) as [d0|]; destruct (hE !! o) as [obj0|];
      simplify_eq/=. done.
  - assert (r' ≠ r) as Hnr.
    { intros ->. by apply Hne, (HinjO _ _ r). }
    assert (o' ≠ o) as Hno.
    { intros ->. by apply Hne, (HinjE _ _ o). }
    rewrite lookup_alter_ne in Hd by done.
    rewrite lookup_alter_ne in Hobj by done.
    by apply (Hs id' r' d o' obj).
Qed.
End Scales.

Lemma removeObject_objects id sm :
  sm_objects (SceneManager.removeObject id sm).2 = delete id (sm_objects sm).
Proof.
  unfold SceneManager.removeObject.
  destruct (sm_objects sm !! id) eqn:Ho; simpl; [done|].
  symmetry. by apply delete_id.
Qed.

Lemma removeLight_objects id sm :
  sm_objects (SceneManager.removeLight id sm).2 = sm_objects sm.
Proof. unfold SceneManager.removeLight. by case_match. Qed.

Section Keeps.
Lemma keeps_scale_set_light_color c : keeps_scale (set_light_color c).
Proof. intros [[] ? ? ? ? ?]; reflexivity. Qed.
Lemma keeps_scale_set_light_intensity v : keeps_scale (set_light_intensity v).
Proof. intros [[] ? ? ? ? ?]; reflexivity. Qed.
Lemma keeps_scale_with_position p : keeps_scale (with_position p).
Proof. intros o; reflexivity. Qed.
Lemma keeps_scale_with_rotation p : keeps_scale (with_rotation p).
Proof. intros o; reflexivity. Qed.
Lemma keeps_scale_with_castShadow b : keeps_scale (with_castShadow b).
Proof. intros o; reflexivity. Qed.
Lemma keeps_scale_set_material g : keeps_scale (set_material g).
Proof. intros [[] ? ? ? ? ?]; reflexivity. Qed.
Lemma keeps_scale_helper_refresh h : keeps_scale (helper_refresh h).
Proof. intros [[] ? ? ? ? ?]; reflexivity. Qed.

Lemma keeps_od_scale_position p : keeps_od_scale (od_with_position p).
Proof. by intros d. Qed.
Lemma keeps_od_scale_rotation p : keeps_od_scale (od_with_rotation p).
Proof. by intros d. Qed.
Lemma keeps_od_scale_color p : keeps_od_scale (od_with_color p).
Proof. by intros d. Qed.
Lemma keeps_od_scale_roughness p : keeps_od_scale (od_with_roughness p).
Proof. by intros d. Qed.
Lemma keeps_od_scale_metalness p : keeps_od_scale (od_with_metalness p).
Proof. by intros d. Qed.
End Keeps.

Create HintDb keeps_scale discriminated.
#[local] Hint Resolve keeps_scale_set_light_color
  keeps_scale_set_light_intensity keeps_scale_with_position
  keeps_scale_with_rotation keeps_scale_with_castShadow
  keeps_scale_set_material keeps_scale_helper_refresh
  keeps_od_scale_position keeps_od_scale_rotation keeps_od_scale_color
  keeps_od_scale_roughness keeps_od_scale_metalness : keeps_scale.

Ltac refs_step :=
  first
    [ assumption
    | apply refs_ok_insert
    | apply refs_ok_alter
    | apply refs_ok_alloc
    | apply refs_ok_delete ].

Ltac scales_step :=
  first
    [ assumption
    | apply scales_ok_add;
        [solve [repeat refs_step] | solve [repeat refs_step]
        |solve [reflexivity | by intros []] |]
    | eapply scales_ok_scale;
        [solve [repeat refs_step] | solve [repeat refs_step]
        |eassumption | eassumption |]
    | apply scales_ok_insert_so;
        [solve [eauto using helper_not_object_id]
        |assumption|]
    | apply scales_ok_delete_so
    | apply scales_ok_delete_oo
    | apply scales_ok_alterO; [solve [eauto with keeps_scale]|]
    | apply scales_ok_alterE; [solve [eauto with keeps_scale]|]
    | apply scales_ok_allocE; [solve [repeat refs_step]|] ].

Ltac ids_step :=
  first
    [ assumption
    | apply ids_ok_delete
    | apply ids_ok_insert;
        [solve [by left; eexists _, _, _ | by right]|] ].

Lemma sync_inv_step e w :
  oc_inv w → sync_inv w → enabled e w → sync_inv (handle e w).
Proof.
  intros Hoc [Hlive Hrec Hids Hsc] He.
  assert (∀ id url, (id, url) ∈ loading (browser w) → model_prefixed id)
    as Hload.
  { intros id url Hin. by apply (oc_loading _ Hoc id url). }
  destruct e; expose; unfold SceneManager.getObject in *;
    try match goal with t : LightType |- _ => destruct t end;
    try match goal with
        | |- context [ObjectController.geometry_of ?t] =>
            destruct (ObjectController.geometry_of t) eqn:Hg; expose
        end;
    try match goal with
        | H : enabled (ModelLoaded _ _ _ _) _ |- _ => apply Hload in H
        end;
    repeat case_match; (split; simpl;
      rewrite ?removeLight_objects, ?removeObject_objects);
    try solve [repeat refs_step]; try solve [repeat scales_step];
    try solve [repeat ids_step].
Qed.

Lemma refs_ok_empty {A} (h : gmap loc A) : refs_ok h ∅.
Proof. split; intros *; by rewrite lookup_empty. Qed.

Lemma sync_inv_init : sync_inv App.init.
Proof.
  unfold App.init, App.setupDefaultObjects,
    App.setupDefaultLighting, App.setupGrid, App.empty, App.scene_add.
  expose. split; simpl.
  - repeat refs_step. apply refs_ok_empty.
  - apply refs_ok_empty.
  - intros id r Hr. by rewrite lookup_empty in Hr.
  - intros id r d o obj Hr. by rewrite lookup_empty in Hr.
Qed.

Lemma reachable_sync_inv w : reachable w → sync_inv w.
Proof.
  induction 1 as [|w e Hw IH He]; [apply sync_inv_init|].
  apply sync_inv_step; [by apply reachable_oc_inv|done..].
Qed.

(** In a reachable state, moving one scale slider of a primitive sets that
    component to [v] on the live entity and in the record, and leaves the
    two other components of both as they were. *)
Lemma primitive_scale_edit_single_axis (w : World) (id : string) (r o : loc)
    (d : ObjectData) (index : nat) (v : float) :
  reachable w →
  oc_objects (objectController w) !! id = Some r →
  heapOD w !! r = Some d →
  od_isCustomModel d ≠ Some true →
  SceneManager.getObject id (sceneManager w) = Some o →
  let w' := ObjectController.scaleInput r index v w in
  ∃ obj, heap3D w !! o = Some obj ∧
    o_scale <$> heap3D w' !! o
      = Some (ObjectController.axisInput (o_scale obj) index v) ∧
    od_scale <$> heapOD w' !! r
      = Some (ObjectController.axisInput (od_scale d) index v).
Proof.
  intros Hw Hr Hd Hn Ho. simpl.
  pose proof (reachable_sync_inv w Hw) as [[Hal _] _ _ Hsc].
  pose proof (reachable_oc_inv w Hw) as [Hrec _ _].
  destruct (Hal id o Ho) as [obj Hobj]. exists obj. split; [done|].
  destruct (Hrec id r Hr) as (d' & Hd' & Hid & _).
  assert (d' = d) as -> by congruence.
  rewrite (Hsc id r d o obj Hr Hd Hn Ho Hobj).
  by apply (scaleInput_effect w id r o d obj index v).
Qed.

(** C9, at the failing input: a model of size 10 x 4 x 2 is imported, so
    [onLoad] scales the live entity to 0.5 on every axis while its record
    says 1.  Moving the X slider of the scale to 3 is an event the panel
    offers; it sets X to 3 in both, leaves Y and Z of the record at 1, and
    moves Y and Z of the live entity from 0.5 to 1. *)
Theorem imported_model_scale_edit_moves_other_axes :
  reachable one_big_model ∧
  enabled (ObjectScaleInput model_element 0 3) one_big_model ∧
  oc_objects (objectController one_big_model) !! "model_1" = Some 1%positive ∧
  SceneManager.getObject "model_1" (sceneManager one_big_model)
    = Some 6%positive ∧
  o_scale <$> heap3D one_big_model !! 6%positive
    = Some (mkVector3 0.5 0.5 0.5) ∧
  od_scale <$> heapOD one_big_model !! 1%positive = Some (mkVector3 1 1 1) ∧
  o_scale <$>
    heap3D (handle (ObjectScaleInput model_element 0 3) one_big_model)
      !! 6%positive = Some (mkVector3 3 1 1) ∧
  od_scale <$>
    heapOD (handle (ObjectScaleInput model_element 0 3) one_big_model)
      !! 1%positive = Some (mkVector3 3 1 1).
Proof.
  split_and!; try (vm_compute; reflexivity).
  - exact reachable_one_big_model.
  - split; [|simpl; lia]. vm_compute. apply list_elem_of_here.
Qed.

(** ** Identifiers *)

Section Identifiers.

#[local] Arguments handle : simpl never.
Implicit Types (e : Event) (w : World) (type : LightType).

Lemma light_id_inj t1 n1 t2 n2 :
  LightController.light_id t1 n1 = LightController.light_id t2 n2 →
  t1 = t2 ∧ n1 = n2.
Proof.
  unfold LightController.light_id, number_text.
  destruct t1, t2; intros H; simplify_eq/=; split; try done;
    by apply (inj pretty).
Qed.

Lemma object_id_inj t1 g1 n1 t2 g2 n2 :
  ObjectController.geometry_of t1 = Some g1 →
  ObjectController.geometry_of t2 = Some g2 →
  ObjectController.object_id t1 n1 = ObjectController.object_id t2 n2 →
  t1 = t2 ∧ n1 = n2.
Proof.
  unfold ObjectController.geometry_of, ObjectController.object_id,
    number_text.
  intros H1 H2 H. repeat case_decide; simplify_eq/=; split; try done;
    by apply (inj pretty).
Qed.

Lemma model_id_inj n1 n2 :
  ObjectController.model_id n1 = ObjectController.model_id n2 → n1 = n2.
Proof.
  unfold ObjectController.model_id, number_text. intros H. simplify_eq/=.
  by apply (inj pretty).
Qed.

Lemma object_id_not_model (t : string) g n m :
  ObjectController.geometry_of t = Some g →
  ObjectController.object_id t n ≠ ObjectController.model_id m.
Proof.
  intros Hg H. apply (primitive_not_model t g n Hg). by eexists.
Qed.

(** The three counters along a step. *)
Lemma lightCounter_step e w :
  lightCounter (lightController (handle e w)) =
  match e with
  | AddLightClick type =>
      <[type := (light_count type w + 1)%N]> (lightCounter (lightController w))
  | _ => lightCounter (lightController w)
  end.
Proof.
  destruct e; expose;
    try match goal with t : LightType |- _ => destruct t end;
    repeat case_match; simplify_eq; reflexivity.
Qed.

Lemma objectCounter_step e w :
  objectCounter (objectController (handle e w)) =
  match e with
  | AddObjectClick _ _ _ => (objectCounter (objectController w) + 1)%N
  | _ => objectCounter (objectController w)
  end.
Proof.
  destruct e; expose;
    try match goal with t : LightType |- _ => destruct t end;
    repeat case_match; simplify_eq; reflexivity.
Qed.

Lemma modelCounter_step e w :
  modelCounter (objectController (handle e w)) =
  match e with
  | ModelFileChosen => (modelCounter (objectController w) + 1)%N
  | _ => modelCounter (objectController w)
  end.
Proof.
  destruct e; expose;
    try match goal with t : LightType |- _ => destruct t end;
    repeat case_match; simplify_eq; reflexivity.
Qed.

Lemma light_count_step e type w :
  light_count type (handle e w) =
  (light_count type w + if adds_light type e then 1 else 0)%N.
Proof.
  unfold light_count. rewrite lightCounter_step.
  destruct e as [t| | | | | | | | | | | | | | | |]; simpl; try lia.
  case_bool_decide as Ht.
  - subst t. by rewrite lookup_insert_eq.
  - rewrite lookup_insert_ne by done. lia.
Qed.

(** Counters only grow, so what lies above them later lies above them now. *)
Lemma above_step e w x : above (handle e w) x → above w x.
Proof.
  destruct x as [[] id]; simpl.
  - intros (type & n & -> & Hn). exists type, n. split; [done|].
    rewrite light_count_step in Hn. lia.
  - rewrite objectCounter_step, modelCounter_step.
    intros [(t & g & n & Hg & -> & Hn)|(n & -> & Hn)]; [left|right].
    + exists t, g, n. split_and!; [done..|]. destruct e; lia.
    + exists n. split; [done|]. destruct e; lia.
Qed.

(** A new identifier is above the counters before the step and no longer
    above them after it. *)
Lemma generated_above e w x :
  generated e w = Some x → above w x ∧ ¬ above (handle e w) x.
Proof.
  destruct e as [t0| | | | | |t0 ? ?| | | | | | | | | |]; simpl; try done.
  - intros [= <-]. simpl. split.
    + eexists _, _. split; [done|].
      unfold LightController.next_count, light_count. lia.
    + intros (t & n & Hid & Hn). apply light_id_inj in Hid as [<- <-].
      rewrite light_count_step in Hn. simpl in Hn.
      rewrite bool_decide_eq_true_2 in Hn by done.
      unfold LightController.next_count, light_count in Hn. lia.
  - destruct (ObjectController.geometry_of t0) as [g|] eqn:Hg; [|done].
    intros [= <-]. simpl. rewrite objectCounter_step. split.
    + left. eexists _, _, _. split_and!; [done..|lia].
    + intros [(t & g' & n & Hg' & Hid & Hn)|(n & Hid & Hn)].
      * apply (object_id_inj _ g _ _ g') in Hid as [<- <-]; [lia|done..].
      * by apply (object_id_not_model _ g) in Hid.
  - intros [= <-]. simpl. split.
    + right. eexists. split; [done|lia].
    + intros [(t & g' & n & Hg' & Hid & Hn)|(n & Hid & Hn)].
      * symmetry in Hid. by apply (object_id_not_model _ g') in Hid.
      * apply model_id_inj in Hid as <-. lia.
Qed.

Lemma ids_above es w x : x ∈ ids es w → above w x.
Proof.
  revert w. induction es as [|e es IH]; intros w; simpl.
  - by intros ?%elem_of_nil.
  - destruct (generated e w) as [y|] eqn:Hy.
    + intros [->|Hin]%elem_of_cons.
      * by apply generated_above in Hy as [? _].
      * by apply (above_step e), IH.
    + intros Hin. by apply (above_step e), IH.
Qed.

Lemma ids_NoDup es w : NoDup (ids es w).
Proof.
  revert w. induction es as [|e es IH]; intros w; simpl.
  - constructor.
  - destruct (generated e w) as [y|] eqn:Hy; [|done].
    constructor; [|done].
    intros Hin%ids_above. by apply generated_above in Hy as [_ ?].
Qed.

Lemma run_snoc es e w : run (es ++ [e]) w = handle e (run es w).
Proof. unfold run. by rewrite foldl_snoc. Qed.

Lemma above_run es w x : above (run es w) x → above w x.
Proof.
  revert w. induction es as [|e es IH]; intros w; [done|].
  intros H. by apply (above_step e), IH.
Qed.

(** Once generated, an identifier is never above the counters again. *)
Lemma ids_below es w x : x ∈ ids es w → ¬ above (run es w) x.
Proof.
  revert w. induction es as [|e es IH]; intros w; simpl.
  - by intros ?%elem_of_nil.
  - destruct (generated e w) as [y|] eqn:Hy; [|by apply IH].
    intros [->|Hin]%elem_of_cons; [|by apply IH].
    intros Ha%above_run. by apply generated_above in Hy as [_ ?].
Qed.

(** The counters of the code are the counts of the events handled. *)

Lemma count_snoc p es e :
  count p (es ++ [e]) = (count p es + if p e then 1 else 0)%N.
Proof. induction es as [|e' es IH]; simpl; [lia|rewrite IH; lia]. Qed.

Lemma light_count_run type es :
  light_count type (run es App.init) = count (adds_light type) es.
Proof.
  induction es as [|e es IH] using rev_ind.
  - by destruct type.
  - by rewrite run_snoc, light_count_step, count_snoc, IH.
Qed.

Lemma objectCounter_run es :
  objectCounter (objectController (run es App.init)) = count adds_object es.
Proof.
  induction es as [|e es IH] using rev_ind; [done|].
  rewrite run_snoc, objectCounter_step, count_snoc, IH.
  destruct e; simpl; lia.
Qed.

Lemma modelCounter_run es :
  modelCounter (objectController (run es App.init)) = count adds_model es.
Proof.
  induction es as [|e es IH] using rev_ind; [done|].
  rewrite run_snoc, modelCounter_step, count_snoc, IH.
  destruct e; simpl; lia.
Qed.

Lemma count_take_le p es k : (count p (take k es) ≤ count p es)%N.
Proof.
  revert k. induction es as [|e es IH]; intros [|k]; simpl; try lia.
  specialize (IH k). lia.
Qed.

Lemma count_le_length p es : (count p es ≤ N.of_nat (length es))%N.
Proof. induction es as [|e es IH]; simpl; [lia|]. destruct (p e); lia. Qed.

(** The counters only grow, so a bound on them at the end of a session
    holds all along it. *)
Lemma counters_exact_take es k :
  counters_exact (run es App.init) → counters_exact (run (take k es) App.init).
Proof.
  intros (Hl & Ho & Hm). split_and!.
  - intros type. specialize (Hl type). rewrite light_count_run in *.
    pose proof (count_take_le (adds_light type) es k). lia.
  - rewrite objectCounter_run in *.
    pose proof (count_take_le adds_object es k). lia.
  - rewrite modelCounter_run in *.
    pose proof (count_take_le adds_model es k). lia.
Qed.

(** A session of at most [MAX_SAFE_INTEGER] events stays within the bound. *)
Lemma counters_exact_short es :
  (N.of_nat (length es) ≤ MAX_SAFE_INTEGER)%N → counters_exact (run es App.init).
Proof.
  intros Hlen. split_and!.
  - intros type. rewrite light_count_run.
    pose proof (count_le_length (adds_light type) es). lia.
  - rewrite objectCounter_run.
    pose proof (count_le_length adds_object es). lia.
  - rewrite modelCounter_run.
    pose proof (count_le_length adds_model es). lia.
Qed.

Lemma geometry_of_supported (t : string) :
  is_Some (ObjectController.geometry_of t) ↔ t ∈ objectTypes.
Proof.
  unfold ObjectController.geometry_of, objectTypes. split.
  - intros [g Hg]. rewrite !elem_of_cons.
    repeat case_decide; simplify_eq; auto.
  - rewrite !elem_of_cons, elem_of_nil. intros Hin.
    repeat case_decide; try (by eexists).
    by destruct Hin as [|[|[|[|[]]]]].
Qed.

Lemma generated_counted seen e :
  generated e (run seen App.init) = counted_id seen e.
Proof.
  destruct e as [t| | | | | |t ? ?| | | | | | | | | |]; simpl; try done.
  - unfold LightController.next_count.
    fold (light_count t (run seen App.init)).
    by rewrite light_count_run.
  - rewrite objectCounter_run. case_bool_decide as Ht.
    + apply geometry_of_supported in Ht as [g ->]. done.
    + destruct (ObjectController.geometry_of t) eqn:Hg; [|done].
      destruct Ht. apply geometry_of_supported. by eexists.
  - by rewrite modelCounter_run.
Qed.

Lemma ids_counted seen es :
  ids es (run seen App.init) = counted_ids seen es.
Proof.
  revert seen. induction es as [|e es IH]; intros seen; simpl; [done|].
  by rewrite generated_counted, <-run_snoc, IH.
Qed.

End Identifiers.

(** The identifier a handler builds is the key it registers the entity, or
    the load of the entity, under. *)
Lemma generated_registered e w x :
  generated e w = Some x → registered x (handle e w).
Proof.
  destruct e; simpl; try done.
  - intros [= <-]. destruct type; split; simpl; rewrite lookup_insert_eq;
      by eexists.
  - unfold ObjectController.addObject.
    destruct (ObjectController.geometry_of type) as [g|]; [|done].
    intros [= <-]. left. split; simpl; rewrite lookup_insert_eq; by eexists.
  - intros [= <-]. right. eexists. apply list_elem_of_here.
Qed.

(** C1, counterexample: a box is added, then a sphere.  The sphere is the
    first of its type, so a counter kept per type would name it [sphere_1];
    the controller names and registers it [sphere_2]. *)
Lemma object_counter_is_shared :
  per_type_object_id [AddObjectClick "box" 0.5 0.25] "sphere" = "sphere_1" ∧
  generated (AddObjectClick "sphere" 0.5 0.25)
            (run [AddObjectClick "box" 0.5 0.25] App.init)
    = Some (Objects, "sphere_2") ∧
  generated (AddObjectClick "sphere" 0.5 0.25)
            (run [AddObjectClick "box" 0.5 0.25] App.init)
    ≠ Some (Objects,
            per_type_object_id [AddObjectClick "box" 0.5 0.25] "sphere") ∧
  oc_objects
    (objectController
       (run [AddObjectClick "box" 0.5 0.25; AddObjectClick "sphere" 0.5 0.25]
            App.init)) !! "sphere_1" = None ∧
  is_Some
    (oc_objects
       (objectController
          (run [AddObjectClick "box" 0.5 0.25; AddObjectClick "sphere" 0.5 0.25]
               App.init)) !! "sphere_2").
Proof.
  split_and!; try (vm_compute; reflexivity).
  - vm_compute. discriminate.
  - vm_compute. by eexists.
Qed.

(** Where the bound comes from: as doubles, [MAX_SAFE_INTEGER + 1] is still
    the next integer, and one more [+ 1] gives its argument back. *)
Lemma double_increment_stops :
  (Number MAX_SAFE_INTEGER + 1 =? Number (MAX_SAFE_INTEGER + 1))%float = true ∧
  (Number (MAX_SAFE_INTEGER + 1) + 1 =? Number (MAX_SAFE_INTEGER + 1))%float
    = true.
Proof. split; vm_compute; reflexivity. Qed.

(** C1, amended: take a session after which no counter is above
    [MAX_SAFE_INTEGER] = 2^53 - 1 (the counters are doubles; at 2^53 the
    increment no longer changes them).  Then no counter was above the bound
    at any earlier point of the session, and the identifiers the session
    generates are the type tag, an underscore and the decimal value of a
    counter that goes up by one each time: for a light the number of adds of
    that light type so far, for a primitive the number of requests to add a
    primitive of any type so far, for an imported model the number of uploads
    so far.  No identifier is generated twice, the identifier of a further
    add is none of them, and each is the key under which its entity, or the
    load of its entity, is registered. *)
Theorem identifiers_counted_and_fresh (es : list Event) :
  counters_exact (run es App.init) →
  (∀ k, counters_exact (run (take k es) App.init)) ∧
  ids es App.init = counted_ids [] es ∧
  NoDup (ids es App.init) ∧
  ∀ e x, generated e (run es App.init) = Some x →
    (x ∉ ids es App.init) ∧ registered x (handle e (run es App.init)).
Proof.
  intros Hexact. split_and!.
  - intros k. by apply counters_exact_take.
  - apply (ids_counted [] es).
  - apply ids_NoDup.
  - intros e x Hx. split.
    + intros Hin%ids_below. by apply generated_above in Hx as [? _].
    + by apply generated_registered.
Qed.

Lemma identifiers_counted_and_fresh_witness :
  let es := [AddObjectClick "box" 0.5 0.25; AddObjectClick "sphere" 0.5 0.25;
             AddLightClick point; ModelFileChosen; AddLightClick point] in
  counters_exact (run es App.init) ∧
  ids es App.init
    = [(Objects, "box_1"); (Objects, "sphere_2"); (Lights, "point_1");
       (Objects, "model_1"); (Lights, "point_2")] ∧
  NoDup (ids es App.init).
Proof.
  intros es.
  assert (counters_exact (run es App.init)) as Hexact.
  { split_and!; [intros []|..]; vm_compute; discriminate. }
  destruct (identifiers_counted_and_fresh es Hexact) as (_ & Hc & Hn & _).
  split_and!; [exact Hexact| |exact Hn].
  exact (eq_trans Hc eq_refl).
Defined.

(** * Further properties *)

(** ** The text of a counter *)

Lemma pretty_N_go_digits x s :
  all_digits s = true → all_digits (pretty_N_go x s) = true.
Proof.
  revert s. induction (N.lt_wf_0 x) as [x _ IH]. intros s Hs.
  destruct (decide (x = 0)%N) as [->|Hx]; [by rewrite pretty_N_go_0|].
  rewrite pretty_N_go_step by lia. apply IH.
  - apply N.div_lt; lia.
  - simpl. rewrite Hs, andb_true_r.
    unfold pretty_N_char. by repeat case_match.
Qed.

Lemma number_text_digits n : all_digits (number_text n) = true.
Proof.
  unfold number_text, pretty, pretty_N. case_decide; [done|].
  by apply pretty_N_go_digits.
Qed.

Lemma number_text_not (s : string) n : all_digits s = false → number_text n ≠ s.
Proof. intros Hs <-. by rewrite number_text_digits in Hs. Qed.

Lemma append_length (s t : string) :
  String.length (s +:+ t) = String.length s + String.length t.
Proof. induction s as [|c s IH]; simpl; [done|by rewrite IH]. Qed.

Lemma append_inj_l (s1 s2 t : string) : s1 +:+ t = s2 +:+ t → s1 = s2.
Proof.
  intros H. assert (String.length s1 = String.length s2) as Hlen.
  { apply (f_equal String.length) in H. rewrite !append_length in H. lia. }
  revert s2 H Hlen. induction s1 as [|c s1 IH]; intros [|c' s2] H Hlen;
    simplify_eq/=; [done|]. f_equal. by apply IH.
Qed.

(** ** What an edit leaves alone *)

Section Related.

Context {A : Type} (P : A → A → Prop).

Lemma heap_related_refl h : (∀ x, P x x) → heap_related P h h.
Proof. intros HP l. destruct (h !! l); by constructor. Qed.

Lemma heap_related_alter f l h h' :
  (∀ x y, P x y → P x (f y)) →
  heap_related P h h' → heap_related P h (alter f l h').
Proof.
  intros Hf Hh l'. specialize (Hh l').
  destruct (decide (l' = l)) as [->|Hne].
  - rewrite lookup_alter_eq. destruct Hh; constructor; auto.
  - by rewrite lookup_alter_ne.
Qed.

End Related.

Lemma keeps_kind_set_light_color c : keeps_kind (set_light_color c).
Proof. intros [[] ? ? ? ? ?]; reflexivity. Qed.

Lemma keeps_kind_set_light_intensity v : keeps_kind (set_light_intensity v).
Proof. intros [[] ? ? ? ? ?]; reflexivity. Qed.

Lemma keeps_kind_with_position p : keeps_kind (with_position p).
Proof. intros o; reflexivity. Qed.

Lemma keeps_kind_with_rotation p : keeps_kind (with_rotation p).
Proof. intros o; reflexivity. Qed.

Lemma keeps_kind_with_scale p : keeps_kind (with_scale p).
Proof. intros o; reflexivity. Qed.

Lemma keeps_kind_with_castShadow b : keeps_kind (with_castShadow b).
Proof. intros o; reflexivity. Qed.

Lemma keeps_kind_set_material g : keeps_kind (set_material g).
Proof. intros [[] ? ? ? ? ?]; reflexivity. Qed.

Lemma keeps_kind_helper_refresh h : keeps_kind (helper_refresh h).
Proof. intros [[] ? ? ? ? ?]; reflexivity. Qed.

Create HintDb keeps_kind discriminated.

#[local] Hint Resolve keeps_kind_set_light_color
  keeps_kind_set_light_intensity keeps_kind_with_position
  keeps_kind_with_rotation keeps_kind_with_scale keeps_kind_with_castShadow
  keeps_kind_set_material keeps_kind_helper_refresh : keeps_kind.

Lemma heap_related_kind f l h h' :
  keeps_kind f →
  heap_related same_kind h h' → heap_related same_kind h (alter f l h').
Proof.
  intros Hf. apply heap_related_alter. intros x y Hxy.
  unfold same_kind in *. by rewrite Hf.
Qed.

Lemma heap_related_light f l h h' :
  (∀ d, same_origin_light d (f d)) →
  heap_related same_origin_light h h' →
  heap_related same_origin_light h (alter f l h').
Proof.
  intros Hf. apply heap_related_alter. intros x y (H1 & H2 & H3).
  destruct (Hf y) as (G1 & G2 & G3). split_and!; congruence.
Qed.

Lemma heap_related_object f l h h' :
  (∀ d, same_origin_object d (f d)) →
  heap_related same_origin_object h h' →
  heap_related same_origin_object h (alter f l h').
Proof.
  intros Hf. apply heap_related_alter. intros x y (H1 & H2 & H3 & H4).
  destruct (Hf y) as (G1 & G2 & G3 & G4). split_and!; congruence.
Qed.

Ltac related_step :=
  first
    [ apply heap_related_refl; solve [done | by intros ?; split_and!]
    | apply heap_related_kind; [solve [eauto with keeps_kind]|]
    | apply heap_related_light; [solve [by intros ?; split_and!]|]
    | apply heap_related_object; [solve [by intros ?; split_and!]|] ].

Lemma edit_frame e w :
  is_edit e = true →
  sceneManager (handle e w) = sceneManager w ∧
  lightController (handle e w) = lightController w ∧
  objectController (handle e w) = objectController w ∧
  browser (handle e w) = browser w ∧
  heap_related same_kind (heap3D w) (heap3D (handle e w)) ∧
  heap_related same_origin_light (heapLD w) (heapLD (handle e w)) ∧
  heap_related same_origin_object (heapOD w) (heapOD (handle e w)).
Proof.
  destruct e; try discriminate; intros _; expose;
    repeat case_match; simpl; split_and!; try reflexivity;
    repeat related_step.
Qed.

(** ** Effects of the structural handlers

    What adding, removing and loading do, as equations on the maps and the
    stores of the state before. *)

Lemma addLight_effect type w :
  let w' := LightController.addLight type w in
  let id := LightController.light_id type (LightController.next_count type w) in
  let L := fresh (dom (heap3D w)) in
  let R := fresh (dom (heapLD w)) in
  ∃ light d,
    kind light = KLight ∧
    ld_id d = id ∧ ld_type d = type ∧
    heapLD w' = <[R := d]> (heapLD w) ∧
    heapOD w' = heapOD w ∧
    sm_lights (sceneManager w') = <[id := L]> (sm_lights (sceneManager w)) ∧
    lc_lights (lightController w')
      = <[id := R]> (lc_lights (lightController w)) ∧
    lightCounter (lightController w')
      = <[type := LightController.next_count type w]>
          (lightCounter (lightController w)) ∧
    lc_panel (lightController w') = LightController.renderLights w' ∧
    objectController w' = objectController w ∧
    browser w' = browser w ∧
    match ld_helper d with
    | None =>
        type = ambient ∧
        heap3D w' = <[L := light]> (heap3D w) ∧
        sm_objects (sceneManager w') = sm_objects (sceneManager w) ∧
        scene (sceneManager w') = children_add L (scene (sceneManager w))
    | Some H =>
        type ≠ ambient ∧
        H = fresh (dom (<[L := light]> (heap3D w))) ∧
        ∃ helper,
          kind helper = KLightHelper ∧
          heap3D w' = <[H := helper]> (<[L := light]> (heap3D w)) ∧
          sm_objects (sceneManager w')
            = <[id +:+ "_helper" := H]> (sm_objects (sceneManager w)) ∧
          scene (sceneManager w')
            = children_add L (children_add H (scene (sceneManager w)))
    end.
Proof.
  destruct type; simpl; eexists _, _; split_and!; try reflexivity; simpl.
  all: try (split_and!; try done; try reflexivity).
  all: try (eexists; split_and!; try reflexivity; reflexivity).
  all: reflexivity.
Qed.

Lemma removeLight_effect id r w :
  lc_lights (lightController w) !! id = Some r →
  let w' := LightController.removeLight id w in
  let helper : option loc := heapLD w !! r ≫= ld_helper in
  heap3D w' = heap3D w ∧ heapLD w' = heapLD w ∧ heapOD w' = heapOD w ∧
  sm_lights (sceneManager w') = delete id (sm_lights (sceneManager w)) ∧
  sm_objects (sceneManager w')
    = (match helper with
       | Some _ => delete (id +:+ "_helper") (sm_objects (sceneManager w))
       | None => sm_objects (sceneManager w)
       end) ∧
  scene (sceneManager w')
    = (match sm_lights (sceneManager w) !! id with
       | Some l => children_remove l
       | None => λ s, s
       end)
        ((match helper, sm_objects (sceneManager w) !! (id +:+ "_helper") with
          | Some _, Some h => children_remove h
          | _, _ => λ s, s
          end) (scene (sceneManager w))) ∧
  lc_lights (lightController w') = delete id (lc_lights (lightController w)) ∧
  lightCounter (lightController w') = lightCounter (lightController w) ∧
  lc_panel (lightController w') = LightController.renderLights w' ∧
  objectController w' = objectController w ∧
  browser w' = browser w.
Proof.
  intros Hr. simpl. unfold LightController.removeLight. rewrite Hr.
  destruct (heapLD w !! r) as [d|]; simpl;
    [destruct (ld_helper d) as [h|]|]; simpl;
    unfold SceneManager.removeLight, SceneManager.removeObject; simpl;
    repeat case_match; simpl in *; simplify_eq;
    split_and!; try reflexivity;
    rewrite ?delete_id by done; try reflexivity.
Qed.

Lemma addObject_effect type g rnd_x rnd_z w :
  ObjectController.geometry_of type = Some g →
  let w' := final (ObjectController.addObject type rnd_x rnd_z w) in
  let id :=
    ObjectController.object_id type
      (objectCounter (objectController w) + 1)%N in
  let M := fresh (dom (heap3D w)) in
  let R := fresh (dom (heapOD w)) in
  ∃ mesh d,
    kind mesh = KMesh ∧
    od_id d = id ∧ od_type d = type ∧
    od_isCustomModel d = None ∧ od_modelUrl d = None ∧
    heap3D w' = <[M := mesh]> (heap3D w) ∧
    heapOD w' = <[R := d]> (heapOD w) ∧
    heapLD w' = heapLD w ∧
    scene (sceneManager w') = children_add M (scene (sceneManager w)) ∧
    sm_lights (sceneManager w') = sm_lights (sceneManager w) ∧
    sm_objects (sceneManager w') = <[id := M]> (sm_objects (sceneManager w)) ∧
    oc_objects (objectController w')
      = <[id := R]> (oc_objects (objectController w)) ∧
    objectCounter (objectController w')
      = (objectCounter (objectController w) + 1)%N ∧
    modelCounter (objectController w') = modelCounter (objectController w) ∧
    oc_panel (objectController w') = ObjectController.renderObjects w' ∧
    lightController w' = lightController w ∧
    browser w' = browser w.
Proof.
  intros Hg. unfold ObjectController.addObject. rewrite Hg. simpl.
  eexists _, _. split_and!; try reflexivity; reflexivity.
Qed.

Lemma removeObject_effect id r w :
  oc_objects (objectController w) !! id = Some r →
  let w' := ObjectController.removeObject id w in
  heap3D w' = heap3D w ∧ heapLD w' = heapLD w ∧ heapOD w' = heapOD w ∧
  sm_lights (sceneManager w') = sm_lights (sceneManager w) ∧
  sm_objects (sceneManager w') = delete id (sm_objects (sceneManager w)) ∧
  scene (sceneManager w')
    = (match sm_objects (sceneManager w) !! id with
       | Some o => children_remove o (scene (sceneManager w))
       | None => scene (sceneManager w)
       end) ∧
  oc_objects (objectController w')
    = delete id (oc_objects (objectController w)) ∧
  objectCounter (objectController w') = objectCounter (objectController w) ∧
  modelCounter (objectController w') = modelCounter (objectController w) ∧
  oc_panel (objectController w') = ObjectController.renderObjects w' ∧
  lightController w' = lightController w ∧
  blobCount (browser w') = blobCount (browser w) ∧
  loading (browser w') = loading (browser w) ∧
  revoked (browser w')
    = (match heapOD w !! r ≫= ObjectController.revocable with
       | Some url => url :: revoked (browser w)
       | None => revoked (browser w)
       end).
Proof.
  intros Hr. simpl. unfold ObjectController.removeObject. rewrite Hr.
  destruct (heapOD w !! r ≫= ObjectController.revocable); simpl;
    unfold SceneManager.removeObject; simpl;
    repeat case_match; simpl in *; simplify_eq;
    split_and!; try reflexivity;
    rewrite ?delete_id by done; try reflexivity.
Qed.

Lemma handleModelUpload_effect w :
  let w' := ObjectController.handleModelUpload w in
  heap3D w' = heap3D w ∧ heapLD w' = heapLD w ∧ heapOD w' = heapOD w ∧
  sceneManager w' = sceneManager w ∧
  lightController w' = lightController w ∧
  oc_objects (objectController w') = oc_objects (objectController w) ∧
  objectCounter (objectController w') = objectCounter (objectController w) ∧
  modelCounter (objectController w')
    = (modelCounter (objectController w) + 1)%N ∧
  oc_panel (objectController w') = oc_panel (objectController w) ∧
  blobCount (browser w') = (blobCount (browser w) + 1)%N ∧
  revoked (browser w') = revoked (browser w) ∧
  loading (browser w')
    = (ObjectController.model_id (modelCounter (objectController w) + 1)%N,
       "blob:" +:+ number_text (blobCount (browser w)))
      :: loading (browser w).
Proof. simpl. split_and!; reflexivity. Qed.

Lemma modelLoaded_effect id url center size w :
  let w' := handle (ModelLoaded id url center size) w in
  let M := fresh (dom (heap3D w)) in
  let R := fresh (dom (heapOD w)) in
  ∃ model d,
    kind model = KGroup ∧
    od_id d = id ∧ od_type d = "custom_model" ∧
    od_isCustomModel d = Some true ∧ od_modelUrl d = Some url ∧
    heap3D w' = <[M := model]> (heap3D w) ∧
    heapOD w' = <[R := d]> (heapOD w) ∧
    heapLD w' = heapLD w ∧
    scene (sceneManager w') = children_add M (scene (sceneManager w)) ∧
    sm_lights (sceneManager w') = sm_lights (sceneManager w) ∧
    sm_objects (sceneManager w') = <[id := M]> (sm_objects (sceneManager w)) ∧
    oc_objects (objectController w')
      = <[id := R]> (oc_objects (objectController w)) ∧
    objectCounter (objectController w') = objectCounter (objectController w) ∧
    modelCounter (objectController w') = modelCounter (objectController w) ∧
    oc_panel (objectController w') = ObjectController.renderObjects w' ∧
    lightController w' = lightController w ∧
    blobCount (browser w') = blobCount (browser w) ∧
    revoked (browser w') = revoked (browser w) ∧
    loading (browser w')
      = filter (λ p, p ≠ (id, url)) (loading (browser w)).
Proof.
  simpl. unfold ObjectController.onLoad. simpl.
  eexists _, _. split_and!; try reflexivity; try reflexivity.
  by case_match.
Qed.

Lemma modelFailed_effect id url w :
  let w' := handle (ModelFailed id url) w in
  heap3D w' = heap3D w ∧ heapLD w' = heapLD w ∧ heapOD w' = heapOD w ∧
  sceneManager w' = sceneManager w ∧
  lightController w' = lightController w ∧
  objectController w' = objectController w ∧
  blobCount (browser w') = blobCount (browser w) ∧
  revoked (browser w') = revoked (browser w) ∧
  loading (browser w') = filter (λ p, p ≠ (id, url)) (loading (browser w)).
Proof. simpl. split_and!; reflexivity. Qed.

(** ** The identifier discipline *)

Lemma light_id_not_default type n :
  LightController.light_id type n ≠ "ambient_default".
Proof.
  unfold LightController.light_id. destruct type; intros H; simplify_eq/=.
  cbn in H. injection H as H. by apply (number_text_not "default" n).
Qed.

Lemma helper_not_default type n :
  LightController.light_id type n +:+ "_helper" ∉ default_objects.
Proof.
  unfold default_objects, LightController.light_id.
  destruct type; intros H; repeat (apply elem_of_cons in H as [H|H]);
    simplify_eq/=; by apply elem_of_nil in H.
Qed.

Lemma object_id_not_default id : is_object_id id → id ∉ default_objects.
Proof.
  unfold default_objects.
  intros [(t & g & n & Hg & ->)|[s ->]] H;
    repeat (apply elem_of_cons in H as [H|H]);
    try (by apply elem_of_nil in H);
    unfold ObjectController.geometry_of, ObjectController.object_id in *;
    repeat case_decide; simplify_eq/=;
    cbn in H; injection H as H; by apply (number_text_not "default" n).
Qed.

Lemma helper_id_inj (id id' : string) :
  id +:+ "_helper" = id' +:+ "_helper" → id = id'.
Proof. apply append_inj_l. Qed.

Section Keys.

Implicit Types (lc sl oc so : gmap string loc) (count : LightType → N)
  (helper : string → Prop) (pending : list (string * string)).

Lemma keys_ok_helper lc count sl oc objects models so helper helper' pending :
  (∀ id, helper' id ↔ helper id) →
  keys_ok lc count sl oc objects models so helper pending →
  keys_ok lc count sl oc objects models so helper' pending.
Proof.
  intros Hh [? ? ? ? ? ? ?]. split; try done.
  - intros id. rewrite Hh. auto.
  - intros k. rewrite keys_reg_objects0. by setoid_rewrite Hh.
Qed.

Lemma light_key_fresh lc count sl oc objects models so helper pending type :
  keys_ok lc count sl oc objects models so helper pending →
  lc !! LightController.light_id type (count type + 1)%N = None.
Proof.
  intros [Hl _ _ _ _ _ _].
  destruct (lc !! _) as [r|] eqn:Hr; [|done].
  destruct (Hl _ (mk_is_Some _ _ Hr)) as (t & n & Heq & Hn).
  apply light_id_inj in Heq as [<- <-]. lia.
Qed.

(** [addLight] *)
Lemma keys_ok_add_light lc count sl oc objects models so helper pending
    type id (R L : loc) (h : option loc) :
  id = LightController.light_id type (count type + 1)%N →
  keys_ok lc count sl oc objects models so helper pending →
  keys_ok (<[id := R]> lc)
          (λ t, if decide (t = type) then (count type + 1)%N else count t)
          (<[id := L]> sl) oc objects models
          (match h with Some H => <[id +:+ "_helper" := H]> so | None => so end)
          (λ i, if decide (i = id) then is_Some h else helper i)
          pending.
Proof.
  intros Hid Hok.
  pose proof (light_key_fresh _ _ _ _ _ _ _ _ _ type Hok) as Hfresh.
  rewrite <-Hid in Hfresh.
  destruct Hok as [Hl Hrl Hh Ho Hro Hp Hn]. split; try done.
  - intros i. rewrite lookup_insert_is_Some'. intros [<-|Hi].
    + exists type, (count type + 1)%N. split; [done|]. by rewrite decide_True.
    + destruct (Hl i Hi) as (t & n & -> & Hle). exists t, n. split; [done|].
      case_decide; [subst; lia|done].
  - intros i. rewrite !lookup_insert_is_Some', Hrl. clear Hid. naive_solver.
  - intros i. rewrite lookup_insert_is_Some'. case_decide; [by left|].
    intros Hi. right. by apply Hh.
  - assert (∀ k, (∃ i, (if decide (i = id) then is_Some h else helper i) ∧
                       k = i +:+ "_helper") ↔
                 (is_Some h ∧ k = id +:+ "_helper") ∨
                 (∃ i, helper i ∧ k = i +:+ "_helper")) as Hsplit.
    { intros k. split.
      - intros (i & Hi & ->). case_decide; [subst; by left|right; eauto].
      - intros [[Hs ->]|(i & Hi & ->)].
        + exists id. by rewrite decide_True.
        + exists i. rewrite decide_False; [done|].
          intros ->. apply Hh in Hi.
          rewrite Hfresh in Hi. by destruct Hi. }
    clear Hid. intros k. rewrite Hsplit. destruct h as [H|].
    + rewrite lookup_insert_is_Some', Hro. naive_solver.
    + rewrite Hro. split; [naive_solver|].
      intros [?|[?|[[[? [=]] _]|?]]]; auto.
Qed.

(** [removeLight] *)
Lemma keys_ok_remove_light lc count sl oc objects models so helper pending
    id (h : option loc) :
  is_Some (lc !! id) →
  (is_Some h ↔ helper id) →
  keys_ok lc count sl oc objects models so helper pending →
  keys_ok (delete id lc) count (delete id sl) oc objects models
          (match h with Some _ => delete (id +:+ "_helper") so | None => so end)
          (λ i, i ≠ id ∧ helper i)
          pending.
Proof.
  intros Hin Hhelper [Hl Hrl Hh Ho Hro Hp Hn]. split; try done.
  - intros i. rewrite lookup_delete_is_Some. intros [_ Hi]. auto.
  - intros i. rewrite !lookup_delete_is_Some, Hrl. split; [naive_solver|].
    intros [->|[Hne Hi]]; [|by auto]. split; [|by left].
    intros ->. destruct (Hl _ Hin) as (t & n & Heq & _).
    by apply (light_id_not_default t n).
  - intros i [Hne Hi]. rewrite lookup_delete_is_Some. auto.
  - destruct (Hl _ Hin) as (t & n & -> & _).
    intros k. destruct h as [H|].
    + rewrite lookup_delete_is_Some, Hro. split.
      * intros [Hne [?|[?|(i & Hi & ->)]]]; auto.
        right; right. exists i. split_and!; [|done..]. by intros ->.
      * intros [Hd|[Hk|(i & [Hne Hi] & ->)]].
        -- split; [|by left]. intros <-. by apply helper_not_default in Hd.
        -- split; [|by auto]. intros <-.
           apply (helper_not_object_id t n).
           destruct (Ho _ Hk) as [(t' & g & n' & Hg & Heq & _)|(n' & Heq & _)].
           ++ left. by exists t', g, n'.
           ++ right. by exists (number_text n').
        -- split; [|by eauto 6]. by intros ?%helper_id_inj.
    + rewrite Hro. split.
      * intros [?|[?|(i & Hi & ->)]]; auto. right; right. exists i.
        split_and!; [|done..]. intros ->. apply Hhelper in Hi.
        by destruct Hi.
      * intros [?|[?|(i & [_ Hi] & ->)]]; eauto.
Qed.

Lemma object_key_fresh lc count sl oc objects models so helper pending type g :
  ObjectController.geometry_of type = Some g →
  keys_ok lc count sl oc objects models so helper pending →
  oc !! ObjectController.object_id type (objects + 1)%N = None.
Proof.
  intros Hg [_ _ _ Ho _ _ _].
  destruct (oc !! _) as [r|] eqn:Hr; [|done].
  destruct (Ho _ (mk_is_Some _ _ Hr)) as [(t & g' & n & Hg' & Heq & Hn)
                                         |(n & Heq & _)].
  - apply (object_id_inj _ g _ _ g') in Heq as [<- <-]; [lia|done..].
  - by apply (object_id_not_model _ g) in Heq.
Qed.

Lemma model_key_fresh lc count sl oc objects models so helper pending n :
  (models < n)%N →
  keys_ok lc count sl oc objects models so helper pending →
  oc !! ObjectController.model_id n = None ∧
  ObjectController.model_id n ∉ pending.*1.
Proof.
  intros Hlt [_ _ _ Ho _ Hp _]. split.
  - destruct (oc !! _) as [r|] eqn:Hr; [|done].
    destruct (Ho _ (mk_is_Some _ _ Hr)) as [(t & g' & n' & Hg' & Heq & Hn)
                                           |(n' & Heq & Hn)].
    + symmetry in Heq. by apply (object_id_not_model _ g') in Heq.
    + apply model_id_inj in Heq as <-. lia.
  - intros Hin. apply list_elem_of_fmap in Hin as ([id url] & Heq & Hin).
    simpl in Heq. subst id.
    destruct (Hp _ _ Hin) as [(n' & Heq & Hn) _].
    apply model_id_inj in Heq as <-. lia.
Qed.

(** [addObject] *)
Lemma keys_ok_add_object lc count sl oc objects models so helper pending
    type g id (R M : loc) :
  ObjectController.geometry_of type = Some g →
  id = ObjectController.object_id type (objects + 1)%N →
  keys_ok lc count sl oc objects models so helper pending →
  keys_ok lc count sl (<[id := R]> oc) (objects + 1)%N models
          (<[id := M]> so) helper pending.
Proof.
  intros Hg Hid [Hl Hrl Hh Ho Hro Hp Hn]. split; try done.
  - intros i. rewrite lookup_insert_is_Some'. intros [<-|Hi].
    + left. exists type, g, (objects + 1)%N. by rewrite Hid.
    + destruct (Ho i Hi) as [(t & g' & n & Hg' & Heq & Hle)|?]; [|by right].
      left. exists t, g', n. split_and!; [done..|lia].
  - intros k. rewrite !lookup_insert_is_Some', Hro. clear Hid. naive_solver.
  - intros i url Hin. destruct (Hp _ _ Hin) as [(n & -> & Hle) Hnone].
    split; [by eauto|]. rewrite lookup_insert_ne; [done|].
    rewrite Hid. by apply object_id_not_model with g.
Qed.

(** [removeObject] *)
Lemma keys_ok_remove_object lc count sl oc objects models so helper pending id :
  is_Some (oc !! id) →
  keys_ok lc count sl oc objects models so helper pending →
  keys_ok lc count sl (delete id oc) objects models (delete id so)
          helper pending.
Proof.
  intros Hin [Hl Hrl Hh Ho Hro Hp Hn]. split; try done.
  - intros i. rewrite lookup_delete_is_Some. intros [_ Hi]. auto.
  - assert (is_object_id id) as Hobj.
    { destruct (Ho _ Hin) as [(t' & g & n' & Hg & Heq & _)|(n' & Heq & _)].
      - left. by exists t', g, n'.
      - right. by exists (number_text n'). }
    intros k. rewrite !lookup_delete_is_Some, Hro. split; [naive_solver|].
    intros [Hd|[[? ?]|(i & Hi & ->)]]; [|by auto|].
    + split; [|by left]. intros <-. by apply object_id_not_default in Hobj.
    + split; [|by eauto]. intros ->.
      destruct (Hl _ (Hh _ Hi)) as (t & n & -> & _).
      by apply helper_not_object_id in Hobj.
  - intros i url Hi. destruct (Hp _ _ Hi) as [? ?]. split; [done|].
    rewrite lookup_delete_None. by right.
Qed.

(** [handleModelUpload] *)
Lemma keys_ok_upload lc count sl oc objects models so helper pending url :
  keys_ok lc count sl oc objects models so helper pending →
  keys_ok lc count sl oc objects (models + 1)%N so helper
          ((ObjectController.model_id (models + 1)%N, url) :: pending).
Proof.
  intros Hok.
  assert (models < models + 1)%N as Hlt by lia.
  destruct (model_key_fresh _ _ _ _ _ _ _ _ _ _ Hlt Hok) as [Hfresh Hnew].
  destruct Hok as [Hl Hrl Hh Ho Hro Hp Hn]. split; try done.
  - intros i Hi. destruct (Ho i Hi) as [?|(n & -> & Hle)]; [by left|].
    right. exists n. split; [done|lia].
  - intros i u Hin. apply elem_of_cons in Hin as [[= -> ->]|Hin].
    + split; [|done]. by exists (models + 1)%N.
    + destruct (Hp _ _ Hin) as [(n & -> & Hle) Hnone]. split; [|done].
      exists n. split; [done|lia].
  - simpl. by constructor.
Qed.

Lemma pending_once_filter (P : string * string → Prop)
    `{!∀ x, Decision (P x)} pending :
  NoDup pending.*1 → NoDup (filter P pending).*1.
Proof.
  intros Hn. eapply sublist_NoDup; [done|].
  apply fmap_sublist, sublist_filter.
Qed.

Lemma pending_once_url pending id url url' :
  NoDup pending.*1 → (id, url) ∈ pending → (id, url') ∈ pending → url = url'.
Proof.
  induction pending as [|[i u] l IH]; simpl; intros Hn H1 H2.
  - by apply elem_of_nil in H1.
  - apply NoDup_cons in Hn as [Hni Hn].
    apply elem_of_cons in H1 as [Heq1|H1];
      apply elem_of_cons in H2 as [Heq2|H2].
    + congruence.
    + inversion Heq1; subst. destruct Hni. apply list_elem_of_fmap.
      by exists (i, url').
    + inversion Heq2; subst. destruct Hni. apply list_elem_of_fmap.
      by exists (i, url).
    + by apply IH.
Qed.

(** The loader's failure callback *)
Lemma keys_ok_failed lc count sl oc objects models so helper pending
    (P : string * string → Prop) `{!∀ x, Decision (P x)} :
  keys_ok lc count sl oc objects models so helper pending →
  keys_ok lc count sl oc objects models so helper (filter P pending).
Proof.
  intros [Hl Hrl Hh Ho Hro Hp Hn]. split; try done.
  - intros i u Hin. apply list_elem_of_filter in Hin as [_ Hin].
    exact (Hp _ _ Hin).
  - by apply pending_once_filter.
Qed.

(** The loader's success callback *)
Lemma keys_ok_loaded lc count sl oc objects models so helper pending
    id url (R M : loc) :
  (id, url) ∈ pending →
  keys_ok lc count sl oc objects models so helper pending →
  keys_ok lc count sl (<[id := R]> oc) objects models (<[id := M]> so)
          helper (filter (λ p, p ≠ (id, url)) pending).
Proof.
  intros Hin [Hl Hrl Hh Ho Hro Hp Hn]. split; try done.
  - intros i. rewrite lookup_insert_is_Some'. intros [<-|Hi]; [|by auto].
    right. by destruct (Hp _ _ Hin) as [? _].
  - intros k. rewrite !lookup_insert_is_Some', Hro. naive_solver.
  - intros i u Hi. apply list_elem_of_filter in Hi as [Hne Hi].
    destruct (Hp _ _ Hi) as [? Hnone]. split; [done|].
    rewrite lookup_insert_ne; [done|]. intros <-.
    apply Hne. f_equal. by apply (pending_once_url pending id).
  - by apply pending_once_filter.
Qed.

End Keys.

Lemma keys_ok_proper lc count count' sl oc objects models so helper helper'
    pending :
  (∀ type, count' type = count type) →
  (∀ id, helper' id ↔ helper id) →
  keys_ok lc count sl oc objects models so helper pending →
  keys_ok lc count' sl oc objects models so helper' pending.
Proof.
  intros Hc Hh [Hl ? Hhl ? Hro ? ?]. split; try done.
  - intros id Hid. destruct (Hl id Hid) as (t & n & ? & ?).
    exists t, n. by rewrite Hc.
  - intros id. rewrite Hh. auto.
  - intros k. rewrite Hro. by setoid_rewrite Hh.
Qed.

Lemma has_helper_frame w w' id :
  lightController w' = lightController w →
  heap_related same_origin_light (heapLD w) (heapLD w') →
  has_helper w' id ↔ has_helper w id.
Proof.
  intros Hlc Hh. unfold has_helper. rewrite Hlc. split.
  - intros (r & d & Hr & Hd & Hs). specialize (Hh r). rewrite Hd in Hh.
    inversion Hh as [d0 ? (_ & _ & Heq)|]; subst. exists r, d0.
    split_and!; [done..|]. by rewrite <-Heq.
  - intros (r & d & Hr & Hd & Hs). specialize (Hh r). rewrite Hd in Hh.
    inversion Hh as [? d' (_ & _ & Heq)|]; subst. exists r, d'.
    split_and!; [done..|]. by rewrite Heq.
Qed.

Lemma keys_inv_frame w w' :
  sceneManager w' = sceneManager w →
  lightController w' = lightController w →
  objectController w' = objectController w →
  browser w' = browser w →
  heap_related same_origin_light (heapLD w) (heapLD w') →
  keys_inv w → keys_inv w'.
Proof.
  intros Hsm Hlc Hoc Hb Hh. unfold keys_inv, light_count.
  rewrite Hsm, Hlc, Hoc, Hb. apply keys_ok_proper; [done|].
  intros id. by apply has_helper_frame.
Qed.

Lemma has_helper_same w w' id :
  lightController w' = lightController w →
  heapLD w' = heapLD w →
  has_helper w' id ↔ has_helper w id.
Proof. intros Hlc Hh. unfold has_helper. by rewrite Hlc, Hh. Qed.

Lemma keys_inv_addLight type w :
  lc_inv w → keys_inv w → keys_inv (LightController.addLight type w).
Proof.
  intros Hlc Hinv.
  destruct (addLight_effect type w)
    as (light & d & _ & Hid & _ & HLD & _ & Hsl & Hl & Hcnt & _ & Hoc & Hb
        & Hhelper).
  unfold keys_inv, light_count. rewrite Hsl, Hl, Hcnt, Hoc, Hb.
  eapply keys_ok_proper; last first.
  - assert (sm_objects (sceneManager (LightController.addLight type w))
            = match ld_helper d with
              | Some H => <[ld_id d +:+ "_helper" := H]>
                            (sm_objects (sceneManager w))
              | None => sm_objects (sceneManager w)
              end) as ->.
    { rewrite Hid. destruct (ld_helper d); [|tauto].
      by destruct Hhelper as (_ & _ & helper & _ & _ & -> & _). }
    rewrite <-Hid.
    eapply keys_ok_add_light
      with (count := λ t, light_count t w) (type := type) (h := ld_helper d);
      [exact Hid|exact Hinv].
  - intros i. unfold has_helper. rewrite Hl, HLD, <-Hid.
    destruct (decide (i = ld_id d)) as [->|Hne].
    + rewrite lookup_insert_eq. split.
      * intros (r & d' & [= <-] & Hd' & Hs).
        rewrite lookup_insert_eq in Hd'. by simplify_eq.
      * intros Hs. eexists _, d. by rewrite lookup_insert_eq.
    + rewrite lookup_insert_ne by done. split.
      * intros (r & d' & Hr & Hd' & Hs). exists r, d'. split; [done|].
        destruct (lc_records w Hlc i r Hr) as (d0 & Hd0 & _).
        rewrite lookup_insert_ne in Hd'; [done|].
        intros <-. by rewrite fresh_heap_None in Hd0.
      * intros (r & d' & Hr & Hd' & Hs). exists r, d'. split; [done|].
        rewrite lookup_insert_ne; [done|].
        intros <-. by rewrite fresh_heap_None in Hd'.
  - intros t. simpl. unfold LightController.next_count.
    case_decide as Ht.
    + subst. by rewrite lookup_insert_eq.
    + by rewrite lookup_insert_ne.
Qed.

Lemma keys_inv_removeLight id w :
  keys_inv w → keys_inv (LightController.removeLight id w).
Proof.
  intros Hinv.
  destruct (lc_lights (lightController w) !! id) as [r|] eqn:Hr; last first.
  { unfold LightController.removeLight. by rewrite Hr. }
  destruct (removeLight_effect id r w Hr)
    as (_ & HLD & _ & Hsl & Hso & _ & Hl & Hcnt & _ & Hoc & Hb).
  unfold keys_inv, light_count. rewrite Hsl, Hso, Hl, Hcnt, Hoc, Hb.
  eapply keys_ok_proper; last first.
  - apply keys_ok_remove_light; [by eexists| |exact Hinv].
    unfold has_helper. rewrite Hr. split.
    + destruct (heapLD w !! r) as [d|] eqn:Hd; simpl; [|by intros [? ?]].
      intros Hs. by exists r, d.
    + intros (r' & d & [= <-] & -> & Hs). done.
  - intros i. unfold has_helper. rewrite Hl, HLD.
    setoid_rewrite lookup_delete_Some. 
    split; [intros (r' & d & [? ?] & ? & ?)|intros [? (r' & d & ? & ? & ?)]];
      eauto 7.
  - done.
Qed.

Lemma keys_inv_step e w :
  lc_inv w → keys_inv w → enabled e w → keys_inv (handle e w).
Proof.
  intros Hlc Hinv He.
  destruct (is_edit e) eqn:Hedit.
  { destruct (edit_frame e w Hedit) as (? & ? & ? & ? & _ & ? & _).
    by apply (keys_inv_frame w). }
  destruct e; try discriminate; clear Hedit.
  - by apply keys_inv_addLight.
  - simpl. unfold on_light. case_match; [|done]. by apply keys_inv_removeLight.
  - simpl in He.
    assert (∃ g, ObjectController.geometry_of type = Some g) as [g Hg].
    { unfold objectTypes in He. unfold ObjectController.geometry_of.
      repeat (apply elem_of_cons in He as [->|He]); simpl; eauto.
      by apply elem_of_nil in He. }
    destruct (addObject_effect type g rnd_x rnd_z w Hg)
      as (mesh & d & _ & _ & _ & _ & _ & _ & _ & HLD & _ & Hsl & Hso & Ho
          & Hcnt & Hm & _ & Hl & Hb).
    unfold keys_inv, light_count. simpl handle.
    rewrite Hsl, Hso, Ho, Hcnt, Hm, Hl, Hb.
    eapply keys_ok_proper; [done| |by eapply keys_ok_add_object].
    intros i. by apply has_helper_same.
  - simpl. unfold on_object. case_match; [|done].
    destruct (oc_objects (objectController w) !! od_id o) as [r|] eqn:Hr;
      last first.
    { unfold ObjectController.removeObject. by rewrite Hr. }
    destruct (removeObject_effect (od_id o) r w Hr)
      as (_ & HLD & _ & Hsl & Hso & _ & Ho & Hcnt & Hm & _ & Hl & _ & Hld & _).
    unfold keys_inv, light_count.
    rewrite Hsl, Hso, Ho, Hcnt, Hm, Hl, Hld.
    eapply keys_ok_proper; [done| |by eapply keys_ok_remove_object].
    intros i. by apply has_helper_same.
  - destruct (handleModelUpload_effect w)
      as (_ & HLD & _ & Hsm & Hl & Ho & Hcnt & Hm & _ & _ & _ & Hld).
    unfold keys_inv, light_count. simpl handle.
    rewrite Hsm, Ho, Hcnt, Hm, Hl, Hld.
    eapply keys_ok_proper; [done| |by eapply keys_ok_upload].
    intros i. by apply has_helper_same.
  - destruct (modelLoaded_effect id objectURL center size w)
      as (model & d & _ & _ & _ & _ & _ & _ & _ & HLD & _ & Hsl & Hso & Ho
          & Hcnt & Hm & _ & Hl & _ & _ & Hld).
    unfold keys_inv, light_count.
    rewrite Hsl, Hso, Ho, Hcnt, Hm, Hl, Hld.
    eapply keys_ok_proper; [done| |by eapply keys_ok_loaded].
    intros i. by apply has_helper_same.
  - destruct (modelFailed_effect id objectURL w)
      as (_ & HLD & _ & Hsm & Hl & Ho & _ & _ & Hld).
    unfold keys_inv, light_count.
    rewrite Hsm, Ho, Hl, Hld.
    eapply keys_ok_proper; [done| |by eapply keys_ok_failed].
    intros i. by apply has_helper_same.
Qed.

Lemma keys_inv_init : keys_inv App.init.
Proof.
  assert (∀ id, ¬ has_helper App.init id) as Hnone.
  { intros id (r & d & Hr & _). vm_compute in Hr. discriminate. }
  split.
  - intros id [r Hr]. vm_compute in Hr. discriminate.
  - intros id.
    change (sm_lights (sceneManager App.init))
      with (<["ambient_default" := 3%positive]> (∅ : gmap string loc)).
    rewrite lookup_insert_is_Some'.
    change (lc_lights (lightController App.init)) with (∅ : gmap string loc).
    rewrite lookup_empty. split; intros [?|?]; auto.
  - intros id H. by apply Hnone in H.
  - intros id [r Hr]. vm_compute in Hr. discriminate.
  - intros k.
    change (sm_objects (sceneManager App.init))
      with (<["plane_default" := 5%positive]>
              (<["box_default" := 4%positive]> (∅ : gmap string loc))).
    rewrite !lookup_insert_is_Some'.
    change (oc_objects (objectController App.init))
      with (∅ : gmap string loc).
    rewrite lookup_empty. unfold default_objects.
    rewrite !elem_of_cons, elem_of_nil. split.
    + intros [?|[?|[? ?]]]; auto; done.
    + intros [[?|[?|[]]]|[[? ?]|(id & ?%Hnone & _)]]; auto; done.
  - intros id url H. vm_compute in H. by apply elem_of_nil in H.
  - vm_compute. constructor.
Qed.

Lemma reachable_keys_inv w : reachable w → keys_inv w.
Proof.
  induction 1 as [|w e Hw IH He]; [apply keys_inv_init|].
  apply keys_inv_step; [by apply reachable_lc_inv|done..].
Qed.

(** ** The shape of the registry *)

Section Shape.

Implicit Types (h : gmap loc Object3D) (sc : list loc)
  (sl so m : gmap string loc).

Lemma related_is_Some {A} (P : A → A → Prop) (h h' : gmap loc A) l :
  heap_related P h h' → is_Some (h' !! l) ↔ is_Some (h !! l).
Proof.
  intros Hr. specialize (Hr l).
  destruct Hr; split; intros [? ?]; by eauto.
Qed.

Lemma refs_ok_related {A} (P : A → A → Prop) (h h' : gmap loc A) m :
  heap_related P h h' → refs_ok h m → refs_ok h' m.
Proof.
  intros Hr [Hal Hinj]. split; [|done].
  intros id l Hl. rewrite (related_is_Some P h h'); eauto.
Qed.

Lemma all_kind_related P h h' m :
  heap_related same_kind h h' → all_kind P h m → all_kind P h' m.
Proof.
  intros Hr Hk id l Hl. destruct (Hk id l Hl) as (o & Ho & HP).
  specialize (Hr l). rewrite Ho in Hr.
  inversion Hr as [? o' Hs|]; subst. exists o'. split; [done|].
  unfold same_kind in Hs. by rewrite Hs.
Qed.

Lemma static_related h h' l :
  heap_related same_kind h h' → static h' l ↔ static h l.
Proof.
  intros Hr. specialize (Hr l). unfold static. split.
  - intros (o' & Ho' & Hk). rewrite Ho' in Hr.
    inversion Hr as [o ? Hs|]; subst. exists o. split; [done|].
    unfold same_kind in Hs. by rewrite <-Hs.
  - intros (o & Ho & Hk). rewrite Ho in Hr.
    inversion Hr as [? o' Hs|]; subst. exists o'. split; [done|].
    unfold same_kind in Hs. by rewrite Hs.
Qed.

Lemma shape_ok_related h h' sc sl so :
  heap_related same_kind h h' → shape_ok h sc sl so → shape_ok h' sc sl so.
Proof.
  intros Hr [? ? ? ? ? Hsc]. split; try done.
  - by eapply refs_ok_related.
  - by eapply refs_ok_related.
  - by eapply all_kind_related.
  - by eapply all_kind_related.
  - intros l. rewrite Hsc. by rewrite (static_related h h').
Qed.

(** What is in the scene is allocated. *)
Lemma shape_scene_allocated h sc sl so l :
  shape_ok h sc sl so → l ∈ sc → is_Some (h !! l).
Proof.
  intros [[Hl _] [Ho _] _ _ _ Hsc] Hin.
  apply Hsc in Hin as [(o & -> & _)|[[id Hid]|[id Hid]]]; eauto.
Qed.

Lemma shape_fresh h sc sl so :
  shape_ok h sc sl so →
  (fresh (dom h) ∉ sc) ∧
  (∀ id, sl !! id ≠ Some (fresh (dom h))) ∧
  (∀ id, so !! id ≠ Some (fresh (dom h))).
Proof.
  intros Hok. pose proof Hok as [[Hl _] [Ho _] _ _ _ Hsc]. split_and!.
  - intros Hin. apply (shape_scene_allocated _ _ _ _ _ Hok) in Hin.
    rewrite fresh_heap_None in Hin. by destruct Hin.
  - intros id Hid. apply Hl in Hid. rewrite fresh_heap_None in Hid.
    by destruct Hid.
  - intros id Hid. apply Ho in Hid. rewrite fresh_heap_None in Hid.
    by destruct Hid.
Qed.

Lemma all_kind_alloc P o h m :
  refs_ok h m → all_kind P h m → all_kind P (<[fresh (dom h) := o]> h) m.
Proof.
  intros [Hal _] Hk id l Hl. destruct (Hk id l Hl) as (o' & Ho' & HP).
  exists o'. split; [|done]. rewrite lookup_insert_ne; [done|].
  intros <-. by rewrite fresh_heap_None in Ho'.
Qed.

Lemma all_kind_insert P id l o h m :
  h !! l = Some o → P (kind o) → all_kind P h m → all_kind P h (<[id := l]> m).
Proof.
  intros Ho HP Hk id' l'. destruct (decide (id = id')) as [<-|Hne].
  - rewrite lookup_insert_eq. intros [= <-]. eauto.
  - rewrite lookup_insert_ne by done. apply Hk.
Qed.

Lemma all_kind_delete P id h m : all_kind P h m → all_kind P h (delete id m).
Proof.
  intros Hk id' l Hl. apply lookup_delete_Some in Hl as [_ Hl].
  by apply (Hk id').
Qed.

(** A node that is allocated but not put anywhere yet. *)
Lemma shape_ok_alloc o h sc sl so :
  kind o ≠ KStatic →
  shape_ok h sc sl so → shape_ok (<[fresh (dom h) := o]> h) sc sl so.
Proof.
  intros Hk Hok. destruct (shape_fresh _ _ _ _ Hok) as (Hf & _ & _).
  destruct Hok as [? ? ? ? ? Hsc]. split; try done.
  - by apply refs_ok_alloc.
  - by apply refs_ok_alloc.
  - by apply all_kind_alloc.
  - by apply all_kind_alloc.
  - intros l. rewrite Hsc. unfold static.
    destruct (decide (l = fresh (dom h))) as [->|Hne].
    + rewrite lookup_insert_eq, fresh_heap_None. split.
      * intros [(? & [=] & _)|?]; auto.
      * intros [(? & [= <-] & ?)|?]; [done|auto].
    + by rewrite lookup_insert_ne.
Qed.

Lemma refs_ok_register {A} (x : A) id l (h : gmap loc A) m :
  h !! l = Some x → (∀ id', m !! id' ≠ Some l) →
  refs_ok h m → refs_ok h (<[id := l]> m).
Proof.
  intros Hx Hnew [Hal Hinj]. split.
  - intros id' l'. destruct (decide (id = id')) as [<-|Hne].
    + rewrite lookup_insert_eq. intros [= <-]. by eexists.
    + rewrite lookup_insert_ne by done. apply Hal.
  - intros id1 id2 l'.
    destruct (decide (id = id1)) as [<-|Hn1];
      destruct (decide (id = id2)) as [<-|Hn2]; try done.
    + rewrite lookup_insert_eq, lookup_insert_ne by done.
      intros [= <-] Hl. by destruct (Hnew id2).
    + rewrite lookup_insert_eq, lookup_insert_ne by done.
      intros Hl [= <-]. by destruct (Hnew id1).
    + rewrite !lookup_insert_ne by done. apply Hinj.
Qed.

Lemma exists_insert_fresh id l m (l' : loc) :
  m !! id = None →
  (∃ id', <[id := l]> m !! id' = Some l') ↔
  l' = l ∨ ∃ id', m !! id' = Some l'.
Proof.
  intros Hid. split.
  - intros [id' H]. destruct (decide (id = id')) as [<-|Hne].
    + rewrite lookup_insert_eq in H. left. congruence.
    + rewrite lookup_insert_ne in H by done. eauto.
  - intros [->|[id' H]].
    + exists id. apply lookup_insert_eq.
    + exists id'. rewrite lookup_insert_ne; [done|]. congruence.
Qed.

Lemma children_add_new l sc : l ∉ sc → children_add l sc = (sc ++ [l])%list.
Proof. intros Hn. unfold children_add. by rewrite children_remove_notin. Qed.

Lemma shape_ok_register_light id l o h sc sl so :
  h !! l = Some o → kind o = KLight → l ∉ sc → sl !! id = None →
  shape_ok h sc sl so →
  shape_ok h (children_add l sc) (<[id := l]> sl) so.
Proof.
  intros Ho Hk Hn Hid [? ? ? ? Hnd Hsc].
  assert (∀ id', sl !! id' ≠ Some l) as Hnew.
  { intros id' H. apply Hn, Hsc. eauto. }
  rewrite children_add_new by done. split; try done.
  - by eapply refs_ok_register.
  - by eapply all_kind_insert.
  - apply NoDup_app. split_and!; [done| |apply NoDup_singleton].
    intros x Hx ->%list_elem_of_singleton. done.
  - intros l'. rewrite elem_of_app, list_elem_of_singleton, Hsc.
    rewrite exists_insert_fresh by done. tauto.
Qed.

Lemma shape_ok_register_object id l o h sc sl so :
  h !! l = Some o → is_entity (kind o) → l ∉ sc → so !! id = None →
  shape_ok h sc sl so →
  shape_ok h (children_add l sc) sl (<[id := l]> so).
Proof.
  intros Ho Hk Hn Hid [? ? ? ? Hnd Hsc].
  assert (∀ id', so !! id' ≠ Some l) as Hnew.
  { intros id' H. apply Hn, Hsc. eauto. }
  rewrite children_add_new by done. split; try done.
  - by eapply refs_ok_register.
  - by eapply all_kind_insert.
  - apply NoDup_app. split_and!; [done| |apply NoDup_singleton].
    intros x Hx ->%list_elem_of_singleton. done.
  - intros l'. rewrite elem_of_app, list_elem_of_singleton, Hsc.
    rewrite exists_insert_fresh by done. tauto.
Qed.

Lemma elem_of_children_remove l l' sc :
  NoDup sc → l' ∈ children_remove l sc ↔ l' ∈ sc ∧ l' ≠ l.
Proof.
  induction sc as [|c sc IH]; simpl; intros Hnd.
  - split; [by intros ?%elem_of_nil|by intros [?%elem_of_nil _]].
  - apply NoDup_cons in Hnd as [Hc Hnd]. case_decide as Hcl.
    + subst c. rewrite elem_of_cons. split; [|by intros [[?|?] ?]].
      intros Hin. split; [by right|]. by intros ->.
    + rewrite !elem_of_cons, IH by done. split.
      * intros [->|[? ?]]; auto.
      * intros [[->|?] ?]; auto.
Qed.

Lemma NoDup_children_remove l sc : NoDup sc → NoDup (children_remove l sc).
Proof.
  induction sc as [|c sc IH]; simpl; intros Hnd; [done|].
  apply NoDup_cons in Hnd as [Hc Hnd]. case_decide; [done|].
  apply NoDup_cons. split; [|by apply IH].
  rewrite elem_of_children_remove by done. by intros [? _].
Qed.

Lemma exists_delete id l m (l' : loc) :
  m !! id = Some l →
  (∀ id1 id2 x, m !! id1 = Some x → m !! id2 = Some x → id1 = id2) →
  (∃ id', delete id m !! id' = Some l') ↔
  (∃ id', m !! id' = Some l') ∧ l' ≠ l.
Proof.
  intros Hid Hinj. split.
  - intros [id' [Hne H]%lookup_delete_Some]. split; [by eauto|].
    intros ->. by apply Hne, (Hinj _ _ l).
  - intros [[id' H] Hne]. exists id'. apply lookup_delete_Some.
    split; [|done]. intros <-. congruence.
Qed.

Lemma shape_ok_remove_light id l h sc sl so :
  sl !! id = Some l →
  shape_ok h sc sl so →
  shape_ok h (children_remove l sc) (delete id sl) so.
Proof.
  intros Hid [[? Hinj] ? Hkl Hko Hnd Hsc]. split; try done.
  - by apply refs_ok_delete.
  - by apply all_kind_delete.
  - by apply NoDup_children_remove.
  - destruct (Hkl _ _ Hid) as (o & Ho & Hk).
    intros l'. rewrite elem_of_children_remove, Hsc by done.
    rewrite (exists_delete id l) by done. split; [tauto|].
    intros [Hs|[[? ?]|Hobj]]; [|tauto|].
    + split; [by left|]. intros ->. destruct Hs as (o' & Ho' & Hk').
      congruence.
    + split; [by auto|]. intros ->. destruct Hobj as [id' Hid'].
      destruct (Hko _ _ Hid') as (o' & Ho' & [Hk' _]). congruence.
Qed.

Lemma shape_ok_remove_object id l h sc sl so :
  so !! id = Some l →
  shape_ok h sc sl so →
  shape_ok h (children_remove l sc) sl (delete id so).
Proof.
  intros Hid [? [? Hinj] Hkl Hko Hnd Hsc]. split; try done.
  - by apply refs_ok_delete.
  - by apply all_kind_delete.
  - by apply NoDup_children_remove.
  - destruct (Hko _ _ Hid) as (o & Ho & [Hk1 Hk2]).
    intros l'. rewrite elem_of_children_remove, Hsc by done.
    rewrite (exists_delete id l) by done. split; [tauto|].
    intros [Hs|[Hlight|[? ?]]]; [| |tauto].
    + split; [by left|]. intros ->. destruct Hs as (o' & Ho' & Hk').
      congruence.
    + split; [by auto|]. intros ->. destruct Hlight as [id' Hid'].
      destruct (Hkl _ _ Hid') as (o' & Ho' & Hk'). congruence.
Qed.

End Shape.

Section Fresh.

Context (lc : gmap string loc) (count : LightType → N)
  (sl oc : gmap string loc) (objects models : N) (so : gmap string loc)
  (helper : string → Prop) (pending : list (string * string))
  (Hok : keys_ok lc count sl oc objects models so helper pending).

Lemma reg_light_fresh type :
  sl !! LightController.light_id type (count type + 1)%N = None.
Proof.
  pose proof (light_key_fresh _ _ _ _ _ _ _ _ _ type Hok) as Hf.
  destruct Hok as [_ Hrl _ _ _ _ _].
  apply eq_None_not_Some. rewrite Hrl, Hf. intros [H|[? [=]]].
  by apply light_id_not_default in H.
Qed.

Lemma reg_helper_fresh type :
  so !! (LightController.light_id type (count type + 1)%N +:+ "_helper")
  = None.
Proof.
  pose proof (light_key_fresh _ _ _ _ _ _ _ _ _ type Hok) as Hf.
  destruct Hok as [_ _ Hh Ho Hro _ _].
  apply eq_None_not_Some. rewrite Hro. intros [H|[H|(id & Hid & Heq)]].
  - by apply helper_not_default in H.
  - apply (helper_not_object_id type (count type + 1)%N).
    destruct (Ho _ H) as [(t' & g & n' & Hg & Heq & _)|(n' & Heq & _)].
    + left. by exists t', g, n'.
    + right. by exists (number_text n').
  - apply helper_id_inj in Heq as <-. apply Hh in Hid.
    rewrite Hf in Hid. by destruct Hid.
Qed.

Lemma tracked_object_id id : is_Some (oc !! id) → is_object_id id.
Proof.
  destruct Hok as [_ _ _ Ho _ _ _]. intros H.
  destruct (Ho _ H) as [(t' & g & n' & Hg & Heq & _)|(n' & Heq & _)].
  - left. by exists t', g, n'.
  - right. by exists (number_text n').
Qed.

Lemma helper_key_not_tracked id : helper id → oc !! (id +:+ "_helper") = None.
Proof.
  intros Hid. pose proof Hok as [Hl _ Hh _ _ _ _].
  destruct (Hl _ (Hh _ Hid)) as (t & n & -> & _).
  apply eq_None_not_Some. intros H%tracked_object_id.
  by apply helper_not_object_id in H.
Qed.

Lemma reg_object_fresh id :
  is_object_id id → oc !! id = None → so !! id = None.
Proof.
  intros Hobj Hnone. pose proof Hok as [Hl _ Hh _ Hro _ _].
  apply eq_None_not_Some. rewrite Hro, Hnone.
  intros [H|[[? [=]]|(i & Hi & ->)]].
  - by apply object_id_not_default in Hobj.
  - destruct (Hl _ (Hh _ Hi)) as (t & n & -> & _).
    by apply helper_not_object_id in Hobj.
Qed.

End Fresh.

Lemma supported_type type :
  type ∈ objectTypes → ∃ g, ObjectController.geometry_of type = Some g.
Proof.
  unfold objectTypes, ObjectController.geometry_of. intros He.
  repeat (apply elem_of_cons in He as [->|He]); simpl; eauto.
  by apply elem_of_nil in He.
Qed.

Lemma shape_inv_frame w w' :
  sceneManager w' = sceneManager w →
  lightController w' = lightController w →
  objectController w' = objectController w →
  heap_related same_kind (heap3D w) (heap3D w') →
  heap_related same_origin_light (heapLD w) (heapLD w') →
  heap_related same_origin_object (heapOD w) (heapOD w') →
  shape_inv w → shape_inv w'.
Proof.
  intros Hsm Hlc Hoc H3 HL HO (Hs & Hl & Ho). unfold shape_inv.
  rewrite Hsm, Hlc, Hoc. split_and!.
  - by eapply shape_ok_related.
  - by eapply refs_ok_related.
  - by eapply refs_ok_related.
Qed.

Lemma shape_inv_addLight type w :
  keys_inv w → shape_inv w → shape_inv (LightController.addLight type w).
Proof.
  intros Hkeys (Hs & Hl & Ho).
  pose proof (reg_light_fresh _ _ _ _ _ _ _ _ _ Hkeys type) as Hfl.
  pose proof (reg_helper_fresh _ _ _ _ _ _ _ _ _ Hkeys type) as Hfh.
  destruct (addLight_effect type w)
    as (light & d & Hkl & Hid & _ & HLD & HOD & Hsl & Hlc & _ & _ & Hoc & _
        & Hhelper).
  unfold shape_inv. rewrite Hsl, HLD, HOD, Hlc, Hoc.
  split_and!; [|by apply refs_ok_insert|done].
  destruct (shape_fresh _ _ _ _ Hs) as (HLsc & _ & _).
  assert (kind light ≠ KStatic) as Hns by (by rewrite Hkl).
  pose proof (shape_ok_alloc light _ _ _ _ Hns Hs) as Hs1.
  destruct (ld_helper d) as [H|].
  - destruct Hhelper as (_ & -> & helper & Hkh & -> & -> & ->).
    destruct (shape_fresh _ _ _ _ Hs1) as (HHsc & _ & _).
    assert (kind helper ≠ KStatic) as Hnsh by (by rewrite Hkh).
    pose proof (shape_ok_alloc helper _ _ _ _ Hnsh Hs1) as Hs2.
    set (L := fresh (dom (heap3D w))) in *.
    set (H := fresh (dom (<[L := light]> (heap3D w)))) in *.
    assert (H ≠ L) as Hne.
    { intros Heq.
      pose proof (fresh_heap_None (<[L := light]> (heap3D w))) as Hf.
      fold H in Hf. rewrite Heq, lookup_insert_eq in Hf. done. }
    eapply shape_ok_register_light; [|exact Hkl| |exact Hfl|].
    + rewrite lookup_insert_ne by done. apply lookup_insert_eq.
    + rewrite children_add_new by done.
      rewrite elem_of_app, list_elem_of_singleton. intros [?|?]; auto.
    + eapply shape_ok_register_object;
        [apply lookup_insert_eq| |exact HHsc|exact Hfh|exact Hs2].
      rewrite Hkh. by split.
  - destruct Hhelper as (_ & -> & -> & ->).
    eapply shape_ok_register_light;
      [apply lookup_insert_eq|exact Hkl|exact HLsc|exact Hfl|exact Hs1].
Qed.

Lemma shape_inv_removeLight id w :
  shape_inv w → shape_inv (LightController.removeLight id w).
Proof.
  intros (Hs & Hl & Ho).
  destruct (lc_lights (lightController w) !! id) as [r|] eqn:Hr; last first.
  { unfold LightController.removeLight. by rewrite Hr. }
  destruct (removeLight_effect id r w Hr)
    as (H3 & HLD & HOD & Hsl & Hso & Hsc & Hlc & _ & _ & Hoc & _).
  unfold shape_inv. rewrite H3, HLD, HOD, Hsl, Hso, Hsc, Hlc, Hoc.
  split_and!; [|by apply refs_ok_delete|done].
  assert (shape_ok (heap3D w)
            (match heapLD w !! r ≫= ld_helper,
                   sm_objects (sceneManager w) !! (id +:+ "_helper") with
             | Some _, Some h => children_remove h
             | _, _ => λ s, s
             end (scene (sceneManager w)))
            (sm_lights (sceneManager w))
            (match heapLD w !! r ≫= ld_helper with
             | Some _ => delete (id +:+ "_helper") (sm_objects (sceneManager w))
             | None => sm_objects (sceneManager w)
             end)) as Hs1.
  { destruct (heapLD w !! r ≫= ld_helper); [|done].
    destruct (sm_objects (sceneManager w) !! (id +:+ "_helper")) eqn:Hh.
    - by apply shape_ok_remove_object.
    - by rewrite delete_id. }
  destruct (sm_lights (sceneManager w) !! id) eqn:Hlight.
  - by apply shape_ok_remove_light.
  - by rewrite delete_id.
Qed.

Lemma shape_inv_new_object id o w :
  is_entity (kind o) →
  sm_objects (sceneManager w) !! id = None →
  shape_ok (heap3D w) (scene (sceneManager w))
           (sm_lights (sceneManager w)) (sm_objects (sceneManager w)) →
  shape_ok (<[fresh (dom (heap3D w)) := o]> (heap3D w))
           (children_add (fresh (dom (heap3D w))) (scene (sceneManager w)))
           (sm_lights (sceneManager w))
           (<[id := fresh (dom (heap3D w))]> (sm_objects (sceneManager w))).
Proof.
  intros Hk Hf Hs. destruct (shape_fresh _ _ _ _ Hs) as (Hsc & _ & _).
  eapply shape_ok_register_object;
    [apply lookup_insert_eq|exact Hk|exact Hsc|exact Hf|].
  apply shape_ok_alloc; [by destruct Hk|done].
Qed.

Lemma shape_inv_step e w :
  keys_inv w → shape_inv w → enabled e w → shape_inv (handle e w).
Proof.
  intros Hkeys Hinv He.
  destruct (is_edit e) eqn:Hedit.
  { destruct (edit_frame e w Hedit) as (? & ? & ? & ? & ? & ? & ?).
    by apply (shape_inv_frame w). }
  destruct e; try discriminate; clear Hedit.
  - by apply shape_inv_addLight.
  - simpl. unfold on_light. case_match; [|done]. by apply shape_inv_removeLight.
  - simpl in He. destruct (supported_type _ He) as [g Hg].
    destruct (addObject_effect type g rnd_x rnd_z w Hg)
      as (mesh & d & Hk & _ & _ & _ & _ & H3 & HOD & HLD & Hsc & Hsl & Hso
          & Ho & _ & _ & _ & Hl & _).
    destruct Hinv as (Hs & Hlr & Hor).
    unfold shape_inv. simpl handle.
    rewrite H3, HOD, HLD, Hsc, Hsl, Hso, Ho, Hl.
    split_and!; [|done|by apply refs_ok_insert].
    apply shape_inv_new_object; [by rewrite Hk| |done].
    eapply reg_object_fresh; [exact Hkeys|by left; eexists _, _, _|].
    by eapply object_key_fresh.
  - simpl. unfold on_object. case_match; [|done].
    destruct (oc_objects (objectController w) !! od_id o) as [r|] eqn:Hr;
      last first.
    { unfold ObjectController.removeObject. by rewrite Hr. }
    destruct (removeObject_effect (od_id o) r w Hr)
      as (H3 & HLD & HOD & Hsl & Hso & Hsc & Ho & _ & _ & _ & Hl & _).
    destruct Hinv as (Hs & Hlr & Hor).
    unfold shape_inv. rewrite H3, HOD, HLD, Hsc, Hsl, Hso, Ho, Hl.
    split_and!; [|done|by apply refs_ok_delete].
    destruct (sm_objects (sceneManager w) !! od_id o) eqn:Hobj.
    + by apply shape_ok_remove_object.
    + by rewrite delete_id.
  - destruct (handleModelUpload_effect w)
      as (H3 & HLD & HOD & Hsm & Hl & Ho & _).
    unfold shape_inv. simpl handle. by rewrite H3, HLD, HOD, Hsm, Hl, Ho.
  - destruct (modelLoaded_effect id objectURL center size w)
      as (model & d & Hk & _ & _ & _ & _ & H3 & HOD & HLD & Hsc & Hsl & Hso
          & Ho & _ & _ & _ & Hl & _).
    destruct Hinv as (Hs & Hlr & Hor).
    unfold shape_inv. rewrite H3, HOD, HLD, Hsc, Hsl, Hso, Ho, Hl.
    split_and!; [|done|by apply refs_ok_insert].
    apply shape_inv_new_object; [by rewrite Hk| |done].
    simpl in He. destruct (keys_pending _ _ _ _ _ _ _ _ _ Hkeys _ _ He)
      as [(n & -> & _) Hnone].
    eapply reg_object_fresh; [exact Hkeys| |done].
    right. by exists (number_text n).
  - destruct (modelFailed_effect id objectURL w)
      as (H3 & HLD & HOD & Hsm & Hl & Ho & _).
    unfold shape_inv. by rewrite H3, HLD, HOD, Hsm, Hl, Ho.
Qed.

Ltac split_lookups :=
  repeat match goal with
         | H : <[_ := _]> _ !! _ = Some _ |- _ =>
             apply lookup_insert_Some in H as [[? ?]|[? H]]
         | H : ∅ !! _ = Some _ |- _ =>
             by rewrite lookup_empty in H
         end; simplify_eq.

Lemma shape_inv_init : shape_inv App.init.
Proof.
  unfold shape_inv. split_and!; [|apply refs_ok_empty..].
  assert (NoDup [1%positive; 2%positive; 3%positive; 4%positive; 5%positive])
    as Hnd.
  { repeat (apply NoDup_cons; split;
            [rewrite ?elem_of_cons, elem_of_nil; intros H;
             repeat destruct H as [H|H]; done|]).
    apply NoDup_nil_2. }
  change (sm_lights (sceneManager App.init))
    with (<["ambient_default" := 3%positive]> (∅ : gmap string loc)).
  change (sm_objects (sceneManager App.init))
    with (<["plane_default" := 5%positive]>
            (<["box_default" := 4%positive]> (∅ : gmap string loc))).
  change (scene (sceneManager App.init))
    with [1%positive; 2%positive; 3%positive; 4%positive; 5%positive].
  change (heap3D App.init)
    with (<[5%positive := with_receiveShadow true
              (with_rotation (mkEuler (- Math_PI / 2) 0 0)
                 (new3D (Mesh (PlaneGeometry 20 20)
                    (mkMaterial (ColorHex 0xaaaaaa) 0.8 0.2 true))))]>
          (<[4%positive := with_position (mkVector3 0 0.5 0)
               (with_receiveShadow true (with_castShadow true
                  (new3D (Mesh (BoxGeometry 1 1 1)
                     (mkMaterial (ColorHex 0x888888) 0.5 0.5 false)))))]>
          (<[3%positive := new3D (AmbientLight (ColorHex 0x404040) 0.5)]>
          (<[2%positive := new3D (AxesHelper 5)]>
          (<[1%positive := new3D (GridHelper 20 20)]>
             (∅ : gmap loc Object3D)))))).
  split.
  - split.
    + intros id l H. split_lookups. by eexists.
    + intros id1 id2 l H1 H2. by split_lookups.
  - split.
    + intros id l H. split_lookups; by eexists.
    + intros id1 id2 l H1 H2. by split_lookups.
  - intros id l H. split_lookups. by eexists.
  - intros id l H. split_lookups; (eexists; split; [done|by split]).
  - exact Hnd.
  - intros l. rewrite !elem_of_cons, elem_of_nil. split.
    + intros [->|[->|[->|[->|[->|[]]]]]].
      * left. by eexists.
      * left. by eexists.
      * right; left. exists "ambient_default". apply lookup_insert_eq.
      * right; right. exists "box_default".
        rewrite lookup_insert_ne by done. apply lookup_insert_eq.
      * right; right. exists "plane_default". apply lookup_insert_eq.
    + intros [(o & Ho & Hk)|[[id Hid]|[id Hid]]]; split_lookups; auto 7;
        done.
Qed.

Lemma reachable_shape_inv w : reachable w → shape_inv w.
Proof.
  induction 1 as [|w e Hw IH He]; [apply shape_inv_init|].
  apply shape_inv_step; [by apply reachable_keys_inv|done..].
Qed.

(** ** Records and live entities *)

Section Linked.

Context {A : Type} (R : string → A → Object3D → Prop).

Implicit Types (hA : gmap loc A) (hE : gmap loc Object3D)
  (m sm : gmap string loc).

Lemma linked_allocE x hA m hE sm :
  linked R hA m hE sm → linked R hA m (<[fresh (dom hE) := x]> hE) sm.
Proof.
  intros Hl id r d Hr Hd. destruct (Hl id r d Hr Hd) as (l & o & ? & Ho & ?).
  exists l, o. split_and!; [done| |done]. rewrite lookup_insert_ne; [done|].
  intros <-. by rewrite fresh_heap_None in Ho.
Qed.

Lemma linked_allocA x hA m hE sm :
  refs_ok hA m →
  linked R hA m hE sm → linked R (<[fresh (dom hA) := x]> hA) m hE sm.
Proof.
  intros [Hal _] Hl id r d Hr Hd. destruct (Hal id r Hr) as [d' Hd'].
  rewrite lookup_insert_ne in Hd; [by eauto|].
  intros <-. by rewrite fresh_heap_None in Hd'.
Qed.

Lemma linked_register id r l d o hA m hE sm :
  hA !! r = Some d → hE !! l = Some o → R id d o →
  (∀ id', m !! id' ≠ Some r) →
  linked R hA m hE sm →
  linked R hA (<[id := r]> m) hE (<[id := l]> sm).
Proof.
  intros Hd Ho HR Hnew Hl id' r' d'.
  destruct (decide (id = id')) as [<-|Hne].
  - rewrite lookup_insert_eq. intros [= <-] Hd'.
    assert (d' = d) as -> by congruence. exists l, o.
    by rewrite lookup_insert_eq.
  - rewrite lookup_insert_ne by done. intros Hr Hd'.
    destruct (Hl id' r' d' Hr Hd') as (l' & o' & ? & ? & ?).
    exists l', o'. by rewrite lookup_insert_ne.
Qed.

Lemma linked_insert_other k l hA m hE sm :
  m !! k = None →
  linked R hA m hE sm → linked R hA m hE (<[k := l]> sm).
Proof.
  intros Hk Hl id r d Hr Hd.
  destruct (Hl id r d Hr Hd) as (l' & o' & ? & ? & ?).
  exists l', o'. rewrite lookup_insert_ne; [done|]. congruence.
Qed.

Lemma linked_delete id hA m hE sm :
  linked R hA m hE sm → linked R hA (delete id m) hE (delete id sm).
Proof.
  intros Hl id' r d [Hne Hr]%lookup_delete_Some Hd.
  destruct (Hl id' r d Hr Hd) as (l' & o' & ? & ? & ?).
  exists l', o'. by rewrite lookup_delete_ne.
Qed.

Lemma linked_delete_other k hA m hE sm :
  m !! k = None →
  linked R hA m hE sm → linked R hA m hE (delete k sm).
Proof.
  intros Hk Hl id r d Hr Hd.
  destruct (Hl id r d Hr Hd) as (l' & o' & ? & ? & ?).
  exists l', o'. rewrite lookup_delete_ne; [done|]. congruence.
Qed.

Lemma linked_alterE f l0 hA m hE sm :
  (∀ id r d o, m !! id = Some r → hA !! r = Some d → sm !! id = Some l0 →
               hE !! l0 = Some o → R id d o → R id d (f o)) →
  linked R hA m hE sm → linked R hA m (alter f l0 hE) sm.
Proof.
  intros Hf Hl id r d Hr Hd.
  destruct (Hl id r d Hr Hd) as (l & o & Hsm & Ho & HR).
  destruct (decide (l = l0)) as [->|Hne].
  - exists l0, (f o). rewrite lookup_alter_eq, Ho. eauto.
  - exists l, o. by rewrite lookup_alter_ne.
Qed.

Lemma linked_edit f g id0 l0 r0 hA m hE sm :
  m !! id0 = Some r0 → sm !! id0 = Some l0 →
  refs_ok hA m → refs_ok hE sm →
  (∀ d o, hA !! r0 = Some d → hE !! l0 = Some o →
          R id0 d o → R id0 (g d) (f o)) →
  linked R hA m hE sm →
  linked R (alter g r0 hA) m (alter f l0 hE) sm.
Proof.
  intros Hr0 Hl0 [_ HinjA] [_ HinjE] Hfg Hl id r d Hr Hd.
  destruct (decide (id = id0)) as [->|Hne].
  - assert (r = r0) as -> by congruence.
    rewrite lookup_alter_eq in Hd.
    destruct (hA !! r0) as [d0|] eqn:Hd0; simplify_eq/=.
    destruct (Hl id0 r0 d0 Hr0 Hd0) as (l & o & Hsm & Ho & HR).
    assert (l = l0) as -> by congruence.
    exists l0, (f o). rewrite lookup_alter_eq, Ho. auto.
  - assert (r ≠ r0) as Hnr.
    { intros ->. by apply Hne, (HinjA _ _ r0). }
    rewrite lookup_alter_ne in Hd by done.
    destruct (Hl id r d Hr Hd) as (l & o & Hsm & Ho & HR).
    assert (l ≠ l0) as Hnl.
    { intros ->. by apply Hne, (HinjE _ _ l0). }
    exists l, o. by rewrite lookup_alter_ne.
Qed.

Lemma linked_related P hA hA' m hE sm :
  heap_related P hA hA' →
  (∀ id d d' o, P d d' → R id d o → R id d' o) →
  linked R hA m hE sm → linked R hA' m hE sm.
Proof.
  intros Hrel HP Hl id r d' Hr Hd'. specialize (Hrel r).
  rewrite Hd' in Hrel. inversion Hrel as [d ? HPd Heq|]; subst.
  symmetry in Heq. destruct (Hl id r d Hr Heq) as (l & o & ? & ? & ?).
  exists l, o. eauto.
Qed.

End Linked.

Lemma light_agrees_kind id d o : light_agrees id d o → kind o = KLight.
Proof.
  intros [_ _ Hc _ _ _ _ _]. unfold instance_of, kind in *.
  by destruct (ld_type d), (o_class o).
Qed.

Lemma object_agrees_kind id d o :
  object_agrees id d o → kind o = KMesh ∨ kind o = KGroup.
Proof.
  intros [_ _ Hp Hi]. unfold kind.
  destruct (decide (od_isCustomModel d = Some true)) as [Hc|Hc].
  - destruct (Hi Hc) as (-> & _). by right.
  - destruct (Hp Hc) as (g & n & mat & _ & _ & -> & _). by left.
Qed.

Lemma helper_refresh_other h o :
  kind o ≠ KLightHelper → helper_refresh h o = o.
Proof. unfold kind, helper_refresh. by destruct (o_class o). Qed.

Lemma registered_apart h sc sl so id id' l :
  shape_ok h sc sl so → sl !! id = Some l → so !! id' = Some l → False.
Proof.
  intros [_ _ Hkl Hko _ _] Hl Ho.
  destruct (Hkl _ _ Hl) as (o & Hlo & Hk).
  destruct (Hko _ _ Ho) as (o' & Hlo' & [Hk' _]). congruence.
Qed.

(** What [addLight] builds agrees with the record it stores. *)
Lemma addLight_agrees type w :
  let w' := LightController.addLight type w in
  let id := LightController.light_id type (LightController.next_count type w) in
  ∃ light d,
    heap3D w' !! fresh (dom (heap3D w)) = Some light ∧
    heapLD w' !! fresh (dom (heapLD w)) = Some d ∧
    light_agrees id d light.
Proof.
  simpl.
  assert (∀ (o o' : Object3D),
            <[fresh (dom (<[fresh (dom (heap3D w)) := o]> (heap3D w))) := o']>
              (<[fresh (dom (heap3D w)) := o]> (heap3D w))
              !! fresh (dom (heap3D w)) = Some o) as Hlook.
  { intros o o'. apply lookup_alloc_later, lookup_insert_eq. }
  destruct type; simpl; eexists _, _; rewrite ?Hlook;
    (split_and!; [first [apply lookup_insert_eq | reflexivity]
                 |apply lookup_insert_eq|]);
    (split; simpl; try done; try (by eexists);
     try (eexists; split; [reflexivity|by left]);
     try (split; [by intros [? ?]|done]);
     try (split; [done|by intros _; eexists])).
Qed.

Lemma addObject_agrees type g rnd_x rnd_z w :
  ObjectController.geometry_of type = Some g →
  let w' := final (ObjectController.addObject type rnd_x rnd_z w) in
  let id :=
    ObjectController.object_id type
      (objectCounter (objectController w) + 1)%N in
  ∃ mesh d,
    heap3D w' !! fresh (dom (heap3D w)) = Some mesh ∧
    heapOD w' !! fresh (dom (heapOD w)) = Some d ∧
    object_agrees id d mesh.
Proof.
  intros Hg. unfold ObjectController.addObject. rewrite Hg. simpl.
  eexists _, _. split_and!; [apply lookup_insert_eq..|].
  split; simpl; try done.
  intros _. eexists g, _, _. split_and!; try reflexivity; try done.
  by left.
Qed.

Lemma modelLoaded_agrees n url center size w :
  let id := ObjectController.model_id n in
  let w' := handle (ModelLoaded id url center size) w in
  ∃ model d,
    heap3D w' !! fresh (dom (heap3D w)) = Some model ∧
    heapOD w' !! fresh (dom (heapOD w)) = Some d ∧
    object_agrees id d model.
Proof.
  simpl. unfold ObjectController.onLoad. simpl.
  eexists _, _. split_and!; [apply lookup_insert_eq..|].
  split; simpl; try done.
  - by case_match.
  - intros _. split_and!; [by case_match|done|by eexists].
Qed.

Section LinkSteps.

Implicit Types (w : World) (id : string).

(** Preservation of the two relations by the field updates. *)
Lemma instance_of_set_light_color t c o :
  instance_of t (set_light_color c o) = instance_of t o.
Proof. destruct o as [[] ? ? ? ? ?], t; reflexivity. Qed.

Lemma instance_of_set_light_intensity t v o :
  instance_of t (set_light_intensity v o) = instance_of t o.
Proof. destruct o as [[] ? ? ? ? ?], t; reflexivity. Qed.

Lemma intensity_set_light_color c o :
  light_intensity (set_light_color c o) = light_intensity o.
Proof. destruct o as [[] ? ? ? ? ?]; reflexivity. Qed.

Lemma color_set_light_intensity v o :
  light_color (set_light_intensity v o) = light_color o.
Proof. destruct o as [[] ? ? ? ? ?]; reflexivity. Qed.

Lemma color_set_light_color c o :
  is_Some (light_color o) → light_color (set_light_color c o) = Some c.
Proof. destruct o as [[] ? ? ? ? ?]; intros [? ?]; done. Qed.

Lemma intensity_set_light_intensity v o :
  is_Some (light_intensity o) →
  light_intensity (set_light_intensity v o) = Some v.
Proof. destruct o as [[] ? ? ? ? ?]; intros [? ?]; done. Qed.

Lemma light_agrees_color id c d o :
  light_agrees id d o →
  light_agrees id (ld_with_color c d) (set_light_color (ColorStyle c) o).
Proof.
  intros [? ? Hc Hi [c0 [Hc0 _]] ? ? ?]. split; simpl; try done.
  - by rewrite instance_of_set_light_color.
  - by rewrite intensity_set_light_color.
  - eexists. split; [by apply color_set_light_color|by right].
  - by destruct o as [[] ? ? ? ? ?].
  - by destruct o as [[] ? ? ? ? ?].
Qed.

Lemma light_agrees_intensity id v d o :
  light_agrees id d o →
  light_agrees id (ld_with_intensity v d) (set_light_intensity v o).
Proof.
  intros [? ? Hc Hi Hcol ? ? ?]. split; simpl; try done.
  - by rewrite instance_of_set_light_intensity.
  - by apply intensity_set_light_intensity.
  - by rewrite color_set_light_intensity.
  - by destruct o as [[] ? ? ? ? ?].
  - by destruct o as [[] ? ? ? ? ?].
Qed.

Lemma light_agrees_position id p d o :
  light_agrees id d o →
  light_agrees id (ld_with_position (Some p) d) (with_position p o).
Proof. intros [? ? ? ? ? ? ? ?]. split; simpl; done. Qed.

Lemma light_agrees_castShadow id b d o :
  light_agrees id d o →
  light_agrees id (ld_with_castShadow (Some b) d) (with_castShadow b o).
Proof. intros [? ? ? ? ? ? ? ?]. split; simpl; done. Qed.

Lemma light_agrees_refresh id h d o :
  light_agrees id d o → light_agrees id d (helper_refresh h o).
Proof.
  intros Ha. rewrite helper_refresh_other; [done|].
  by rewrite (light_agrees_kind _ _ _ Ha).
Qed.

Lemma light_agrees_material id f d o :
  light_agrees id d o → light_agrees id d (set_material f o).
Proof.
  intros Ha. pose proof (light_agrees_kind _ _ _ Ha) as Hk.
  unfold set_material, kind in *. by destruct (o_class o).
Qed.

Lemma light_agrees_rotation id r d o :
  light_agrees id d o → light_agrees id d (with_rotation r o).
Proof. intros [? ? ? ? ? ? ? ?]. split; simpl; done. Qed.

Lemma light_agrees_scale id s d o :
  light_agrees id d o → light_agrees id d (with_scale s o).
Proof. intros [? ? ? ? ? ? ? ?]. split; simpl; done. Qed.

Lemma object_agrees_refresh id h d o :
  object_agrees id d o → object_agrees id d (helper_refresh h o).
Proof.
  intros Ha. rewrite helper_refresh_other; [done|].
  by destruct (object_agrees_kind _ _ _ Ha) as [-> | ->].
Qed.

Lemma object_agrees_light_color id c d o :
  object_agrees id d o → object_agrees id d (set_light_color c o).
Proof.
  intros Ha. pose proof (object_agrees_kind _ _ _ Ha) as Hk.
  unfold set_light_color, kind in *. by destruct (o_class o), Hk.
Qed.

Lemma object_agrees_light_intensity id v d o :
  object_agrees id d o → object_agrees id d (set_light_intensity v o).
Proof.
  intros Ha. pose proof (object_agrees_kind _ _ _ Ha) as Hk.
  unfold set_light_intensity, kind in *. by destruct (o_class o), Hk.
Qed.

Lemma object_agrees_position id p d o :
  object_agrees id d o →
  object_agrees id (od_with_position p d) (with_position p o).
Proof.
  intros [? ? Hp Hi]. split; simpl; try done.
  intros Hc.
  destruct (Hp Hc) as (g & n & mat & ? & ? & ? & ? & ? & ? & ? & ? & ? & ?).
  by exists g, n, mat.
Qed.

Lemma object_agrees_rotation id r d o :
  object_agrees id d o →
  object_agrees id (od_with_rotation r d) (with_rotation r o).
Proof.
  intros [? ? Hp Hi]. split; simpl; try done.
Qed.

Lemma object_agrees_scale id s d o :
  object_agrees id d o →
  object_agrees id (od_with_scale s d) (with_scale s o).
Proof.
  intros [? ? Hp Hi]. split; simpl; try done.
  intros Hc.
  destruct (Hp Hc) as (g & n & mat & ? & ? & ? & ? & ? & ? & ? & ? & ? & ?).
  by exists g, n, mat.
Qed.

Lemma object_agrees_color id c d o :
  object_agrees id d o →
  object_agrees id (od_with_color c d)
    (set_material (mat_with_color (ColorStyle c)) o).
Proof.
  intros [? ? Hp Hi]. unfold set_material. split; simpl.
  - done.
  - by destruct (o_class o).
  - intros Hc. destruct (Hp Hc)
      as (g & n & mat & ? & ? & Hcl & ? & ? & ? & ? & ? & ? & ?).
    rewrite Hcl. simpl. eexists g, n, _. split_and!; try done. by right.
  - intros Hc. destruct (Hi Hc) as (Hcl & ? & ?). by rewrite Hcl.
Qed.

Lemma object_agrees_roughness id x d o :
  object_agrees id d o →
  object_agrees id (od_with_roughness x d)
    (set_material (mat_with_roughness x) o).
Proof.
  intros [? ? Hp Hi]. unfold set_material. split; simpl.
  - done.
  - by destruct (o_class o).
  - intros Hc. destruct (Hp Hc)
      as (g & n & mat & ? & ? & Hcl & ? & ? & ? & ? & ? & ? & ?).
    rewrite Hcl. simpl. eexists g, n, _. split_and!; done.
  - intros Hc. destruct (Hi Hc) as (Hcl & ? & ?). by rewrite Hcl.
Qed.

Lemma object_agrees_metalness id x d o :
  object_agrees id d o →
  object_agrees id (od_with_metalness x d)
    (set_material (mat_with_metalness x) o).
Proof.
  intros [? ? Hp Hi]. unfold set_material. split; simpl.
  - done.
  - by destruct (o_class o).
  - intros Hc. destruct (Hp Hc)
      as (g & n & mat & ? & ? & Hcl & ? & ? & ? & ? & ? & ? & ?).
    rewrite Hcl. simpl. eexists g, n, _. split_and!; done.
  - intros Hc. destruct (Hi Hc) as (Hcl & ? & ?). by rewrite Hcl.
Qed.

End LinkSteps.

Create HintDb agrees discriminated.

#[local] Hint Resolve light_agrees_color light_agrees_intensity
  light_agrees_position light_agrees_castShadow light_agrees_refresh
  object_agrees_refresh object_agrees_position object_agrees_rotation
  object_agrees_scale object_agrees_color object_agrees_roughness
  object_agrees_metalness : agrees.

(** One update of an exposed edit, from the outermost in. *)
Ltac link_step :=
  first
    [ assumption
    | eapply linked_edit;
        [eassumption|eassumption|assumption|assumption
        |solve [intros; eauto with agrees]|]
    | apply linked_alterE;
        [solve [intros; eauto with agrees
               |intros; exfalso; eapply registered_apart;
                  [eassumption|eassumption|eassumption] ]|] ].

Lemma link_inv_edit e w :
  is_edit e = true → shape_inv w → link_inv w → link_inv (handle e w).
Proof.
  intros Hedit Hshape [Hl Ho]. unfold light_link, object_link in *.
  destruct Hshape as (Hs & ? & ?). pose proof Hs as [? ? _ _ _ _].
  destruct e; try discriminate; clear Hedit; expose;
    unfold SceneManager.getLight, SceneManager.getObject in *;
    repeat case_match; try (by split);
    unfold link_inv, light_link, object_link; simpl; split.
  all: repeat link_step.
Qed.

Lemma helper_key_never_tracked w type n :
  keys_inv w →
  oc_objects (objectController w)
    !! (LightController.light_id type n +:+ "_helper") = None.
Proof.
  intros Hk. apply eq_None_not_Some.
  intros H%(tracked_object_id _ _ _ _ _ _ _ _ _ Hk).
  by apply helper_not_object_id in H.
Qed.

Lemma refs_fresh {A} (h : gmap loc A) m id :
  refs_ok h m → m !! id ≠ Some (fresh (dom h)).
Proof.
  intros [Hal _] H. apply Hal in H. rewrite fresh_heap_None in H.
  by destruct H.
Qed.

Lemma link_inv_addLight type w :
  keys_inv w → shape_inv w → link_inv w →
  link_inv (LightController.addLight type w).
Proof.
  intros Hkeys (Hs & Hlr & Hor) [Hl Ho].
  destruct (addLight_agrees type w) as (light0 & d0 & Hlight & Hd & Hagree).
  destruct (addLight_effect type w)
    as (light & d & _ & _ & _ & HLD & HOD & Hsl & Hlc & _ & _ & Hoc & _
        & Hhelper).
  unfold link_inv, light_link, object_link in *.
  rewrite HOD, Hsl, Hlc, Hoc. split.
  - eapply linked_register; [exact Hd|exact Hlight|exact Hagree| |].
    { intros id'. by apply refs_fresh. }
    rewrite HLD. apply linked_allocA; [done|].
    destruct (ld_helper d).
    + destruct Hhelper as (_ & -> & helper & _ & -> & _).
      by do 2 apply linked_allocE.
    + destruct Hhelper as (_ & -> & _). by apply linked_allocE.
  - destruct (ld_helper d).
    + destruct Hhelper as (_ & -> & helper & _ & -> & -> & _).
      apply linked_insert_other; [by apply helper_key_never_tracked|].
      by do 2 apply linked_allocE.
    + destruct Hhelper as (_ & -> & -> & _). by apply linked_allocE.
Qed.

Lemma link_inv_removeLight id w :
  keys_inv w → link_inv w → link_inv (LightController.removeLight id w).
Proof.
  intros Hkeys [Hl Ho].
  destruct (lc_lights (lightController w) !! id) as [r|] eqn:Hr; last first.
  { unfold LightController.removeLight. by rewrite Hr. }
  destruct (removeLight_effect id r w Hr)
    as (H3 & HLD & HOD & Hsl & Hso & _ & Hlc & _ & _ & Hoc & _).
  unfold link_inv, light_link, object_link in *.
  rewrite H3, HLD, HOD, Hsl, Hso, Hlc, Hoc. split.
  - by apply linked_delete.
  - destruct (heapLD w !! r ≫= ld_helper); [|done].
    apply linked_delete_other; [|done].
    destruct (keys_lights _ _ _ _ _ _ _ _ _ Hkeys id) as (t & n & -> & _);
      [by eexists|].
    by apply helper_key_never_tracked.
Qed.

Lemma link_inv_step e w :
  keys_inv w → shape_inv w → link_inv w → enabled e w →
  link_inv (handle e w).
Proof.
  intros Hkeys Hshape Hinv He.
  destruct (is_edit e) eqn:Hedit; [by apply link_inv_edit|].
  destruct e; try discriminate; clear Hedit.
  - by apply link_inv_addLight.
  - simpl. unfold on_light. case_match; [|done]. by apply link_inv_removeLight.
  - simpl in He. destruct (supported_type _ He) as [g Hg].
    destruct (addObject_agrees type g rnd_x rnd_z w Hg)
      as (mesh0 & d0 & Hmesh & Hd & Hagree).
    destruct (addObject_effect type g rnd_x rnd_z w Hg)
      as (mesh & d & _ & _ & _ & _ & _ & H3 & HOD & HLD & _ & Hsl & Hso
          & Ho & _ & _ & _ & Hl & _).
    destruct Hshape as (Hs & Hlr & Hor). destruct Hinv as [Hll Hol].
    unfold link_inv, light_link, object_link in *. simpl handle.
    rewrite HLD, Hsl, Hso, Ho, Hl. split.
    + rewrite H3. by apply linked_allocE.
    + eapply linked_register; [exact Hd|exact Hmesh|exact Hagree| |].
      { intros id'. by apply refs_fresh. }
      rewrite H3, HOD. apply linked_allocA; [done|]. by apply linked_allocE.
  - simpl. unfold on_object. case_match; [|done].
    destruct (oc_objects (objectController w) !! od_id o) as [r|] eqn:Hr;
      last first.
    { unfold ObjectController.removeObject. by rewrite Hr. }
    destruct (removeObject_effect (od_id o) r w Hr)
      as (H3 & HLD & HOD & Hsl & Hso & _ & Ho & _ & _ & _ & Hl & _).
    destruct Hinv as [Hll Hol].
    unfold link_inv, light_link, object_link in *.
    rewrite H3, HOD, HLD, Hsl, Hso, Ho, Hl. split; [done|].
    by apply linked_delete.
  - destruct (handleModelUpload_effect w)
      as (H3 & HLD & HOD & Hsm & Hl & Ho & _).
    unfold link_inv, light_link, object_link in *. simpl handle.
    by rewrite H3, HLD, HOD, Hsm, Hl, Ho.
  - simpl in He. destruct (keys_pending _ _ _ _ _ _ _ _ _ Hkeys _ _ He)
      as [(n & -> & _) Hnone].
    destruct (modelLoaded_agrees n objectURL center size w)
      as (model0 & d0 & Hmodel & Hd & Hagree).
    destruct (modelLoaded_effect (ObjectController.model_id n) objectURL
                center size w)
      as (model & d & _ & _ & _ & _ & _ & H3 & HOD & HLD & _ & Hsl & Hso
          & Ho & _ & _ & _ & Hl & _).
    destruct Hshape as (Hs & Hlr & Hor). destruct Hinv as [Hll Hol].
    unfold link_inv, light_link, object_link in *.
    rewrite HLD, Hsl, Hso, Ho, Hl. split.
    + rewrite H3. by apply linked_allocE.
    + eapply linked_register; [exact Hd|exact Hmodel|exact Hagree| |].
      { intros id'. by apply refs_fresh. }
      rewrite H3, HOD. apply linked_allocA; [done|]. by apply linked_allocE.
  - destruct (modelFailed_effect id objectURL w)
      as (H3 & HLD & HOD & Hsm & Hl & Ho & _).
    unfold link_inv, light_link, object_link in *.
    by rewrite H3, HLD, HOD, Hsm, Hl, Ho.
Qed.

Lemma link_inv_init : link_inv App.init.
Proof.
  split; intros id r d Hr; vm_compute in Hr; discriminate.
Qed.

Lemma reachable_link_inv w : reachable w → link_inv w.
Proof.
  induction 1 as [|w e Hw IH He]; [apply link_inv_init|].
  apply link_inv_step;
    [by apply reachable_keys_inv|by apply reachable_shape_inv|done..].
Qed.

(** ** The grid and the axes *)





(** ** What the registry holds *)

Lemma reachable_one_box : reachable one_box.
Proof.
  apply (reachable_step App.init (AddObjectClick "box" 0.5 0.25));
    [constructor|]. apply list_elem_of_here.
Qed.

(** X1: in every state a session can reach, the lights map of the registry
    holds the default ambient light and, besides it, exactly the lights the
    light controller has a record of.  The default light has no record, so
    the panel can neither edit nor remove it. *)
Theorem registry_lights_are_tracked (w : World) (id : string) :
  reachable w →
  (is_Some (SceneManager.getLight id (sceneManager w)) ↔
   id = "ambient_default" ∨ is_Some (lc_lights (lightController w) !! id)) ∧
  lc_lights (lightController w) !! "ambient_default" = None.
Proof.
  intros Hw. pose proof (reachable_keys_inv w Hw) as [Hl Hrl _ _ _ _ _].
  split; [apply Hrl|].
  apply eq_None_not_Some. intros H. destruct (Hl _ H) as (t & n & Heq & _).
  symmetry in Heq. by apply light_id_not_default in Heq.
Qed.

Lemma registry_lights_are_tracked_witness :
  lc_lights (lightController one_point_light) !! "ambient_default" = None.
Proof.
  exact (proj2 (registry_lights_are_tracked one_point_light "point_1"
                  reachable_one_point_light)).
Defined.

(** X2: in every reachable state, the objects map of the registry holds the
    two default objects, the objects the object controller has a record of,
    and one helper per light record whose type is not ambient, stored under
    the id of the light followed by [_helper]; nothing else.  The three
    groups do not overlap: a default object and a helper have no record in
    the object controller. *)
Theorem registry_objects_are_tracked (w : World) (k : string) :
  reachable w →
  (is_Some (SceneManager.getObject k (sceneManager w)) ↔
   k ∈ default_objects ∨
   is_Some (oc_objects (objectController w) !! k) ∨
   ∃ id r d, lc_lights (lightController w) !! id = Some r ∧
             heapLD w !! r = Some d ∧ ld_type d ≠ ambient ∧
             k = id +:+ "_helper") ∧
  (k ∈ default_objects → oc_objects (objectController w) !! k = None) ∧
  (∀ id, is_Some (lc_lights (lightController w) !! id) →
         oc_objects (objectController w) !! (id +:+ "_helper") = None).
Proof.
  intros Hw. pose proof (reachable_keys_inv w Hw) as Hkeys.
  pose proof (reachable_link_inv w Hw) as [Hlink _].
  pose proof Hkeys as [Hl _ _ _ Hro _ _]. split_and!.
  - unfold SceneManager.getObject. rewrite Hro.
    assert ((∃ id, has_helper w id ∧ k = id +:+ "_helper") ↔
            (∃ id r d, lc_lights (lightController w) !! id = Some r ∧
                       heapLD w !! r = Some d ∧ ld_type d ≠ ambient ∧
                       k = id +:+ "_helper")) as ->; [|done].
    split.
    + intros (id & (r & d & Hr & Hd & Hh) & ->). exists id, r, d.
      destruct (Hlink id r d Hr Hd) as (l & o & _ & _ & Ha).
      split_and!; [done..| |done]. by apply (la_helper _ _ _ Ha).
    + intros (id & r & d & Hr & Hd & Ht & ->). exists id. split; [|done].
      exists r, d. destruct (Hlink id r d Hr Hd) as (l & o & _ & _ & Ha).
      split_and!; [done..|]. by apply (la_helper _ _ _ Ha).
  - intros Hd. apply eq_None_not_Some.
    intros H%(tracked_object_id _ _ _ _ _ _ _ _ _ Hkeys).
    by apply object_id_not_default in H.
  - intros id Hid. destruct (Hl _ Hid) as (t & n & -> & _).
    by apply helper_key_never_tracked.
Qed.

Lemma registry_objects_are_tracked_witness :
  oc_objects (objectController one_point_light) !! "point_1_helper" = None.
Proof.
  refine (proj2 (proj2 (registry_objects_are_tracked one_point_light
                          "point_1_helper" reachable_one_point_light))
            "point_1" _).
  vm_compute. by eexists.
Defined.



(** X4: in every reachable state each record of the light controller has
    its live light in the registry, and the two agree: the light is an
    instance of the class of the record's type, and intensity, position and
    shadow flag of the light are those of the record (the origin and [false]
    where the record has none); the colour of the light was built from the
    text of the record, unless both still are the white of creation. *)
Theorem light_record_agrees_with_live_light (w : World) (id : string)
    (r : loc) (d : LightData) :
  reachable w →
  lc_lights (lightController w) !! id = Some r →
  heapLD w !! r = Some d →
  ∃ l o,
    SceneManager.getLight id (sceneManager w) = Some l ∧
    heap3D w !! l = Some o ∧
    instance_of (ld_type d) o = true ∧
    light_intensity o = Some (ld_intensity d) ∧
    o_position o = default zero3 (ld_position d) ∧
    o_castShadow o = default false (ld_castShadow d) ∧
    ∃ c, light_color o = Some c ∧
         color_agrees (ColorHex 0xffffff, "#ffffff") c (ld_color d).
Proof.
  intros Hw Hr Hd. destruct (reachable_link_inv w Hw) as [Hlink _].
  destruct (Hlink id r d Hr Hd) as (l & o & Hl & Ho & [? ? ? ? ? ? ? ?]).
  by exists l, o.
Qed.

Lemma light_record_agrees_with_live_light_witness :
  ∃ l o,
    SceneManager.getLight "point_1" (sceneManager one_point_light) = Some l ∧
    heap3D one_point_light !! l = Some o ∧
    o_position o = mkVector3 2 2 2.
Proof.
  destruct (light_record_agrees_with_live_light one_point_light "point_1"
              1%positive
              (mkLightData "point_1" point "#ffffff" 1
                 (Some (mkVector3 2 2 2)) None None (Some 7%positive))
              reachable_one_point_light)
    as (l & o & Hl & Ho & _ & _ & Hp & _);
    [vm_compute; reflexivity..|].
  exists l, o. split_and!; [exact Hl|exact Ho|exact Hp].
Defined.

(** X5: in every reachable state each record of the object controller has
    its live entity in the registry, with the rotation of the record.  For a
    primitive the entity is a mesh with the geometry of the record's type,
    and position, scale, roughness and metalness of mesh and record are
    equal, the colour of the material was built from the text of the record
    (unless both still are the blue of creation), and the mesh casts and
    receives shadows.  For an imported model the entity is the loader's
    group and the type of the record is [custom_model]. *)
Theorem object_record_agrees_with_live_entity (w : World) (id : string)
    (r : loc) (d : ObjectData) :
  reachable w →
  oc_objects (objectController w) !! id = Some r →
  heapOD w !! r = Some d →
  ∃ o obj,
    SceneManager.getObject id (sceneManager w) = Some o ∧
    heap3D w !! o = Some obj ∧
    o_rotation obj = od_rotation d ∧
    (od_isCustomModel d ≠ Some true →
       ∃ g material,
         ObjectController.geometry_of (od_type d) = Some g ∧
         o_class obj = Mesh g material ∧
         o_position obj = od_position d ∧
         o_scale obj = od_scale d ∧
         mat_roughness material = od_roughness d ∧
         mat_metalness material = od_metalness d ∧
         color_agrees (ColorHex 0x1a75ff, "#1a75ff")
                      (mat_color material) (od_color d) ∧
         o_castShadow obj = true ∧ o_receiveShadow obj = true) ∧
    (od_isCustomModel d = Some true →
       o_class obj = Group ∧ od_type d = "custom_model").
Proof.
  intros Hw Hr Hd. destruct (reachable_link_inv w Hw) as [_ Hlink].
  destruct (Hlink id r d Hr Hd) as (o & obj & Ho & Hobj & [? ? Hp Hi]).
  exists o, obj. split_and!; try done.
  - intros Hc. destruct (Hp Hc)
      as (g & n & mat & ? & ? & ? & ? & ? & ? & ? & ? & ? & ?).
    by exists g, mat.
  - intros Hc. by destruct (Hi Hc) as (? & ? & _).
Qed.

Lemma object_record_agrees_with_live_entity_witness :
  ∃ o obj,
    SceneManager.getObject "box_1" (sceneManager one_box) = Some o ∧
    heap3D one_box !! o = Some obj ∧
    o_rotation obj = euler0.
Proof.
  destruct (object_record_agrees_with_live_entity one_box "box_1" 1%positive
              (mkObjectData "box_1" "box" (mkVector3 (0.5 * 4 - 2) 0.5
                                             (0.25 * 4 - 2))
                 euler0 one3 "#1a75ff" 0.5 0.2 None None)
              reachable_one_box)
    as (o & obj & Ho & Hobj & Hrot & _);
    [vm_compute; reflexivity..|].
  exists o, obj. split_and!; [exact Ho|exact Hobj|exact Hrot].
Defined.

(** ** The panels *)

Section Rendered.

Context {A B : Type} (mk : loc → A → B) (data : B → loc)
  (Hdata : ∀ r d, data (mk r d) = r).

Implicit Types (h : gmap loc A) (m : gmap string loc).

Lemma elem_of_rendered h m el :
  el ∈ rendered mk h m ↔
  ∃ id r d, m !! id = Some r ∧ h !! r = Some d ∧ el = mk r d.
Proof.
  unfold rendered. rewrite list_elem_of_omap. split.
  - intros [[id r] [Hin Hel]]. apply elem_of_map_to_list in Hin.
    simpl in Hel. destruct (h !! r) as [d|] eqn:Hd; simplify_eq/=.
    by eexists _, _, _.
  - intros (id & r & d & Hl & Hd & ->). exists (id, r). split.
    + by apply elem_of_map_to_list.
    + simpl. by rewrite Hd.
Qed.

Lemma rendered_sublist h (l : list (string * loc)) :
  data <$> omap (λ e : string * loc, mk e.2 <$> h !! e.2) l
  `sublist_of` l.*2.
Proof.
  induction l as [|[id r] l IH]; simpl; [done|].
  destruct (h !! r) as [d|]; simpl.
  - rewrite Hdata. by apply sublist_skip.
  - by apply sublist_cons.
Qed.

Lemma rendered_once h m :
  refs_ok h m → NoDup (data <$> rendered mk h m).
Proof.
  intros [_ Hinj]. eapply sublist_NoDup; [|apply rendered_sublist].
  apply NoDup_fmap_2_strong; [|apply NoDup_map_to_list].
  intros [id1 r1] [id2 r2] H1%elem_of_map_to_list H2%elem_of_map_to_list.
  simpl. intros <-. f_equal. by apply (Hinj _ _ r1).
Qed.

Lemma rendered_complete h m id r :
  refs_ok h m → m !! id = Some r →
  ∃ el, el ∈ rendered mk h m ∧ data el = r.
Proof.
  intros [Hal _] Hr. destruct (Hal id r Hr) as [d Hd].
  exists (mk r d). split; [|done]. apply elem_of_rendered. by exists id, r, d.
Qed.

End Rendered.

Lemma light_panel_rendered w :
  lc_panel (lightController w) = LightController.renderLights w →
  refs_ok (heapLD w) (lc_lights (lightController w)) →
  light_link w →
  light_panel_ok w.
Proof.
  intros Hp Hrefs Hlink.
  change (LightController.renderLights w)
    with (rendered LightController.createLightElement (heapLD w)
            (lc_lights (lightController w))) in Hp.
  split; rewrite Hp.
  - by apply (rendered_once LightController.createLightElement le_lightData
                (λ _ _, eq_refl)).
  - intros id r Hr.
    by apply (rendered_complete LightController.createLightElement
                le_lightData (λ _ _, eq_refl) _ _ id).
  - intros el (id & r & d & Hr & Hd & ->)%elem_of_rendered. exists d.
    destruct (Hlink id r d Hr Hd) as (l & o & _ & _ & Ha).
    rewrite (la_id _ _ _ Ha). simpl. split_and!; [done..| |].
    + case_decide as Ht; [|by split; [|eexists]].
      split; [by intros [? ?]|done].
    + case_decide as Ht.
      * rewrite Ht. split; [done|by intros [|]].
      * by rewrite bool_decide_eq_true.
Qed.

Lemma object_panel_rendered w :
  oc_panel (objectController w) = ObjectController.renderObjects w →
  refs_ok (heapOD w) (oc_objects (objectController w)) →
  object_link w →
  object_panel_ok w.
Proof.
  intros Hp Hrefs Hlink.
  change (ObjectController.renderObjects w)
    with (rendered ObjectController.createObjectElement (heapOD w)
            (oc_objects (objectController w))) in Hp.
  split; rewrite Hp.
  - by apply (rendered_once ObjectController.createObjectElement
                oe_objectData (λ _ _, eq_refl)).
  - intros id r Hr.
    by apply (rendered_complete ObjectController.createObjectElement
                oe_objectData (λ _ _, eq_refl) _ _ id).
  - intros el (id & r & d & Hr & Hd & ->)%elem_of_rendered. exists d.
    destruct (Hlink id r d Hr Hd) as (l & o & _ & _ & Ha).
    rewrite (oa_id _ _ _ Ha). simpl. split_and!; [done..|].
    destruct (od_isCustomModel d) as [[]|]; simpl; split; done.
Qed.

Lemma light_panel_frame w w' :
  lightController w' = lightController w →
  heap_related same_origin_light (heapLD w) (heapLD w') →
  light_panel_ok w → light_panel_ok w'.
Proof.
  intros Hlc Hrel [Ho Hc Hs]. split; rewrite Hlc; try done.
  intros el Hel. destruct (Hs el Hel) as (d & Hd & Hl & Hp & Hsh).
  specialize (Hrel (le_lightData el)). rewrite Hd in Hrel.
  inversion Hrel as [? d' (Hid & Hty & _)|]; subst. exists d'.
  by rewrite Hid, Hty.
Qed.

Lemma object_panel_frame w w' :
  objectController w' = objectController w →
  heap_related same_origin_object (heapOD w) (heapOD w') →
  object_panel_ok w → object_panel_ok w'.
Proof.
  intros Hoc Hrel [Ho Hc Hs]. split; rewrite Hoc; try done.
  intros el Hel. destruct (Hs el Hel) as (d & Hd & Hl & Hm).
  specialize (Hrel (oe_objectData el)). rewrite Hd in Hrel.
  inversion Hrel as [? d' (Hid & _ & Hcu & _)|]; subst. exists d'.
  by rewrite Hid, Hcu.
Qed.

Lemma heap_related_eq {A} (P : A → A → Prop) (h h' : gmap loc A) :
  (∀ x, P x x) → h' = h → heap_related P h h'.
Proof. intros HP ->. by apply heap_related_refl. Qed.

Lemma same_origin_light_refl d : same_origin_light d d.
Proof. by split_and!. Qed.

Lemma same_origin_object_refl d : same_origin_object d d.
Proof. by split_and!. Qed.

Lemma reachable_panels w : reachable w → light_panel_ok w ∧ object_panel_ok w.
Proof.
  induction 1 as [|w e Hw [IHl IHo] He].
  { split; split; try (intros ? ? H; vm_compute in H; discriminate);
      try (intros ? H; vm_compute in H; by apply elem_of_nil in H);
      vm_compute; constructor. }
  assert (reachable (handle e w)) as Hw' by (by constructor).
  pose proof (reachable_shape_inv _ Hw') as (_ & HrL & HrO).
  pose proof (reachable_link_inv _ Hw') as [HlL HlO].
  destruct (is_edit e) eqn:Hedit.
  { destruct (edit_frame e w Hedit) as (_ & ? & ? & _ & _ & ? & ?).
    split; [by apply (light_panel_frame w)|by apply (object_panel_frame w)]. }
  destruct e; try discriminate; clear Hedit.
  - destruct (addLight_effect type w)
      as (_ & _ & _ & _ & _ & _ & HOD & _ & _ & _ & Hp & Hoc & _).
    split; [by apply light_panel_rendered|].
    apply (object_panel_frame w); [done| |done].
    by apply heap_related_eq; [apply same_origin_object_refl|].
  - revert Hw' HrL HrO HlL HlO. simpl. unfold on_light.
    case_match; [|done].
    destruct (lc_lights (lightController w) !! ld_id l) as [r|] eqn:Hr;
      last first.
    { unfold LightController.removeLight. by rewrite Hr. }
    destruct (removeLight_effect _ r w Hr)
      as (_ & _ & HOD & _ & _ & _ & _ & _ & Hp & Hoc & _).
    intros. split; [by apply light_panel_rendered|].
    apply (object_panel_frame w); [done| |done].
    by apply heap_related_eq; [apply same_origin_object_refl|].
  - simpl in He. destruct (supported_type _ He) as [g Hg].
    destruct (addObject_effect type g rnd_x rnd_z w Hg)
      as (_ & _ & _ & _ & _ & _ & _ & _ & _ & HLD & _ & _ & _ & _ & _ & _
          & Hp & Hlc & _).
    split; [|by apply object_panel_rendered].
    apply (light_panel_frame w); [done| |done].
    by apply heap_related_eq; [apply same_origin_light_refl|].
  - revert Hw' HrL HrO HlL HlO. simpl. unfold on_object.
    case_match; [|done].
    destruct (oc_objects (objectController w) !! od_id o) as [r|] eqn:Hr;
      last first.
    { unfold ObjectController.removeObject. by rewrite Hr. }
    destruct (removeObject_effect _ r w Hr)
      as (_ & HLD & _ & _ & _ & _ & _ & _ & _ & Hp & Hlc & _).
    intros. split; [|by apply object_panel_rendered].
    apply (light_panel_frame w); [done| |done].
    by apply heap_related_eq; [apply same_origin_light_refl|].
  - destruct (handleModelUpload_effect w)
      as (_ & HLD & HOD & _ & Hlc & Ho & _ & _ & Hp & _).
    split.
    + apply (light_panel_frame w); [done| |done].
      by apply heap_related_eq; [apply same_origin_light_refl|].
    + destruct IHo as [Hon Hoc Hos]. simpl handle.
      split; rewrite ?Hp, ?Ho, ?HOD; done.
  - destruct (modelLoaded_effect id objectURL center size w)
      as (_ & _ & _ & _ & _ & _ & _ & _ & _ & HLD & _ & _ & _ & _ & _ & _
          & Hp & Hlc & _).
    split; [|by apply object_panel_rendered].
    apply (light_panel_frame w); [done| |done].
    by apply heap_related_eq; [apply same_origin_light_refl|].
  - destruct (modelFailed_effect id objectURL w)
      as (_ & HLD & HOD & _ & Hlc & Hoc & _).
    split.
    + apply (light_panel_frame w); [done| |done].
      by apply heap_related_eq; [apply same_origin_light_refl|].
    + apply (object_panel_frame w); [done| |done].
      by apply heap_related_eq; [apply same_origin_object_refl|].
Qed.

(** X6: in every reachable state the panel of the light controller has one
    element for each record of the metadata map and no other element.  The
    element of a record has position sliders exactly when the type of the
    record is not ambient, and a shadow checkbox exactly when it is
    directional or spot. *)
Theorem light_panel_matches_records (w : World) :
  reachable w →
  NoDup (le_lightData <$> lc_panel (lightController w)) ∧
  (∀ id r, lc_lights (lightController w) !! id = Some r →
     ∃ el, el ∈ lc_panel (lightController w) ∧ le_lightData el = r) ∧
  (∀ el, el ∈ lc_panel (lightController w) →
     ∃ d, heapLD w !! le_lightData el = Some d ∧
          lc_lights (lightController w) !! ld_id d = Some (le_lightData el) ∧
          (is_Some (le_position el) ↔ ld_type d ≠ ambient) ∧
          (le_shadow el = true ↔
           ld_type d = directional ∨ ld_type d = spot)).
Proof. intros Hw. by destruct (reachable_panels w Hw) as [[? ? ?] _]. Qed.

Lemma light_panel_matches_records_witness :
  NoDup (le_lightData <$> lc_panel (lightController one_point_light)).
Proof.
  exact (proj1 (light_panel_matches_records one_point_light
                  reachable_one_point_light)).
Defined.

(** X7: in every reachable state the panel of the object controller has one
    element for each record of the metadata map and no other element.  The
    element has the material controls exactly when the record is not that
    of an imported model. *)
Theorem object_panel_matches_records (w : World) :
  reachable w →
  NoDup (oe_objectData <$> oc_panel (objectController w)) ∧
  (∀ id r, oc_objects (objectController w) !! id = Some r →
     ∃ el, el ∈ oc_panel (objectController w) ∧ oe_objectData el = r) ∧
  (∀ el, el ∈ oc_panel (objectController w) →
     ∃ d, heapOD w !! oe_objectData el = Some d ∧
          oc_objects (objectController w) !! od_id d
            = Some (oe_objectData el) ∧
          (oe_material el = true ↔ od_isCustomModel d ≠ Some true)).
Proof. intros Hw. by destruct (reachable_panels w Hw) as [_ [? ? ?]]. Qed.

Lemma object_panel_matches_records_witness :
  NoDup (oe_objectData <$> oc_panel (objectController one_big_model)).
Proof.
  exact (proj1 (object_panel_matches_records one_big_model
                  reachable_one_big_model)).
Defined.

(** ** Sliders *)

Lemma position_after_refresh (h h1 : gmap loc Object3D) (H l : loc) :
  o_position <$> alter (helper_refresh h) H h1 !! l = o_position <$> h1 !! l.
Proof.
  destruct (decide (H = l)) as [->|Hne].
  - rewrite lookup_alter_eq. destruct (h1 !! l) as [[[] ? ? ? ? ?]|]; done.
  - by rewrite lookup_alter_ne.
Qed.

(** What [updateLightPosition] does when both lookups succeed. *)
Lemma updateLightPosition_effect (id : string) (p : Vector3) (w : World)
    (r l : loc) (d : LightData) (o : Object3D) :
  lc_lights (lightController w) !! id = Some r →
  heapLD w !! r = Some d →
  SceneManager.getLight id (sceneManager w) = Some l →
  heap3D w !! l = Some o →
  let w' := LightController.updateLightPosition id p w in
  o_position <$> heap3D w' !! l = Some p ∧
  heapLD w' !! r = Some (ld_with_position (Some p) d) ∧
  lightController w' = lightController w ∧
  sceneManager w' = sceneManager w.
Proof.
  intros Hr Hd Hl Ho. simpl.
  unfold LightController.updateLightPosition,
    LightController.refresh_helper_of, helper_update.
  rewrite Hl, Hr. simpl. rewrite lookup_alter_eq, Hd. simpl.
  destruct (ld_helper d); simpl; rewrite ?position_after_refresh;
    rewrite !lookup_alter_eq, ?Hd, Ho; done.
Qed.

(** X8: the position sliders of a light work on the vector that was read
    when the panel was rendered, and an edit does not render the panel.  So,
    in a reachable state, after one slider of an element was moved and then
    another, the live light and the record are at the render-time vector
    with only the coordinate of the second slider replaced: the move of the
    first slider is gone. *)
Theorem light_position_sliders_use_rendered_vector (w : World)
    (el : LightElement) (p0 : Vector3) (i j : nat) (v1 v2 : float) :
  reachable w →
  el ∈ lc_panel (lightController w) →
  le_position el = Some p0 →
  let w1 := handle (LightPositionInput el i v1) w in
  let w2 := handle (LightPositionInput el j v2) w1 in
  ∃ d l,
    heapLD w !! le_lightData el = Some d ∧
    SceneManager.getLight (ld_id d) (sceneManager w) = Some l ∧
    o_position <$> heap3D w1 !! l
      = Some (LightController.positionInput p0 i v1) ∧
    o_position <$> heap3D w2 !! l
      = Some (LightController.positionInput p0 j v2) ∧
    ld_position <$> heapLD w2 !! le_lightData el
      = Some (Some (LightController.positionInput p0 j v2)).
Proof.
  intros Hw Hel Hp0. simpl.
  destruct (reachable_panels w Hw) as [[_ _ Hs] _].
  destruct (Hs el Hel) as (d & Hd & Hr & _).
  destruct (reachable_link_inv w Hw) as [Hlink _].
  destruct (Hlink _ _ _ Hr Hd) as (l & o & Hl & Ho & _).
  exists d, l. unfold on_light. rewrite Hd, Hp0. simpl.
  destruct (updateLightPosition_effect (ld_id d)
              (LightController.positionInput p0 i v1) w _ _ _ _ Hr Hd Hl Ho)
    as (H1 & H2 & H3 & H4).
  rewrite H2. simpl.
  destruct (heap3D (LightController.updateLightPosition (ld_id d)
                      (LightController.positionInput p0 i v1) w) !! l)
    as [o1|] eqn:Ho1; [|done].
  rewrite <-H3 in Hr. unfold SceneManager.getLight in *.
  rewrite <-H4 in Hl.
  destruct (updateLightPosition_effect (ld_id d)
              (LightController.positionInput p0 j v2) _ _ _ _ _ Hr H2 Hl Ho1)
    as (G1 & G2 & _).
  rewrite G1, G2. rewrite H4 in Hl. by split_and!.
Qed.

Lemma light_position_sliders_use_rendered_vector_witness :
  ∃ d l,
    heapLD one_point_light !! 1%positive = Some d ∧
    SceneManager.getLight (ld_id d) (sceneManager one_point_light) = Some l ∧
    o_position <$>
      heap3D (handle (LightPositionInput point_element 1 7)
                (handle (LightPositionInput point_element 0 5)
                   one_point_light)) !! l
    = Some (mkVector3 2 7 2).
Proof.
  destruct (light_position_sliders_use_rendered_vector one_point_light
              point_element (mkVector3 2 2 2) 0 1 5 7
              reachable_one_point_light)
    as (d & l & Hd & Hl & _ & H2 & _).
  - vm_compute. apply list_elem_of_here.
  - reflexivity.
  - exists d, l. split_and!; [exact Hd|exact Hl|exact H2].
Defined.

(** What the sliders of an object do when both lookups succeed. *)
Lemma object_sliders_effect (w : World) (r o : loc) (d : ObjectData)
    (obj : Object3D) (index : nat) (v : float) :
  heapOD w !! r = Some d →
  oc_objects (objectController w) !! od_id d = Some r →
  SceneManager.getObject (od_id d) (sceneManager w) = Some o →
  heap3D w !! o = Some obj →
  (let w' := ObjectController.positionInput r index v w in
   let p := ObjectController.axisInput (od_position d) index v in
   heap3D w' !! o = Some (with_position p obj) ∧
   heapOD w' !! r = Some (od_with_position p d) ∧
   objectController w' = objectController w ∧
   sceneManager w' = sceneManager w) ∧
  (let w' := ObjectController.rotationInput r index v w in
   let p := ObjectController.angleInput (od_rotation d) index v in
   heap3D w' !! o = Some (with_rotation p obj) ∧
   heapOD w' !! r = Some (od_with_rotation p d) ∧
   objectController w' = objectController w ∧
   sceneManager w' = sceneManager w) ∧
  (let w' := ObjectController.scaleInput r index v w in
   let p := ObjectController.axisInput (od_scale d) index v in
   heap3D w' !! o = Some (with_scale p obj) ∧
   heapOD w' !! r = Some (od_with_scale p d) ∧
   objectController w' = objectController w ∧
   sceneManager w' = sceneManager w).
Proof.
  intros Hd Hr Ho Hobj. simpl.
  unfold ObjectController.positionInput, ObjectController.rotationInput,
    ObjectController.scaleInput, ObjectController.updateObjectPosition,
    ObjectController.updateObjectRotation, ObjectController.updateObjectScale.
  rewrite Hd, Ho, Hr. simpl. rewrite !lookup_alter_eq, Hd, Hobj. done.
Qed.

(** Two moves of sliders of one group, in terms of the handlers of the
    controls. *)
Lemma object_sliders_twice (w : World) (el : ObjectElement)
    (i j : nat) (v1 v2 : float) :
  reachable w →
  el ∈ oc_panel (objectController w) →
  ∃ d o,
    heapOD w !! oe_objectData el = Some d ∧
    SceneManager.getObject (od_id d) (sceneManager w) = Some o ∧
    (let w2 := handle (ObjectPositionInput el j v2)
                 (handle (ObjectPositionInput el i v1) w) in
     let p := ObjectController.axisInput
                (ObjectController.axisInput (od_position d) i v1) j v2 in
     o_position <$> heap3D w2 !! o = Some p ∧
     od_position <$> heapOD w2 !! oe_objectData el = Some p) ∧
    (let w2 := handle (ObjectRotationInput el j v2)
                 (handle (ObjectRotationInput el i v1) w) in
     let p := ObjectController.angleInput
                (ObjectController.angleInput (od_rotation d) i v1) j v2 in
     o_rotation <$> heap3D w2 !! o = Some p ∧
     od_rotation <$> heapOD w2 !! oe_objectData el = Some p) ∧
    (let w2 := handle (ObjectScaleInput el j v2)
                 (handle (ObjectScaleInput el i v1) w) in
     let p := ObjectController.axisInput
                (ObjectController.axisInput (od_scale d) i v1) j v2 in
     o_scale <$> heap3D w2 !! o = Some p ∧
     od_scale <$> heapOD w2 !! oe_objectData el = Some p).
Proof.
  intros Hw Hel.
  destruct (reachable_panels w Hw) as [_ [_ _ Hs]].
  destruct (Hs el Hel) as (d & Hd & Hr & _).
  destruct (reachable_link_inv w Hw) as [_ Hlink].
  destruct (Hlink _ _ _ Hr Hd) as (o & obj & Ho & Hobj & _).
  exists d, o. split; [done|]. split; [done|].
  destruct (object_sliders_effect w _ o d obj i v1 Hd Hr Ho Hobj)
    as ((P1 & P2 & P3 & P4) & (R1 & R2 & R3 & R4) & (S1 & S2 & S3 & S4)).
  simpl in *. split_and!.
  - rewrite <-P3 in Hr. unfold SceneManager.getObject in *.
    rewrite <-P4 in Ho.
    destruct (object_sliders_effect _ _ o _ _ j v2 P2 Hr Ho P1)
      as ((G1 & G2 & _) & _). simpl in *. by rewrite G1.
  - rewrite <-P3 in Hr. unfold SceneManager.getObject in *.
    rewrite <-P4 in Ho.
    destruct (object_sliders_effect _ _ o _ _ j v2 P2 Hr Ho P1)
      as ((G1 & G2 & _) & _). simpl in *. by rewrite G2.
  - rewrite <-R3 in Hr. unfold SceneManager.getObject in *.
    rewrite <-R4 in Ho.
    destruct (object_sliders_effect _ _ o _ _ j v2 R2 Hr Ho R1)
      as (_ & (G1 & G2 & _) & _). simpl in *. by rewrite G1.
  - rewrite <-R3 in Hr. unfold SceneManager.getObject in *.
    rewrite <-R4 in Ho.
    destruct (object_sliders_effect _ _ o _ _ j v2 R2 Hr Ho R1)
      as (_ & (G1 & G2 & _) & _). simpl in *. by rewrite G2.
  - rewrite <-S3 in Hr. unfold SceneManager.getObject in *.
    rewrite <-S4 in Ho.
    destruct (object_sliders_effect _ _ o _ _ j v2 S2 Hr Ho S1)
      as (_ & _ & (G1 & G2 & _)). simpl in *. by rewrite G1.
  - rewrite <-S3 in Hr. unfold SceneManager.getObject in *.
    rewrite <-S4 in Ho.
    destruct (object_sliders_effect _ _ o _ _ j v2 S2 Hr Ho S1)
      as (_ & _ & (G1 & G2 & _)). simpl in *. by rewrite G2.
Qed.

(** X9: the position, rotation and scale sliders of an object read the
    other two components from the record when the event fires.  So, in a
    reachable state, after slider [i] of a group was set to [v1] and then
    slider [j] of the same group to [v2], record and live entity hold, in
    component [k]: [v2] if [j = k], else [v1] if [i = k], else what the
    record held before.  The two moves add up, and a component none of them
    names is kept.  For a rotation the values stored are
    [v1 * (Math.PI / 180)] and [v2 * (Math.PI / 180)]: an angle is entered
    in degrees and stored in radians. *)
Theorem object_sliders_compose (w : World) (el : ObjectElement)
    (i j : nat) (v1 v2 : float) :
  reachable w →
  el ∈ oc_panel (objectController w) →
  ∃ d o,
    heapOD w !! oe_objectData el = Some d ∧
    SceneManager.getObject (od_id d) (sceneManager w) = Some o ∧
    (let w2 := handle (ObjectPositionInput el j v2)
                 (handle (ObjectPositionInput el i v1) w) in
     let p :=
       mkVector3
         (if decide (j = 0) then v2
          else if decide (i = 0) then v1 else v_x (od_position d))
         (if decide (j = 1) then v2
          else if decide (i = 1) then v1 else v_y (od_position d))
         (if decide (j = 2) then v2
          else if decide (i = 2) then v1 else v_z (od_position d)) in
     o_position <$> heap3D w2 !! o = Some p ∧
     od_position <$> heapOD w2 !! oe_objectData el = Some p) ∧
    (let w2 := handle (ObjectRotationInput el j v2)
                 (handle (ObjectRotationInput el i v1) w) in
     let rad1 := (v1 * (Math_PI / 180))%float in
     let rad2 := (v2 * (Math_PI / 180))%float in
     let p :=
       mkEuler
         (if decide (j = 0) then rad2
          else if decide (i = 0) then rad1 else e_x (od_rotation d))
         (if decide (j = 1) then rad2
          else if decide (i = 1) then rad1 else e_y (od_rotation d))
         (if decide (j = 2) then rad2
          else if decide (i = 2) then rad1 else e_z (od_rotation d)) in
     o_rotation <$> heap3D w2 !! o = Some p ∧
     od_rotation <$> heapOD w2 !! oe_objectData el = Some p) ∧
    (let w2 := handle (ObjectScaleInput el j v2)
                 (handle (ObjectScaleInput el i v1) w) in
     let p :=
       mkVector3
         (if decide (j = 0) then v2
          else if decide (i = 0) then v1 else v_x (od_scale d))
         (if decide (j = 1) then v2
          else if decide (i = 1) then v1 else v_y (od_scale d))
         (if decide (j = 2) then v2
          else if decide (i = 2) then v1 else v_z (od_scale d)) in
     o_scale <$> heap3D w2 !! o = Some p ∧
     od_scale <$> heapOD w2 !! oe_objectData el = Some p).
Proof.
  intros Hw Hel.
  destruct (object_sliders_twice w el i j v1 v2 Hw Hel)
    as (d & o & Hd & Ho & HP & HR & HS).
  exists d, o. split; [exact Hd|]. split; [exact Ho|].
  exact (conj HP (conj HR HS)).
Qed.

(** On the box of [one_box], which lies at (0, 0.5, -1) unrotated and
    unscaled: the first slider of each group is set to 90 and then the second
    to 180. *)
Lemma object_sliders_compose_witness :
  ∃ o,
    SceneManager.getObject "box_1" (sceneManager one_box) = Some o ∧
    o_position <$>
      heap3D (handle (ObjectPositionInput box_element 1 180)
                (handle (ObjectPositionInput box_element 0 90) one_box)) !! o
    = Some (mkVector3 90 180 (-1)) ∧
    od_position <$>
      heapOD (handle (ObjectPositionInput box_element 1 180)
                (handle (ObjectPositionInput box_element 0 90) one_box))
        !! 1%positive
    = Some (mkVector3 90 180 (-1)) ∧
    o_rotation <$>
      heap3D (handle (ObjectRotationInput box_element 1 180)
                (handle (ObjectRotationInput box_element 0 90) one_box)) !! o
    = Some (mkEuler (Math_PI / 2) Math_PI 0) ∧
    od_rotation <$>
      heapOD (handle (ObjectRotationInput box_element 1 180)
                (handle (ObjectRotationInput box_element 0 90) one_box))
        !! 1%positive
    = Some (mkEuler (Math_PI / 2) Math_PI 0) ∧
    o_scale <$>
      heap3D (handle (ObjectScaleInput box_element 1 180)
                (handle (ObjectScaleInput box_element 0 90) one_box)) !! o
    = Some (mkVector3 90 180 1) ∧
    od_scale <$>
      heapOD (handle (ObjectScaleInput box_element 1 180)
                (handle (ObjectScaleInput box_element 0 90) one_box))
        !! 1%positive
    = Some (mkVector3 90 180 1).
Proof.
  destruct (object_sliders_compose one_box box_element 0 1 90 180
              reachable_one_box)
    as (d & o & Hd & Ho & (P1 & P2) & (R1 & R2) & (S1 & S2)).
  - vm_compute. apply list_elem_of_here.
  - vm_compute in Hd. injection Hd as <-.
    exists o. split; [exact Ho|].
    split_and!; [exact P1|exact P2|exact R1|exact R2|exact S1|exact S2].
Defined.

(** ** Removing a light *)

(** X10: in a reachable state, the Remove button of a light takes the
    record out of the metadata map, the light out of the lights map and its
    helper out of the objects map of the registry, and both nodes out of the
    scene; the records and lights of all other ids, and the records of the
    object controller, stay as they are. *)
Theorem light_remove_click_unregisters (w : World) (el : LightElement) :
  reachable w →
  el ∈ lc_panel (lightController w) →
  let w' := handle (LightRemoveClick el) w in
  ∃ d l,
    heapLD w !! le_lightData el = Some d ∧
    SceneManager.getLight (ld_id d) (sceneManager w) = Some l ∧
    lc_lights (lightController w') !! ld_id d = None ∧
    SceneManager.getLight (ld_id d) (sceneManager w') = None ∧
    SceneManager.getObject (ld_id d +:+ "_helper") (sceneManager w') = None ∧
    (l ∉ scene (sceneManager w')) ∧
    (∀ h, SceneManager.getObject (ld_id d +:+ "_helper") (sceneManager w)
          = Some h → h ∉ scene (sceneManager w')) ∧
    (∀ j, j ≠ ld_id d →
       lc_lights (lightController w') !! j
         = lc_lights (lightController w) !! j ∧
       SceneManager.getLight j (sceneManager w')
         = SceneManager.getLight j (sceneManager w)) ∧
    oc_objects (objectController w') = oc_objects (objectController w).
Proof.
  intros Hw Hel. simpl.
  assert (reachable (handle (LightRemoveClick el) w)) as Hw'
    by (by constructor).
  pose proof (reachable_keys_inv _ Hw') as Hkeys'.
  pose proof (reachable_shape_inv _ Hw') as (Hshape' & _).
  pose proof (reachable_keys_inv _ Hw) as Hkeys.
  pose proof (reachable_shape_inv _ Hw) as (Hshape & _).
  destruct (reachable_panels w Hw) as [[_ _ Hs] _].
  destruct (Hs el Hel) as (d & Hd & Hr & _).
  destruct (reachable_link_inv w Hw) as [Hlink _].
  destruct (Hlink _ _ _ Hr Hd) as (l & o & Hl & Ho & Ha).
  exists d, l. revert Hw' Hkeys' Hshape'. simpl. unfold on_light.
  rewrite Hd. intros Hw' Hkeys' Hshape'.
  destruct (removeLight_effect _ _ w Hr)
    as (H3 & HLD & HOD & Hsl & Hso & _ & Hlc & _ & _ & Hoc & _).
  unfold SceneManager.getLight, SceneManager.getObject in *.
  assert (sm_objects
            (sceneManager (LightController.removeLight (ld_id d) w))
            !! (ld_id d +:+ "_helper") = None) as Hgone.
  { rewrite Hso, Hd. simpl. destruct (ld_helper d) as [h|] eqn:Hh.
    - apply lookup_delete_eq.
    - apply eq_None_not_Some.
      rewrite (keys_reg_objects _ _ _ _ _ _ _ _ _ Hkeys).
      destruct (keys_lights _ _ _ _ _ _ _ _ _ Hkeys (ld_id d))
        as (t & n & Heq & _); [by eexists|].
      intros [Hdef|[Htr|(i & (r' & d' & Hr' & Hd' & Hh') & Hi)]].
      + rewrite Heq in Hdef. by apply helper_not_default in Hdef.
      + rewrite Heq, helper_key_never_tracked in Htr by done.
        by destruct Htr.
      + apply helper_id_inj in Hi as <-.
        assert (d' = d) as -> by congruence. rewrite Hh in Hh'.
        by destruct Hh'. }
  split_and!; try done.
  - rewrite Hlc. apply lookup_delete_eq.
  - rewrite Hsl. apply lookup_delete_eq.
  - intros Hin. apply (shape_scene _ _ _ _ Hshape') in Hin.
    rewrite H3, Hsl in Hin.
    destruct (shape_light_kind _ _ _ _ Hshape _ _ Hl) as (o' & Ho' & Hk).
    destruct Hin as [(o1 & Ho1 & Hk1)|[[j Hj]|[j Hj]]].
    + congruence.
    + apply lookup_delete_Some in Hj as [Hne Hj]. apply Hne.
      by apply (proj2 (shape_lights _ _ _ _ Hshape) _ _ l).
    + rewrite Hso in Hj.
      assert (sm_objects (sceneManager w) !! j = Some l) as Hj'.
      { destruct (heapLD w !! le_lightData el ≫= ld_helper); [|done].
        by apply lookup_delete_Some in Hj as [_ ?]. }
      by apply (registered_apart _ _ _ _ _ _ _ Hshape Hl Hj').
  - intros h Hh Hin. apply (shape_scene _ _ _ _ Hshape') in Hin.
    rewrite H3, Hsl in Hin.
    destruct (shape_object_kind _ _ _ _ Hshape _ _ Hh)
      as (o' & Ho' & [Hk1 Hk2]).
    destruct Hin as [(o1 & Ho1 & Hk)|[[j Hj]|[j Hj]]].
    + congruence.
    + apply lookup_delete_Some in Hj as [_ Hj].
      by apply (registered_apart _ _ _ _ _ _ _ Hshape Hj Hh).
    + destruct (decide (j = ld_id d +:+ "_helper")) as [->|Hne].
      * by rewrite Hgone in Hj.
      * rewrite Hso in Hj.
        assert (sm_objects (sceneManager w) !! j = Some h) as Hj'.
        { destruct (heapLD w !! le_lightData el ≫= ld_helper); [|done].
          by apply lookup_delete_Some in Hj as [_ ?]. }
        by apply Hne, (proj2 (shape_objects _ _ _ _ Hshape) _ _ h).
  - intros j Hj. rewrite Hlc, Hsl. by rewrite !lookup_delete_ne.
  - by rewrite Hoc.
Qed.

Lemma light_remove_click_unregisters_witness :
  ∃ d l,
    heapLD one_point_light !! 1%positive = Some d ∧
    SceneManager.getLight (ld_id d) (sceneManager one_point_light) = Some l ∧
    (l ∉ scene (sceneManager
                  (handle (LightRemoveClick point_element) one_point_light))).
Proof.
  destruct (light_remove_click_unregisters one_point_light point_element
              reachable_one_point_light)
    as (d & l & Hd & Hl & _ & _ & _ & Hsc & _).
  - vm_compute. apply list_elem_of_here.
  - exists d, l. split_and!; [exact Hd|exact Hl|exact Hsc].
Defined.

(** ** Object types without a button *)



(** ** The object URL of a failed load *)

Lemma reachable_continues w w' : reachable w → continues w w' → reachable w'.
Proof. intros Hw. induction 1; [done|by constructor]. Qed.

Lemma held_related h h' m id url :
  heap_related same_origin_object h h' →
  held h' m id url → held h m id url.
Proof.
  intros Hrel (r & d' & Hr & Hd' & Hu). specialize (Hrel r).
  rewrite Hd' in Hrel. inversion Hrel as [d ? (_ & _ & Hc & Hm)|]; subst.
  exists r, d. split_and!; [done..|].
  unfold ObjectController.revocable in *. by rewrite <-Hc, <-Hm.
Qed.

Lemma unreferenced_step url e w :
  url_inv w → unreferenced url w → enabled e w →
  unreferenced url (handle e w).
Proof.
  intros Hinv (Hi & Hr & Hp & Hh) He.
  destruct (is_edit e) eqn:Hedit.
  { destruct (edit_frame e w Hedit) as (_ & _ & Hoc & Hb & _ & _ & HOD).
    unfold unreferenced. rewrite Hoc, Hb. split_and!; try done.
    intros id Hheld. apply (Hh id). by eapply held_related. }
  destruct e; try discriminate; clear Hedit.
  - destruct (addLight_effect type w)
      as (_ & _ & _ & _ & _ & _ & HOD & _ & _ & _ & _ & Hoc & Hb & _).
    unfold unreferenced. simpl handle. by rewrite HOD, Hoc, Hb.
  - simpl. unfold on_light. case_match; [|done].
    destruct (lc_lights (lightController w) !! ld_id l) as [r|] eqn:Hlr;
      last first.
    { unfold LightController.removeLight. by rewrite Hlr. }
    destruct (removeLight_effect _ r w Hlr)
      as (_ & _ & HOD & _ & _ & _ & _ & _ & _ & Hoc & Hb).
    unfold unreferenced. by rewrite HOD, Hoc, Hb.
  - simpl in He. destruct (supported_type _ He) as [g Hg].
    destruct (addObject_effect type g rnd_x rnd_z w Hg)
      as (_ & d & _ & _ & _ & Hc & _ & _ & HOD & _ & _ & _ & _ & Ho & _ & _
          & _ & _ & Hb).
    unfold unreferenced. simpl handle. rewrite HOD, Ho, Hb.
    split_and!; try done.
    intros id [[_ Hu]|[_ Hheld]]%held_insert.
    + unfold ObjectController.revocable in Hu. by rewrite Hc in Hu.
    + by apply (Hh id).
    + apply (allocated _ _ _ Hinv).
  - simpl. unfold on_object. case_match; [|done].
    destruct (oc_objects (objectController w) !! od_id o) as [r|] eqn:Hor;
      last first.
    { unfold ObjectController.removeObject. by rewrite Hor. }
    destruct (removeObject_effect _ r w Hor)
      as (_ & _ & HOD & _ & _ & _ & Ho & _ & _ & _ & _ & Hbc & Hld & Hrev).
    unfold unreferenced, issued. rewrite HOD, Ho, Hbc, Hld, Hrev.
    split_and!; try done.
    + destruct (heapOD w !! r) as [d|] eqn:Hd; simpl; [|done].
      destruct (ObjectController.revocable d) as [u|] eqn:Hu; [|done].
      apply not_elem_of_cons. split; [|done]. intros ->.
      apply (Hh (od_id o)). by exists r, d.
    + intros id [_ Hheld]%held_delete. by apply (Hh id).
  - destruct (handleModelUpload_effect w)
      as (_ & _ & HOD & _ & _ & Ho & _ & _ & _ & Hbc & Hrev & Hld).
    unfold unreferenced. simpl handle. rewrite HOD, Ho, Hrev, Hld.
    split_and!; try done.
    + destruct Hi as (k & -> & Hk). exists k. split; [done|].
      rewrite Hbc. lia.
    + intros id [[= _ ->]|Hin]%elem_of_cons; [|by apply (Hp id)].
      by apply (issued_not_next (browser w)).
  - destruct (modelLoaded_effect id objectURL center size w)
      as (_ & d & _ & _ & _ & Hc & Hm & _ & HOD & _ & _ & _ & _ & Ho & _ & _
          & _ & _ & Hbc & Hrev & Hld).
    unfold unreferenced, issued. rewrite HOD, Ho, Hbc, Hrev, Hld.
    split_and!; try done.
    + intros id' [_ Hin]%list_elem_of_filter. by apply (Hp id').
    + intros id' [[_ Hu]|[_ Hheld]]%held_insert.
      * unfold ObjectController.revocable in Hu. rewrite Hc, Hm in Hu.
        case_decide; simplify_eq. by apply (Hp id).
      * by apply (Hh id').
      * apply (allocated _ _ _ Hinv).
  - destruct (modelFailed_effect id objectURL w)
      as (_ & _ & HOD & _ & _ & Hoc & Hbc & Hrev & Hld).
    unfold unreferenced, issued. rewrite HOD, Hoc, Hbc, Hrev, Hld.
    split_and!; try done.
    intros id' [_ Hin]%list_elem_of_filter. by apply (Hp id').
Qed.

(** X12: when a load fails, the object URL that was created for it is left
    behind: in a reachable state with the load in flight, after the failure
    callback and whatever the session goes on to do, the URL is never
    passed to [URL.revokeObjectURL], no record holds it and no load carries
    it. *)
Theorem failed_upload_url_is_never_revoked (w w' : World) (id url : string) :
  reachable w →
  (id, url) ∈ loading (browser w) →
  continues (handle (ModelFailed id url) w) w' →
  (url ∉ revoked (browser w')) ∧
  (∀ id', (id', url) ∉ loading (browser w')) ∧
  (∀ id', ¬ held (heapOD w') (oc_objects (objectController w')) id' url).
Proof.
  intros Hw Hin Hc.
  assert (reachable (handle (ModelFailed id url) w)) as Hw0
    by (by constructor).
  assert (unreferenced url w') as (_ & ? & ? & ?); [|done].
  induction Hc as [|w' e Hc IH He].
  - pose proof (reachable_url_inv w Hw) as Hinv.
    destruct (modelFailed_effect id url w)
      as (_ & _ & HOD & _ & _ & Hoc & Hbc & Hrev & Hld).
    unfold unreferenced, issued. rewrite HOD, Hoc, Hbc, Hrev, Hld.
    split_and!.
    + by apply (pending_issued _ _ _ Hinv id).
    + by apply (pending_live _ _ _ Hinv id).
    + intros id' [Hne Hin']%list_elem_of_filter. apply Hne. f_equal.
      by apply (pending_unique _ _ _ Hinv _ _ url).
    + intros id' Hheld. by apply (held_not_pending _ _ _ Hinv _ id _ Hheld).
  - apply unreferenced_step; [|done..].
    apply reachable_url_inv. by apply (reachable_continues _ _ Hw0).
Qed.

Lemma failed_upload_url_is_never_revoked_witness :
  "blob:0" ∉ revoked (browser (handle ModelFileChosen one_failed_upload)).
Proof.
  refine (proj1 (failed_upload_url_is_never_revoked
                   (handle ModelFileChosen App.init)
                   (handle ModelFileChosen one_failed_upload)
                   "model_1" "blob:0" _ _ _)).
  - apply (reachable_step App.init ModelFileChosen); constructor.
  - vm_compute. apply list_elem_of_here.
  - apply (continues_step _ one_failed_upload ModelFileChosen);
      constructor.
Defined.

(** ** Adding and removing in the registry *)

Lemma children_remove_added (x : loc) (l : list loc) :
  x ∉ l → children_remove x (children_add x l) = l.
Proof.
  intros Hx. rewrite children_add_new by done.
  induction l as [|c l IH]; simpl.
  - by rewrite decide_True.
  - apply not_elem_of_cons in Hx as [Hne Hx].
    rewrite decide_False by done. by rewrite IH.
Qed.

(** X13: adding an entity to the registry under an id that is free, and
    removing that id again, gives back the registry as it was: both maps and
    the children of the scene.  (The entity must not be in the scene
    already.) *)
Theorem registry_add_remove_round_trip (id : string) (x : loc)
    (sm : SceneManager) :
  x ∉ scene sm →
  (sm_lights sm !! id = None →
   SceneManager.removeLight id (SceneManager.addLight id x sm).2
   = (true, sm)) ∧
  (sm_objects sm !! id = None →
   SceneManager.removeObject id (SceneManager.addObject id x sm).2
   = (true, sm)).
Proof.
  intros Hx. pose proof (children_remove_added x (scene sm) Hx) as Hsc.
  destruct sm as [sc sl so]. simpl in *.
  unfold SceneManager.removeLight, SceneManager.removeObject. simpl.
  rewrite !lookup_insert_eq, Hsc.
  split; intros Hid; by rewrite delete_insert_eq, delete_id.
Qed.

Lemma registry_add_remove_round_trip_witness :
  SceneManager.removeLight "point_9"
    (SceneManager.addLight "point_9" 9%positive registry_with_ambient_1).2
  = (true, registry_with_ambient_1).
Proof.
  apply (registry_add_remove_round_trip "point_9" 9%positive
           registry_with_ambient_1).
  - vm_compute. intros H. apply elem_of_cons in H as [H|H]; [discriminate|].
    by apply elem_of_nil in H.
  - reflexivity.
Defined.

(** ** Edits and the structure of a session *)

(** X14: an edit changes the fields of entities and records and nothing
    else: whatever the state, the handler of a colour, intensity, position,
    shadow, roughness, metalness, rotation or scale control leaves the
    registry with its scene, both metadata maps, the counters, both panels
    and the browser as they were, allocates nothing and frees nothing.  In
    particular no edit renders a panel again. *)
Theorem edits_keep_structure (e : Event) (w : World) :
  is_edit e = true →
  sceneManager (handle e w) = sceneManager w ∧
  lightController (handle e w) = lightController w ∧
  objectController (handle e w) = objectController w ∧
  browser (handle e w) = browser w ∧
  dom (heap3D (handle e w)) = dom (heap3D w) ∧
  dom (heapLD (handle e w)) = dom (heapLD w) ∧
  dom (heapOD (handle e w)) = dom (heapOD w).
Proof.
  intros He. destruct (edit_frame e w He) as (? & ? & ? & ? & H3 & HL & HO).
  split_and!; try done; apply set_eq; intros l; rewrite !elem_of_dom.
  - apply (related_is_Some _ _ _ _ H3).
  - apply (related_is_Some _ _ _ _ HL).
  - apply (related_is_Some _ _ _ _ HO).
Qed.

Lemma edits_keep_structure_witness :
  lightController (handle (LightPositionInput point_element 0 5)
                     one_point_light)
  = lightController one_point_light.
Proof.
  refine (proj1 (proj2 (edits_keep_structure
                          (LightPositionInput point_element 0 5)
                          one_point_light _))).
  reflexivity.
Defined.

(** ** The controls of an element take effect *)

Lemma color_after_refresh (h h1 : gmap loc Object3D) (H l : loc) :
  alter (helper_refresh h) H h1 !! l ≫= light_color = h1 !! l ≫= light_color.
Proof.
  destruct (decide (H = l)) as [->|Hne].
  - rewrite lookup_alter_eq. destruct (h1 !! l) as [[[] ? ? ? ? ?]|]; done.
  - by rewrite lookup_alter_ne.
Qed.

Lemma instance_of_shadow type o :
  instance_of type o = true → type = directional ∨ type = spot →
  is_directional_or_spot o = true.
Proof.
  unfold instance_of, is_directional_or_spot.
  intros Hi [-> | ->]; by destruct (o_class o).
Qed.

(** X15: in a reachable state, the colour input of a light's panel element
    and, where the element has one, its shadow checkbox take effect on both
    sides: the live light and the record get the value entered.  The
    [instanceof] guard of [updateShadowCasting] never stops an edit that the
    panel offers. *)
Theorem light_controls_take_effect (w : World) (el : LightElement) :
  reachable w →
  el ∈ lc_panel (lightController w) →
  ∃ d l,
    heapLD w !! le_lightData el = Some d ∧
    SceneManager.getLight (ld_id d) (sceneManager w) = Some l ∧
    (∀ c, let w' := handle (LightColorChange el c) w in
       heap3D w' !! l ≫= light_color = Some (ColorStyle c) ∧
       ld_color <$> heapLD w' !! le_lightData el = Some c) ∧
    (∀ b, le_shadow el = true →
       let w' := handle (LightShadowChange el b) w in
       o_castShadow <$> heap3D w' !! l = Some b ∧
       ld_castShadow <$> heapLD w' !! le_lightData el = Some (Some b)).
Proof.
  intros Hw Hel.
  destruct (reachable_panels w Hw) as [[_ _ Hs] _].
  destruct (Hs el Hel) as (d & Hd & Hr & _ & Hsh).
  destruct (reachable_link_inv w Hw) as [Hlink _].
  destruct (Hlink _ _ _ Hr Hd) as (l & o & Hl & Ho & Ha).
  exists d, l. split_and!; [done..| |].
  - intros c. simpl. unfold on_light. rewrite Hd.
    unfold LightController.updateLightColor,
      LightController.refresh_helper_of, helper_update,
      SceneManager.getLight.
    rewrite Hl, Hr. simpl. rewrite lookup_alter_eq, Hd. simpl.
    destruct (la_color _ _ _ Ha) as (c0 & Hc0 & _).
    destruct (ld_helper d); simpl; rewrite ?color_after_refresh;
      rewrite !lookup_alter_eq, ?Hd, Ho; simpl;
      (split; [|done]); apply color_set_light_color; by eexists.
  - intros b Hb. simpl. unfold on_light. rewrite Hd.
    unfold LightController.updateShadowCasting, SceneManager.getLight.
    rewrite Hl, Hr, Ho.
    rewrite (instance_of_shadow (ld_type d) o);
      [|exact (la_class _ _ _ Ha)|by apply Hsh]. simpl.
    by rewrite !lookup_alter_eq, Hd, Ho.
Qed.

Lemma light_controls_take_effect_witness :
  ∃ d l,
    heapLD one_point_light !! 1%positive = Some d ∧
    SceneManager.getLight (ld_id d) (sceneManager one_point_light) = Some l ∧
    heap3D (handle (LightColorChange point_element "#ff0000") one_point_light)
      !! l ≫= light_color = Some (ColorStyle "#ff0000").
Proof.
  destruct (light_controls_take_effect one_point_light point_element
              reachable_one_point_light)
    as (d & l & Hd & Hl & Hc & _).
  - vm_compute. apply list_elem_of_here.
  - exists d, l. split_and!; [exact Hd|exact Hl|exact (proj1 (Hc "#ff0000"))].
Defined.

(** X16: in a reachable state, the colour, roughness and metalness controls
    of an object's panel element, which only the element of a primitive has,
    take effect on both sides: the material of the live mesh and the record
    get the value entered.  The [instanceof THREE.Mesh] guard never stops an
    edit that the panel offers. *)
Theorem material_controls_take_effect (w : World) (el : ObjectElement) :
  reachable w →
  el ∈ oc_panel (objectController w) →
  oe_material el = true →
  ∃ d o,
    heapOD w !! oe_objectData el = Some d ∧
    SceneManager.getObject (od_id d) (sceneManager w) = Some o ∧
    (∀ c, let w' := handle (ObjectColorChange el c) w in
       mat_color <$> (heap3D w' !! o ≫= material_of)
         = Some (ColorStyle c) ∧
       od_color <$> heapOD w' !! oe_objectData el = Some c) ∧
    (∀ x, let w' := handle (ObjectRoughnessInput el x) w in
       mat_roughness <$> (heap3D w' !! o ≫= material_of) = Some x ∧
       od_roughness <$> heapOD w' !! oe_objectData el = Some x) ∧
    (∀ x, let w' := handle (ObjectMetalnessInput el x) w in
       mat_metalness <$> (heap3D w' !! o ≫= material_of) = Some x ∧
       od_metalness <$> heapOD w' !! oe_objectData el = Some x).
Proof.
  intros Hw Hel Hmat.
  destruct (reachable_panels w Hw) as [_ [_ _ Hs]].
  destruct (Hs el Hel) as (d & Hd & Hr & Hm).
  destruct (reachable_link_inv w Hw) as [_ Hlink].
  destruct (Hlink _ _ _ Hr Hd) as (o & obj & Ho & Hobj & Ha).
  destruct (oa_primitive _ _ _ Ha) as (g & n & mat & _ & _ & Hcl & _);
    [by apply Hm|].
  assert (is_Mesh obj = true) as Hmesh by (unfold is_Mesh; by rewrite Hcl).
  exists d, o. split_and!; [done..| | |]; intros x; simpl;
    unfold on_object; rewrite Hd;
    unfold ObjectController.updateObjectColor,
      ObjectController.updateObjectRoughness,
      ObjectController.updateObjectMetalness,
      ObjectController.material_edit, SceneManager.getObject;
    rewrite Ho, Hr, Hobj, Hmesh; simpl;
    rewrite !lookup_alter_eq, Hd, Hobj; simpl;
    unfold material_of, set_material; rewrite Hcl; done.
Qed.

Lemma material_controls_take_effect_witness :
  ∃ d o,
    heapOD one_box !! 1%positive = Some d ∧
    SceneManager.getObject (od_id d) (sceneManager one_box) = Some o ∧
    mat_roughness <$>
      (heap3D (handle (ObjectRoughnessInput box_element 0.75) one_box) !! o
         ≫= material_of) = Some 0.75%float.
Proof.
  destruct (material_controls_take_effect one_box box_element
              reachable_one_box)
    as (d & o & Hd & Ho & _ & Hr & _).
  - vm_compute. apply list_elem_of_here.
  - reflexivity.
  - exists d, o. split_and!; [exact Hd|exact Ho|exact (proj1 (Hr 0.75%float))].
Defined.

(** ** The helpers of the lights *)

Section HelperLink.

Implicit Types (h : gmap loc Object3D) (hLD : gmap loc LightData).

Implicit Types (lc sl so : gmap string loc).

Lemma helper_view_alter_ne f x h l :
  l ≠ x → helper_view (alter f x h) l = helper_view h l.
Proof. intros Hne. unfold helper_view. by rewrite lookup_alter_ne. Qed.

Lemma helper_view_insert_ne o x h l :
  l ≠ x → helper_view (<[x := o]> h) l = helper_view h l.
Proof. intros Hne. unfold helper_view. by rewrite lookup_insert_ne. Qed.

Lemma helper_view_alter_keep f x h l :
  (∀ o, light_color (f o) = light_color o ∧ o_position (f o) = o_position o) →
  helper_view (alter f x h) l = helper_view h l.
Proof.
  intros Hf. destruct (decide (l = x)) as [->|Hne];
    [|by apply helper_view_alter_ne].
  unfold helper_view. rewrite lookup_alter_eq.
  destruct (h !! x) as [o|]; [|done]. simpl.
  destruct (Hf o) as [-> ->]. done.
Qed.

Lemma helper_refresh_of t h o :
  helper_of t (helper_refresh h o) = helper_of t o.
Proof. destruct o as [[] ? ? ? ? ?], t; reflexivity. Qed.

Lemma helper_refresh_light h o :
  helper_light (helper_refresh h o) = helper_light o.
Proof. destruct o as [[] ? ? ? ? ?]; reflexivity. Qed.

Lemma helper_refresh_shown h o l :
  helper_light o = Some l → helper_shown (helper_refresh h o) = helper_view h l.
Proof. destruct o as [[] ? ? ? ? ?]; intros [= ->]; reflexivity. Qed.

Lemma helper_of_kind t o : helper_of t o = true → kind o = KLightHelper.
Proof. unfold helper_of, kind. by destruct t, (o_class o). Qed.

(** The records change, the helper they name does not. *)
Lemma helper_link_related h hLD hLD' lc sl so :
  heap_related same_origin_light hLD hLD' →
  helper_link h hLD lc sl so → helper_link h hLD' lc sl so.
Proof.
  intros Hrel Hinv id r d' hl Hr Hd' Hh. specialize (Hrel r).
  rewrite Hd' in Hrel. inversion Hrel as [d ? (_ & Ht & Hhd) Hd|]; subst.
  rewrite Ht. apply (Hinv id r d hl); [done|done|congruence].
Qed.

(** An update of a node that is no helper, and either is no registered light
    or keeps colour and position. *)
Lemma helper_link_alter f x h hLD lc sl so :
  (∀ o, h !! x = Some o → kind o ≠ KLightHelper) →
  (∀ id, sl !! id ≠ Some x) ∨
  (∀ o, light_color (f o) = light_color o ∧ o_position (f o) = o_position o) →
  helper_link h hLD lc sl so → helper_link (alter f x h) hLD lc sl so.
Proof.
  intros Hx Hf Hinv id r d hl Hr Hd Hh.
  destruct (Hinv id r d hl Hr Hd Hh)
    as (l & oh & Hso & Hsl & Hoh & Hof & Hl & Hv).
  exists l, oh. split_and!; try done.
  - rewrite lookup_alter_ne; [done|]. intros <-.
    apply (Hx _ Hoh). by eapply helper_of_kind.
  - rewrite Hv. symmetry. destruct Hf as [Hf|Hf].
    + apply helper_view_alter_ne. intros ->. by apply (Hf id).
    + by apply helper_view_alter_keep.
Qed.

(** An update of the light of a record followed by the refresh of its
    helper. *)
Lemma helper_link_refresh f id0 r0 d0 hl0 l0 h sc hLD lc sl so :
  shape_ok h sc sl so →
  lc !! id0 = Some r0 → hLD !! r0 = Some d0 → ld_helper d0 = Some hl0 →
  sl !! id0 = Some l0 →
  helper_link h hLD lc sl so →
  helper_link (alter (helper_refresh (alter f l0 h)) hl0 (alter f l0 h))
              hLD lc sl so.
Proof.
  intros Hs Hr0 Hd0 Hh0 Hl0 Hinv id r d hl Hr Hd Hh.
  destruct (Hinv id r d hl Hr Hd Hh)
    as (l & oh & Hso & Hsl & Hoh & Hof & Hl & Hv).
  destruct (Hinv id0 r0 d0 hl0 Hr0 Hd0 Hh0)
    as (l0' & oh0 & Hso0 & Hsl0 & Hoh0 & Hof0 & Hl0' & Hv0).
  assert (l0' = l0) as -> by congruence.
  assert (∀ i i' x y, sl !! i = Some x → so !! i' = Some y → x ≠ y) as Hapart.
  { intros i i' x y Hx Hy ->. by eapply registered_apart. }
  pose proof (Hapart _ _ _ _ Hsl Hso0) as Hne1.
  pose proof (Hapart _ _ _ _ Hsl0 Hso) as Hne2.
  pose proof (Hapart _ _ _ _ Hsl0 Hso0) as Hne3.
  destruct (decide (id = id0)) as [->|Hid].
  - assert (r = r0) as -> by congruence.
    assert (d = d0) as -> by congruence.
    assert (hl = hl0) as -> by congruence.
    exists l0, (helper_refresh (alter f l0 h) oh0). split_and!; try done.
    + rewrite lookup_alter_eq, lookup_alter_ne by done. by rewrite Hoh0.
    + by rewrite helper_refresh_of.
    + by rewrite helper_refresh_light.
    + rewrite (helper_refresh_shown _ _ l0) by done.
      symmetry. by apply helper_view_alter_ne.
  - assert (hl ≠ hl0) as Hne4.
    { intros ->. destruct Hs as [_ [_ Hinj] _ _ _ _].
      apply Hid, helper_id_inj. by eapply Hinj. }
    assert (l ≠ l0) as Hne5.
    { intros ->. destruct Hs as [[_ Hinj] _ _ _ _ _].
      apply Hid. by eapply Hinj. }
    exists l, oh. split_and!; try done.
    + by rewrite !lookup_alter_ne.
    + rewrite Hv. symmetry.
      rewrite helper_view_alter_ne by done. by apply helper_view_alter_ne.
Qed.

Lemma helper_link_allocE x h hLD lc sl so :
  refs_ok h sl →
  helper_link h hLD lc sl so →
  helper_link (<[fresh (dom h) := x]> h) hLD lc sl so.
Proof.
  intros [Hal _] Hinv id r d hl Hr Hd Hh.
  destruct (Hinv id r d hl Hr Hd Hh)
    as (l & oh & Hso & Hsl & Hoh & Hof & Hl & Hv).
  exists l, oh. split_and!; try done.
  - rewrite lookup_insert_ne; [done|]. intros <-.
    by rewrite fresh_heap_None in Hoh.
  - rewrite Hv. symmetry. apply helper_view_insert_ne. intros ->.
    destruct (Hal _ _ Hsl) as [? Hsome]. by rewrite fresh_heap_None in Hsome.
Qed.

Lemma helper_link_allocA x h hLD lc sl so :
  refs_ok hLD lc →
  helper_link h hLD lc sl so →
  helper_link h (<[fresh (dom hLD) := x]> hLD) lc sl so.
Proof.
  intros [Hal _] Hinv id r d hl Hr Hd Hh.
  rewrite lookup_insert_ne in Hd; [by eapply Hinv|].
  intros <-. destruct (Hal _ _ Hr) as [? Hsome].
  by rewrite fresh_heap_None in Hsome.
Qed.

(** A new key in the objects map. *)
Lemma helper_link_insert k x h hLD lc sl so :
  so !! k = None →
  helper_link h hLD lc sl so → helper_link h hLD lc sl (<[k := x]> so).
Proof.
  intros Hk Hinv id r d hl Hr Hd Hh.
  destruct (Hinv id r d hl Hr Hd Hh) as (l & oh & Hso & Hrest).
  exists l, oh. split; [|done].
  rewrite lookup_insert_ne; [done|]. intros ->. congruence.
Qed.

(** A key leaves the objects map that is the helper key of no record. *)
Lemma helper_link_delete k h hLD lc sl so :
  (∀ id, is_Some (lc !! id) → k ≠ id +:+ "_helper") →
  helper_link h hLD lc sl so → helper_link h hLD lc sl (delete k so).
Proof.
  intros Hk Hinv id r d hl Hr Hd Hh.
  destruct (Hinv id r d hl Hr Hd Hh) as (l & oh & Hso & Hrest).
  exists l, oh. split; [|done].
  rewrite lookup_delete_ne; [done|]. apply Hk. by eexists.
Qed.

(** A light is registered with its record. *)
Lemma helper_link_register id0 r0 l0 h hLD lc sl so so' :
  lc !! id0 = None →
  (∀ id, id ≠ id0 → so' !! (id +:+ "_helper") = so !! (id +:+ "_helper")) →
  (∀ d hl, hLD !! r0 = Some d → ld_helper d = Some hl →
     ∃ oh, so' !! (id0 +:+ "_helper") = Some hl ∧
           h !! hl = Some oh ∧ helper_of (ld_type d) oh = true ∧
           helper_light oh = Some l0 ∧ helper_shown oh = helper_view h l0) →
  helper_link h hLD lc sl so →
  helper_link h hLD (<[id0 := r0]> lc) (<[id0 := l0]> sl) so'.
Proof.
  intros Hfresh Hso' Hnew Hinv id r d hl Hr Hd Hh.
  apply lookup_insert_Some in Hr as [[-> ->]|[Hne Hr]].
  - destruct (Hnew d hl Hd Hh) as (oh & ? & ? & ? & ? & ?).
    exists l0, oh. split_and!; try done. apply lookup_insert_eq.
  - destruct (Hinv id r d hl Hr Hd Hh)
      as (l & oh & Hso & Hsl & ? & ? & ? & ?).
    exists l, oh. split_and!; try done.
    + rewrite Hso'; done.
    + by rewrite lookup_insert_ne.
Qed.

(** A light leaves with its record. *)
Lemma helper_link_remove id0 h hLD lc sl so so' :
  (∀ id, id ≠ id0 → so' !! (id +:+ "_helper") = so !! (id +:+ "_helper")) →
  helper_link h hLD lc sl so →
  helper_link h hLD (delete id0 lc) (delete id0 sl) so'.
Proof.
  intros Hso' Hinv id r d hl Hr Hd Hh.
  apply lookup_delete_Some in Hr as [Hne Hr].
  destruct (Hinv id r d hl Hr Hd Hh) as (l & oh & Hso & Hsl & ? & ? & ? & ?).
  exists l, oh. split_and!; try done.
  - rewrite Hso'; done.
  - by rewrite lookup_delete_ne.
Qed.

End HelperLink.

(** The helper [addLight] builds shows the light it has just built. *)
Lemma addLight_helper type w :
  let w' := LightController.addLight type w in
  ∀ d hl,
    heapLD w' !! fresh (dom (heapLD w)) = Some d →
    ld_helper d = Some hl →
    ∃ oh, heap3D w' !! hl = Some oh ∧ helper_of (ld_type d) oh = true ∧
          helper_light oh = Some (fresh (dom (heap3D w))) ∧
          helper_shown oh = helper_view (heap3D w') (fresh (dom (heap3D w))).
Proof.
  assert (∀ (o : Object3D),
            fresh (dom (<[fresh (dom (heap3D w)) := o]> (heap3D w)))
            ≠ fresh (dom (heap3D w))) as Hne.
  { intros o Heq.
    pose proof (fresh_heap_None (<[fresh (dom (heap3D w)) := o]> (heap3D w)))
      as Hf.
    rewrite Heq, lookup_insert_eq in Hf. done. }
  destruct type; simpl; intros d hl Hd Hh;
    rewrite lookup_insert_eq in Hd; simplify_eq/=.
  all: eexists; split_and!; [apply lookup_insert_eq|reflexivity..|].
  all: simpl; symmetry; apply helper_view_insert_ne; intros Heq;
    symmetry in Heq; by apply Hne in Heq.
Qed.

Lemma keeps_view_set_light_intensity v o :
  light_color (set_light_intensity v o) = light_color o ∧
  o_position (set_light_intensity v o) = o_position o.
Proof. destruct o as [[] ? ? ? ? ?]; by split. Qed.

Lemma keeps_view_with_castShadow b o :
  light_color (with_castShadow b o) = light_color o ∧
  o_position (with_castShadow b o) = o_position o.
Proof. by split. Qed.

(** The node an edit of a light works on is no helper. *)
Lemma light_no_helper h sc sl so id l :
  shape_ok h sc sl so → sl !! id = Some l →
  ∀ o, h !! l = Some o → kind o ≠ KLightHelper.
Proof.
  intros [_ _ Hk _ _ _] Hl o Ho. destruct (Hk _ _ Hl) as (o' & Ho' & Hkind).
  assert (o' = o) as -> by congruence. by rewrite Hkind.
Qed.

(** The node an edit of a tracked object works on is no helper and no
    light. *)
Lemma helper_link_edit_object w id r x f :
  shape_inv w → link_inv w →
  oc_objects (objectController w) !! id = Some r →
  sm_objects (sceneManager w) !! id = Some x →
  helper_inv w →
  helper_link (alter f x (heap3D w)) (heapLD w)
    (lc_lights (lightController w)) (sm_lights (sceneManager w))
    (sm_objects (sceneManager w)).
Proof.
  intros (Hs & _ & [Hal _]) [_ Hol] Hid Hx Hinv.
  apply helper_link_alter; [| |done].
  - intros o Ho. destruct (Hal _ _ Hid) as [d Hd].
    destruct (Hol id r d Hid Hd) as (x' & o' & Hx' & Ho' & Hag).
    assert (x' = x) as -> by congruence.
    assert (o' = o) as -> by congruence.
    destruct (object_agrees_kind _ _ _ Hag) as [-> | ->]; done.
  - left. intros i Hi. by eapply registered_apart.
Qed.

(** An update of a light whose record names no helper. *)
Lemma helper_link_alter_light f id0 l0 h sc hLD lc sl so :
  shape_ok h sc sl so →
  sl !! id0 = Some l0 →
  (∀ r d, lc !! id0 = Some r → hLD !! r = Some d → ld_helper d = None) →
  helper_link h hLD lc sl so → helper_link (alter f l0 h) hLD lc sl so.
Proof.
  intros Hs Hl0 Hnone Hinv id r d hl Hr Hd Hh.
  destruct (Hinv id r d hl Hr Hd Hh)
    as (l & oh & Hso & Hsl & Hoh & Hof & Hl & Hv).
  assert (id ≠ id0) as Hid.
  { intros ->. rewrite (Hnone r d Hr Hd) in Hh. done. }
  assert (l ≠ l0) as Hne.
  { intros ->. destruct Hs as [[_ Hinj] _ _ _ _ _]. apply Hid. by eapply Hinj. }
  assert (hl ≠ l0) as Hne'.
  { intros ->. exact (registered_apart _ _ _ _ _ _ _ Hs Hl0 Hso). }
  exists l, oh. split_and!; try done.
  - by rewrite lookup_alter_ne.
  - rewrite Hv. symmetry. by apply helper_view_alter_ne.
Qed.

(** The record the refresh of a helper reads, before the edit. *)
Lemma edited_record (g : LightData → LightData) (r : loc)
    (hLD : gmap loc LightData) d' :
  (∀ d, ld_helper (g d) = ld_helper d) →
  alter g r hLD !! r = Some d' →
  ∃ d, hLD !! r = Some d ∧ ld_helper d = ld_helper d'.
Proof.
  intros Hg. rewrite lookup_alter_eq. intros (d & Hd & ->)%fmap_Some.
  exists d. by rewrite Hg.
Qed.

Lemma helper_inv_edit e w :
  is_edit e = true → shape_inv w → link_inv w → helper_inv w →
  helper_inv (handle e w).
Proof.
  intros Hedit Hshape Hlink Hinv. pose proof Hshape as (Hs & Hlr & Hor).
  unfold helper_inv in *.
  destruct e; try discriminate; clear Hedit; expose;
    unfold SceneManager.getLight, SceneManager.getObject in *;
    repeat case_match; try done; simpl;
    try (eapply (helper_link_related _ (heapLD w));
         [by repeat related_step|]);
    try (by eapply helper_link_edit_object).
  all: try match goal with
       | H : heapLD _ !! _ = Some _ |- _ =>
           simpl in H; apply edited_record in H as (d0 & Hd0 & Hh0); [|done]
       | H : heapLD _ !! _ = None |- _ =>
           simpl in H; rewrite lookup_alter_eq, fmap_None in H
       end.
  - by eapply helper_link_refresh; [| | |rewrite Hh0| |].
  - eapply helper_link_alter_light; [done..| |done].
    intros r d Hr Hd. congruence.
  - eapply helper_link_alter_light; [done..| |done].
    intros r d Hr Hd. congruence.
  - apply helper_link_alter; [by eapply light_no_helper| |done].
    right. apply keeps_view_set_light_intensity.
  - by eapply helper_link_refresh; [| | |rewrite Hh0| |].
  - eapply helper_link_alter_light; [done..| |done].
    intros r d Hr Hd. congruence.
  - eapply helper_link_alter_light; [done..| |done].
    intros r d Hr Hd. congruence.
  - apply helper_link_alter; [by eapply light_no_helper| |done].
    right. apply keeps_view_with_castShadow.
Qed.

Lemma helper_inv_addLight type w :
  keys_inv w → shape_inv w → helper_inv w →
  helper_inv (LightController.addLight type w).
Proof.
  intros Hkeys (Hs & Hlr & _) Hinv.
  pose proof (light_key_fresh _ _ _ _ _ _ _ _ _ type Hkeys) as Hfresh.
  pose proof (addLight_helper type w) as Hnew.
  destruct (addLight_effect type w)
    as (light & d & _ & _ & _ & HLD & _ & Hsl & Hlcm & _ & _ & _ & _
        & Hhelper).
  simpl in Hnew. unfold helper_inv. rewrite Hsl, Hlcm.
  pose proof Hs as [Hsl0 _ _ _ _ _].
  eapply helper_link_register with (so := sm_objects (sceneManager w)).
  - exact Hfresh.
  - intros id Hid.
    destruct (ld_helper d); [|by destruct Hhelper as (_ & _ & -> & _)].
    destruct Hhelper as (_ & _ & helper & _ & _ & -> & _).
    rewrite lookup_insert_ne; [done|]. by intros ?%helper_id_inj.
  - intros d' hl Hd' Hh. destruct (Hnew d' hl Hd' Hh) as (oh & ? & ? & ? & ?).
    exists oh. split_and!; try done.
    rewrite HLD, lookup_insert_eq in Hd'. injection Hd' as <-.
    rewrite Hh in Hhelper.
    destruct Hhelper as (_ & _ & helper & _ & _ & -> & _).
    apply lookup_insert_eq.
  - rewrite HLD. apply helper_link_allocA; [done|].
    destruct (ld_helper d).
    + destruct Hhelper as (_ & -> & helper & _ & -> & _).
      apply helper_link_allocE; [by apply refs_ok_alloc|].
      by apply helper_link_allocE.
    + destruct Hhelper as (_ & -> & _). by apply helper_link_allocE.
Qed.

Lemma helper_inv_removeLight id w :
  helper_inv w → helper_inv (LightController.removeLight id w).
Proof.
  intros Hinv.
  destruct (lc_lights (lightController w) !! id) as [r|] eqn:Hr; last first.
  { unfold LightController.removeLight. by rewrite Hr. }
  destruct (removeLight_effect id r w Hr)
    as (H3 & HLD & _ & Hsl & Hso & _ & Hlc & _).
  unfold helper_inv. rewrite H3, HLD, Hsl, Hlc.
  eapply helper_link_remove; [|exact Hinv].
  intros i Hi. rewrite Hso. destruct (heapLD w !! r ≫= ld_helper); [|done].
  rewrite lookup_delete_ne; [done|]. by intros ?%helper_id_inj.
Qed.

(** The key of a tracked object, or of one about to be, is the helper key of
    no light. *)
Lemma object_key_no_helper w k :
  keys_inv w → is_object_id k →
  ∀ id, is_Some (lc_lights (lightController w) !! id) → k ≠ id +:+ "_helper".
Proof.
  intros Hkeys Hk id Hid ->.
  destruct (keys_lights _ _ _ _ _ _ _ _ _ Hkeys id Hid) as (t & n & -> & _).
  by apply helper_not_object_id in Hk.
Qed.

Lemma helper_inv_new_object id o w w' :
  shape_inv w →
  sm_objects (sceneManager w) !! id = None →
  heap3D w' = <[fresh (dom (heap3D w)) := o]> (heap3D w) →
  heapLD w' = heapLD w →
  lightController w' = lightController w →
  sm_lights (sceneManager w') = sm_lights (sceneManager w) →
  sm_objects (sceneManager w')
    = <[id := fresh (dom (heap3D w))]> (sm_objects (sceneManager w)) →
  helper_inv w → helper_inv w'.
Proof.
  intros ([Hsl _ _ _ _ _] & _) Hnone H3 HLD Hlc Hl Hso Hinv.
  unfold helper_inv. rewrite H3, HLD, Hlc, Hl, Hso.
  apply helper_link_insert; [done|]. by apply helper_link_allocE.
Qed.

Lemma helper_inv_step e w :
  keys_inv w → shape_inv w → link_inv w → helper_inv w → enabled e w →
  helper_inv (handle e w).
Proof.
  intros Hkeys Hshape Hlink Hinv He.
  destruct (is_edit e) eqn:Hedit; [by apply helper_inv_edit|].
  destruct e; try discriminate; clear Hedit.
  - by apply helper_inv_addLight.
  - simpl. unfold on_light. case_match; [|done].
    by apply helper_inv_removeLight.
  - simpl in He. destruct (supported_type _ He) as [g Hg].
    destruct (addObject_effect type g rnd_x rnd_z w Hg)
      as (mesh & d & _ & _ & _ & _ & _ & H3 & _ & HLD & _ & Hsl & Hso
          & _ & _ & _ & _ & Hl & _).
    eapply (helper_inv_new_object _ mesh); try done.
    eapply reg_object_fresh; [exact Hkeys|by left; eexists _, _, _|].
    by eapply object_key_fresh.
  - simpl. unfold on_object. case_match; [|done].
    destruct (oc_objects (objectController w) !! od_id o) as [r|] eqn:Hr;
      last first.
    { unfold ObjectController.removeObject. by rewrite Hr. }
    destruct (removeObject_effect (od_id o) r w Hr)
      as (H3 & HLD & _ & Hsl & Hso & _ & _ & _ & _ & _ & Hl & _).
    unfold helper_inv. rewrite H3, HLD, Hsl, Hso, Hl.
    apply helper_link_delete; [|done].
    apply object_key_no_helper; [done|].
    eapply tracked_object_id; [exact Hkeys|by eexists].
  - destruct (handleModelUpload_effect w) as (H3 & HLD & _ & Hsm & Hl & _).
    unfold helper_inv. simpl handle. by rewrite H3, HLD, Hsm, Hl.
  - destruct (modelLoaded_effect id objectURL center size w)
      as (model & d & _ & _ & _ & _ & _ & H3 & _ & HLD & _ & Hsl & Hso
          & _ & _ & _ & _ & Hl & _).
    eapply (helper_inv_new_object _ model); try done.
    simpl in He. destruct (keys_pending _ _ _ _ _ _ _ _ _ Hkeys _ _ He)
      as [(n & -> & _) Hnone].
    eapply reg_object_fresh; [exact Hkeys| |done].
    right. by exists (number_text n).
  - destruct (modelFailed_effect id objectURL w)
      as (H3 & HLD & _ & Hsm & Hl & _).
    unfold helper_inv. by rewrite H3, HLD, Hsm, Hl.
Qed.

Lemma helper_inv_init : helper_inv App.init.
Proof. intros id r d hl Hr. vm_compute in Hr. discriminate. Qed.

Lemma reachable_helper_inv w : reachable w → helper_inv w.
Proof.
  induction 1 as [|w e Hw IH He]; [apply helper_inv_init|].
  apply helper_inv_step;
    [by apply reachable_keys_inv|by apply reachable_shape_inv
    |by apply reachable_link_inv|done..].
Qed.

(** X17: in every reachable state each record of the light controller whose
    type is not ambient has its helper: the node the registry holds under the
    id of the light followed by [_helper].  It is an instance of the helper
    class of the record's type, it was built for the live light of the
    record, and it shows the colour and the position the light has now: the
    colour and position edits refresh it, and no other edit changes what it
    shows. *)
Theorem helper_shows_its_light (w : World) (id : string) (r : loc)
    (d : LightData) :
  reachable w →
  lc_lights (lightController w) !! id = Some r →
  heapLD w !! r = Some d →
  ld_type d ≠ ambient →
  ∃ hl oh l o c,
    ld_helper d = Some hl ∧
    SceneManager.getObject (id +:+ "_helper") (sceneManager w) = Some hl ∧
    heap3D w !! hl = Some oh ∧
    helper_of (ld_type d) oh = true ∧
    helper_light oh = Some l ∧
    SceneManager.getLight id (sceneManager w) = Some l ∧
    heap3D w !! l = Some o ∧
    light_color o = Some c ∧
    helper_shown oh = Some (mkHelperView c (o_position o)).
Proof.
  intros Hw Hr Hd Ht.
  destruct (reachable_link_inv w Hw) as [Hlink _].
  destruct (Hlink id r d Hr Hd)
    as (l & o & Hl & Ho & [_ _ _ _ (c & Hc & _) _ _ Hhelper]).
  destruct (proj2 Hhelper Ht) as [hl Hh].
  destruct (reachable_helper_inv w Hw id r d hl Hr Hd Hh)
    as (l' & oh & Hso & Hsl & Hoh & Hof & Hhl & Hv).
  assert (l' = l) as -> by congruence.
  exists hl, oh, l, o, c. split_and!; try done.
  rewrite Hv. unfold helper_view. by rewrite Ho, Hc.
Qed.

Lemma helper_shows_its_light_witness :
  ∃ hl oh,
    SceneManager.getObject "point_1_helper" (sceneManager one_point_light)
      = Some hl ∧
    heap3D one_point_light !! hl = Some oh ∧
    helper_shown oh
      = Some (mkHelperView (ColorHex 0xffffff) (mkVector3 2 2 2)).
Proof.
  destruct (helper_shows_its_light one_point_light "point_1" 1%positive
              (mkLightData "point_1" point "#ffffff" 1
                 (Some (mkVector3 2 2 2)) None None (Some 7%positive))
              reachable_one_point_light)
    as (hl & oh & l & o & c & _ & Hso & Hoh & _ & _ & Hl & Ho & Hc & Hv);
    [vm_compute; reflexivity..|done|].
  exists hl, oh. split_and!; [exact Hso|exact Hoh|].
  vm_compute in Hl. injection Hl as <-.
  vm_compute in Ho. injection Ho as <-.
  vm_compute in Hc. injection Hc as <-.
  exact Hv.
Defined.

(** ** An id that is written twice *)

Lemma children_remove_keeps (o x : loc) (children : list loc) :
  x ≠ o → x ∈ children → x ∈ children_remove o children.
Proof.
  intros Hne. induction children as [|c rest IH]; simpl; [done|].
  intros [->|Hin]%elem_of_cons.
  - rewrite decide_False by done. apply list_elem_of_here.
  - case_decide; [done|]. apply list_elem_of_further. by apply IH.
Qed.

Lemma children_add_keeps (o x : loc) (children : list loc) :
  x ∈ children → x ∈ children_add o children.
Proof.
  intros Hin. unfold children_add. rewrite elem_of_app.
  destruct (decide (x = o)) as [->|Hne].
  - right. apply list_elem_of_here.
  - left. by apply children_remove_keeps.
Qed.

Lemma NoDup_children_add (o : loc) (children : list loc) :
  NoDup children → NoDup (children_add o children).
Proof.
  intros Hnd. unfold children_add. apply NoDup_app. split_and!.
  - by apply NoDup_children_remove.
  - intros x [_ Hx]%elem_of_children_remove; [|done].
    by intros ->%list_elem_of_singleton.
  - apply NoDup_singleton.
Qed.

Lemma children_remove_add (o : loc) (children : list loc) :
  NoDup children → o ∉ children_remove o (children_add o children).
Proof.
  intros Hnd [_ Hne]%elem_of_children_remove; [done|].
  by apply NoDup_children_add.
Qed.

(** X18: the registry does not look whether an id is taken.  When a light is
    added under an id that holds another light, the light stored before
    stays a child of the scene although no id of the lights map leads to it
    any more: [removeLight] of that id takes the new light out and leaves the
    old one in the scene, and so does [removeLight] of any other id.
    [addObject] and [removeObject] do the same on the objects map.  (The
    scene lists no child twice, and the old entity is under that id only.) *)
Theorem overwritten_entity_stays_in_scene (id : string) (old new : loc)
    (sm : SceneManager) :
  NoDup (scene sm) → old ∈ scene sm → new ≠ old →
  (sm_lights sm !! id = Some old →
   (∀ j, sm_lights sm !! j = Some old → j = id) →
   let sm' := (SceneManager.addLight id new sm).2 in
   old ∈ scene sm' ∧
   (∀ j, SceneManager.getLight j sm' ≠ Some old) ∧
   (∀ j, old ∈ scene (SceneManager.removeLight j sm').2) ∧
   (new ∉ scene (SceneManager.removeLight id sm').2)) ∧
  (sm_objects sm !! id = Some old →
   (∀ j, sm_objects sm !! j = Some old → j = id) →
   let sm' := (SceneManager.addObject id new sm).2 in
   old ∈ scene sm' ∧
   (∀ j, SceneManager.getObject j sm' ≠ Some old) ∧
   (∀ j, old ∈ scene (SceneManager.removeObject j sm').2) ∧
   (new ∉ scene (SceneManager.removeObject id sm').2)).
Proof.
  intros Hnd Hin Hne. destruct sm as [sc sl so]. simpl in *.
  assert (∀ m : gmap string loc,
            (∀ j, m !! j = Some old → j = id) →
            ∀ j, <[id := new]> m !! j ≠ Some old) as Hgone.
  { intros m Hm j. destruct (decide (j = id)) as [->|Hj].
    - rewrite lookup_insert_eq. congruence.
    - rewrite lookup_insert_ne by done. intros H. by apply Hj, Hm. }
  split; intros Hold Honly; simpl;
    unfold SceneManager.getLight, SceneManager.getObject,
      SceneManager.removeLight, SceneManager.removeObject; simpl.
  all: split_and!;
    [by apply children_add_keeps
    |by apply Hgone
    |intros j; specialize (Hgone _ Honly j);
     destruct (<[id := new]> _ !! j) as [x|] eqn:Hx; simpl;
     [apply children_remove_keeps; [congruence|]|];
     by apply children_add_keeps
    |rewrite lookup_insert_eq; simpl; by apply children_remove_add].
Qed.

Lemma overwritten_entity_stays_in_scene_witness :
  let sm' :=
    (SceneManager.addLight "ambient_1" 2%positive
       registry_showing_ambient_1).2 in
  1%positive ∈ scene (SceneManager.removeLight "ambient_1" sm').2 ∧
  SceneManager.getLight "ambient_1" (SceneManager.removeLight "ambient_1" sm').2
    = None.
Proof.
  split; [|reflexivity].
  assert (NoDup (scene registry_showing_ambient_1)) as Hnd
    by apply NoDup_singleton.
  assert (1%positive ∈ scene registry_showing_ambient_1) as Hin
    by apply list_elem_of_here.
  destruct (overwritten_entity_stays_in_scene "ambient_1" 1%positive
              2%positive registry_showing_ambient_1 Hnd Hin)
    as [Hlights _]; [done|].
  destruct Hlights as (_ & _ & Hstays & _); [reflexivity| |].
  - intros j Hj. destruct (decide (j = "ambient_1")) as [->|Hne]; [done|].
    unfold registry_showing_ambient_1 in Hj. simpl in Hj.
    rewrite lookup_insert_ne in Hj by done. by rewrite lookup_empty in Hj.
  - apply Hstays.
Defined.

(** ** Edits are local *)

(** An edit writes to the live entity of its id and, for a light, to the
    helper of its id; to the record of its id; and to nothing else. *)
Lemma edit_writes e w l :
  is_edit e = true → helper_inv w →
  (∀ x, edited e w = Some x → ¬ belongs x w l) →
  heap3D (handle e w) !! l = heap3D w !! l.
Proof.
  intros Hedit Hinv.
  destruct e; try discriminate; clear Hedit; expose;
    unfold SceneManager.getLight, SceneManager.getObject, edited, belongs in *;
    repeat case_match; try done; simpl; simplify_eq/=;
    intros Hnot; specialize (Hnot _ eq_refl); simpl in Hnot.
  all: try (rewrite lookup_alter_ne; [done|]; intros ->; apply Hnot; by auto).
  all: rewrite !lookup_alter_ne; [done|intros ->; apply Hnot..]; auto.
  all: right.
  all: match goal with
       | H : alter _ _ _ !! _ = Some _ |- _ =>
           apply edited_record in H as (d0 & Hd0 & Hh0); [|done]
       end.
  all: match goal with
       | Hr : lc_lights _ !! _ = Some ?r, Hd : heapLD _ !! ?r = Some ?d,
         Hh : ld_helper ?d = _, Hh' : ld_helper _ = Some ?hl |- _ =>
           rewrite Hh' in Hh;
           by destruct (Hinv _ _ _ _ Hr Hd Hh) as (? & ? & ? & _)
       end.
Qed.

Lemma edit_writes_light_record e w r :
  is_edit e = true →
  (∀ id, edited e w = Some (Lights, id) →
         lc_lights (lightController w) !! id ≠ Some r) →
  heapLD (handle e w) !! r = heapLD w !! r.
Proof.
  intros Hedit.
  destruct e; try discriminate; clear Hedit; expose;
    unfold SceneManager.getLight, SceneManager.getObject, edited in *;
    repeat case_match; try done; simpl; simplify_eq/=;
    intros Hnot; specialize (Hnot _ eq_refl).
  all: rewrite lookup_alter_ne; [done|]; by intros ->.
Qed.

Lemma edit_writes_object_record e w r :
  is_edit e = true →
  (∀ id, edited e w = Some (Objects, id) →
         oc_objects (objectController w) !! id ≠ Some r) →
  heapOD (handle e w) !! r = heapOD w !! r.
Proof.
  intros Hedit.
  destruct e; try discriminate; clear Hedit; expose;
    unfold SceneManager.getLight, SceneManager.getObject, edited in *;
    repeat case_match; try done; simpl; simplify_eq/=;
    intros Hnot; specialize (Hnot _ eq_refl).
  all: rewrite lookup_alter_ne; [done|]; by intros ->.
Qed.

(** X19: an edit is local.  In a reachable state, the handler of an edit
    control writes to the live entity and to the record of the id it is
    aimed at and, for a light, to the helper of that id.  Every other light,
    object and helper of the registry and every other record of the two
    controllers is as before. *)
Theorem edit_is_local (e : Event) (w : World) (x : Category * string) :
  reachable w → is_edit e = true → edited e w = Some x →
  let w' := handle e w in
  (∀ j l, (Lights, j) ≠ x →
     SceneManager.getLight j (sceneManager w) = Some l →
     heap3D w' !! l = heap3D w !! l) ∧
  (∀ j r, (Lights, j) ≠ x →
     lc_lights (lightController w) !! j = Some r →
     heapLD w' !! r = heapLD w !! r) ∧
  (∀ k o, (Objects, k) ≠ x → (∀ j, x = (Lights, j) → k ≠ j +:+ "_helper") →
     SceneManager.getObject k (sceneManager w) = Some o →
     heap3D w' !! o = heap3D w !! o) ∧
  (∀ k r, (Objects, k) ≠ x →
     oc_objects (objectController w) !! k = Some r →
     heapOD w' !! r = heapOD w !! r).
Proof.
  intros Hw Hedit Hx. simpl.
  destruct (reachable_shape_inv w Hw)
    as (Hs & [_ Hinj_lc] & [_ Hinj_oc]).
  pose proof Hs as [[_ Hinj_sl] [_ Hinj_so] _ _ _ _].
  pose proof (reachable_helper_inv w Hw) as Hhelper.
  unfold SceneManager.getLight, SceneManager.getObject.
  split_and!.
  - intros j l Hj Hl. apply edit_writes; [done..|].
    intros x' Hx'. assert (x' = x) as -> by congruence.
    destruct x as [[] id]; simpl.
    + intros [Hid|Hid].
      * apply Hj. f_equal. by eapply Hinj_sl.
      * by eapply registered_apart.
    + intros Hid. by eapply registered_apart.
  - intros j r Hj Hr. apply edit_writes_light_record; [done|].
    intros id Hid Hr'. apply Hj.
    assert (x = (Lights, id)) as -> by congruence.
    f_equal. by eapply Hinj_lc.
  - intros k o Hk Hkh Ho. apply edit_writes; [done..|].
    intros x' Hx'. assert (x' = x) as -> by congruence.
    destruct x as [[] id]; simpl.
    + intros [Hid|Hid].
      * by eapply registered_apart.
      * apply (Hkh id eq_refl). by eapply Hinj_so.
    + intros Hid. apply Hk. f_equal. by eapply Hinj_so.
  - intros k r Hk Hr. apply edit_writes_object_record; [done|].
    intros id Hid Hr'. apply Hk.
    assert (x = (Objects, id)) as -> by congruence.
    f_equal. by eapply Hinj_oc.
Qed.

Lemma edit_is_local_witness :
  heap3D (handle (LightColorChange point_element "#ff0000") one_point_light)
    !! 3%positive
  = heap3D one_point_light !! 3%positive.
Proof.
  destruct (edit_is_local (LightColorChange point_element "#ff0000")
              one_point_light (Lights, "point_1") reachable_one_point_light)
    as (Hlights & _); [reflexivity..|].
  apply (Hlights "ambient_default"); [done|reflexivity].
Defined.

(** ** Additions and removals leave fields alone *)

Lemma alloc_keeps {A} (x : A) (h : gmap loc A) l y :
  h !! l = Some y → <[fresh (dom h) := x]> h !! l = Some y.
Proof.
  intros Hl. rewrite lookup_insert_ne; [done|].
  intros <-. by rewrite fresh_heap_None in Hl.
Qed.

(** X20: adding, removing and loading never write to what is there.  Whatever
    the state, after the handler of an event that is not an edit every
    entity of the store and every record of the two controllers is as
    before: a removal takes an entity out of the registry and leaves the
    entity itself alone, and an addition only allocates. *)
Theorem structural_events_keep_fields (e : Event) (w : World) :
  is_edit e = false →
  (∀ l o, heap3D w !! l = Some o → heap3D (handle e w) !! l = Some o) ∧
  (∀ r d, heapLD w !! r = Some d → heapLD (handle e w) !! r = Some d) ∧
  (∀ r d, heapOD w !! r = Some d → heapOD (handle e w) !! r = Some d).
Proof.
  intros Hedit. destruct e; try discriminate; clear Hedit.
  - destruct (addLight_effect type w)
      as (light & d & _ & _ & _ & HLD & HOD & _ & _ & _ & _ & _ & _
          & Hhelper).
    simpl handle. rewrite HLD, HOD. split_and!; [|by apply alloc_keeps|done].
    intros l o Hl. destruct (ld_helper d).
    + destruct Hhelper as (_ & -> & helper & _ & -> & _).
      by do 2 apply alloc_keeps.
    + destruct Hhelper as (_ & -> & _). by apply alloc_keeps.
  - simpl. unfold on_light. case_match; [|done].
    destruct (lc_lights (lightController w) !! ld_id l) as [r|] eqn:Hr;
      last first.
    { unfold LightController.removeLight. by rewrite Hr. }
    destruct (removeLight_effect (ld_id l) r w Hr) as (-> & -> & -> & _).
    done.
  - simpl. unfold ObjectController.addObject.
    destruct (ObjectController.geometry_of type) as [g|]; simpl; [|done].
    split_and!; [by apply alloc_keeps|done|by apply alloc_keeps].
  - simpl. unfold on_object. case_match; [|done].
    destruct (oc_objects (objectController w) !! od_id o) as [r|] eqn:Hr;
      last first.
    { unfold ObjectController.removeObject. by rewrite Hr. }
    destruct (removeObject_effect (od_id o) r w Hr) as (-> & -> & -> & _).
    done.
  - destruct (handleModelUpload_effect w) as (H3 & HLD & HOD & _).
    simpl handle. by rewrite H3, HLD, HOD.
  - destruct (modelLoaded_effect id objectURL center size w)
      as (model & d & _ & _ & _ & _ & _ & -> & -> & -> & _).
    split_and!; [by apply alloc_keeps|done|by apply alloc_keeps].
  - destruct (modelFailed_effect id objectURL w) as (-> & -> & -> & _).
    done.
Qed.

Lemma structural_events_keep_fields_witness :
  heap3D (handle (AddLightClick point) App.init) !! 3%positive
  = Some (new3D (AmbientLight (ColorHex 0x404040) 0.5)).
Proof.
  destruct (structural_events_keep_fields (AddLightClick point) App.init)
    as (H3 & _); [reflexivity|].
  apply H3. reflexivity.
Defined.

(** ** Adding and then removing through the panels *)








(** ** The environment controller *)

Ltac env_expose :=
  cbv beta iota zeta delta
    [env_handle EnvironmentController.presetChange
     EnvironmentController.toneMappingChange
     EnvironmentController.exposureInput EnvironmentController.init
     EnvironmentController.renderUI EnvironmentController.new
     EnvironmentController.updateEnvironment EnvironmentController.onLoad
     EnvironmentController.onError EnvironmentController.onTimeout
     EnvironmentController.set_settings request_done timer_done].

Lemma reachable_city_chosen : env_reachable city_chosen.
Proof.
  apply env_reachable_step; [constructor|].
  simpl. rewrite !elem_of_cons. auto.
Qed.

Lemma follows_step ev e : follows e → follows (env_handle ev e).
Proof.
  intros [Hbg Hr]. unfold follows.
  destruct ev; env_expose; simpl.
  1-3: case_decide; simpl; (split; [done|]); intros; first [done|auto].
  - destruct (requests e !! k); simpl; by split.
  - destruct (requests e !! k); [destruct (loadingElements e)|]; simpl;
      by split.
  - destruct (timers e !! k); simpl; by split.
Qed.

Lemma reachable_follows e : env_reachable e → follows e.
Proof.
  induction 1 as [|e ev _ IH _]; [|by apply follows_step].
  by split.
Qed.

(** X23: whatever was done in the environment panel, the background of the
    scene is its environment map, and while the preset [none] is selected
    the renderer has the exposure and the tone mapping of the settings. *)
Theorem renderer_follows_settings_without_preset (e : Environment) :
  env_reachable e →
  background e = environment e ∧
  (es_preset (currentSettings e) = "none" →
   toneMappingExposure e = es_toneMappingExposure (currentSettings e) ∧
   toneMapping e = es_toneMapping (currentSettings e)).
Proof. apply reachable_follows. Qed.

Lemma renderer_follows_settings_without_preset_witness :
  background city_chosen = environment city_chosen.
Proof.
  exact (proj1 (renderer_follows_settings_without_preset city_chosen
                  reachable_city_chosen)).
Defined.

(** ** The paths asked of the loader *)

Lemma property_preset preset :
  preset ∈ EnvironmentController.hdrPresets.*1 → preset ≠ "none" →
  preset_path
    (EnvironmentController.baseHDRPath +:+
     default "undefined"
       (EnvironmentController.property preset
          EnvironmentController.hdrPresets)).
Proof.
  unfold EnvironmentController.hdrPresets. simpl. intros Hin Hne.
  apply elem_of_cons in Hin as [->|Hin]; [done|].
  repeat (apply elem_of_cons in Hin as [->|Hin];
          [repeat (rewrite decide_False by done);
           rewrite decide_True by done; simpl;
           eexists _, _; split_and!; last reflexivity; [|done..];
           unfold EnvironmentController.hdrPresets;
           rewrite !elem_of_cons; eauto 15|]).
  by apply elem_of_nil in Hin.
Qed.

Lemma requests_ok_update e :
  requests_ok e → requests_ok (EnvironmentController.updateEnvironment e).
Proof.
  intros (Hp & Hr & He). unfold EnvironmentController.updateEnvironment.
  case_decide as Hnone; split_and!; simpl; try done.
  apply Forall_app. split; [done|]. apply Forall_singleton.
  by apply property_preset.
Qed.

Lemma requests_ok_step ev e :
  requests_ok e → env_enabled ev e → requests_ok (env_handle ev e).
Proof.
  intros (Hp & Hr & He) Hen.
  destruct ev; simpl in *;
    try (by apply requests_ok_update; split_and!).
  - destruct (requests e !! k) as [hdrPath|] eqn:Hk; [|by split_and!].
    split_and!; simpl; [done|by apply Forall_delete|].
    intros ? [= <-]. by eapply Forall_lookup_1.
  - destruct (requests e !! k) as [hdrPath|] eqn:Hk; [|by split_and!].
    unfold EnvironmentController.onError. simpl.
    destruct (loadingElements e); split_and!; simpl; try done;
      by apply Forall_delete.
  - destruct (timers e !! k); by split_and!.
Qed.

Lemma reachable_requests_ok e : env_reachable e → requests_ok e.
Proof.
  induction 1 as [|e ev _ IH Hen]; [|by apply requests_ok_step].
  split_and!; simpl; [|done..].
  unfold EnvironmentController.hdrPresets. simpl. apply list_elem_of_here.
Qed.

(** X24: every path the environment controller has asked the loader for, and
    the path of the environment map the scene has, is the base path followed
    by the file of one of the ten presets other than [none]: the loader is
    never asked for the bare base path, nor for a preset that does not
    exist. *)
Theorem environment_requests_name_presets (e : Environment) (hdrPath : string) :
  env_reachable e →
  hdrPath ∈ requests e ∨ environment e = Some (EnvironmentMap hdrPath) →
  ∃ preset file,
    (preset, file) ∈ EnvironmentController.hdrPresets ∧
    preset ≠ "none" ∧ file ≠ "" ∧
    hdrPath = EnvironmentController.baseHDRPath +:+ file.
Proof.
  intros (_ & Hr & He)%reachable_requests_ok [Hin|Henv].
  - rewrite Forall_forall in Hr. by apply Hr.
  - by apply He.
Qed.

Lemma environment_requests_name_presets_witness :
  ∃ preset file,
    (preset, file) ∈ EnvironmentController.hdrPresets ∧
    preset ≠ "none" ∧ file ≠ "" ∧
    EnvironmentController.baseHDRPath +:+ "potsdamer_platz_1k.hdr"
    = EnvironmentController.baseHDRPath +:+ file.
Proof.
  apply (environment_requests_name_presets city_chosen _
           reachable_city_chosen).
  left. apply list_elem_of_here.
Defined.

Lemma still_loading_app l1 l2 :
  still_loading (l1 ++ l2) = (still_loading l1 ++ still_loading l2)%list.
Proof. apply filter_app. Qed.

Lemma still_loading_tail l :
  (length (still_loading l) - 1 ≤ length (still_loading (tail l)))%nat.
Proof.
  destruct l as [|x l]; simpl; [done|]. unfold still_loading.
  rewrite filter_cons. case_decide; simpl; lia.
Qed.

Lemma still_loading_error x l :
  (length (still_loading (x :: l)) - 1
   ≤ length (still_loading (mkLoadingElement (el_node x) true :: l)))%nat.
Proof.
  unfold still_loading. rewrite !filter_cons. simpl.
  case_decide; simpl; lia.
Qed.

Lemma still_loading_remove n l :
  (∀ x, x ∈ l → el_node x = n → el_error x = true) →
  still_loading (filter (λ x, el_node x ≠ n) l) = still_loading l.
Proof.
  unfold still_loading. induction l as [|x l IH]; intros Hred; [done|].
  rewrite (filter_cons (λ x, el_node x ≠ n)).
  rewrite (filter_cons (λ x, el_error x = false) x l).
  assert (filter (λ x, el_error x = false) (filter (λ x, el_node x ≠ n) l)
          = filter (λ x, el_error x = false) l) as IH'.
  { apply IH. intros y Hy. apply Hred. by apply list_elem_of_further. }
  destruct (decide (el_node x ≠ n)) as [Hn|Hn].
  - rewrite filter_cons. by rewrite IH'.
  - rewrite IH'. apply dec_stable in Hn.
    rewrite decide_False; [done|].
    rewrite (Hred x (list_elem_of_here _ _) Hn). done.
Qed.

Lemma indicators_ok_update e :
  indicators_ok e → indicators_ok (EnvironmentController.updateEnvironment e).
Proof.
  intros [Hel Hnd Htm Herr Hcnt].
  unfold EnvironmentController.updateEnvironment.
  case_decide; split; simpl; try done.
  - apply Forall_app. split.
    + eapply Forall_impl; [exact Hel|]. simpl. lia.
    + apply Forall_singleton. simpl. lia.
  - rewrite fmap_app. apply NoDup_app.
    split_and!; [done| |apply NoDup_singleton].
    intros n (x & Heq & Hx)%list_elem_of_fmap Hn%list_elem_of_singleton.
    simpl in Hn. rewrite Forall_forall in Hel. specialize (Hel _ Hx).
    simpl in Hel. lia.
  - eapply Forall_impl; [exact Htm|]. simpl. lia.
  - intros n x Hn [Hx|Hx%list_elem_of_singleton]%elem_of_app Heq.
    + by eapply Herr.
    + subst. simpl in *. rewrite Forall_forall in Htm.
      specialize (Htm _ Hn). lia.
  - rewrite still_loading_app, !length_app. simpl. lia.
Qed.

Lemma length_delete_Some {A} (l : list A) k :
  is_Some (l !! k) → length (delete k l) = (length l - 1)%nat.
Proof.
  intros Hk. apply lookup_lt_is_Some in Hk.
  revert k Hk. induction l as [|x l IH]; intros [|k] Hk; simpl in *;
    try lia. rewrite IH by lia. lia.
Qed.

Lemma elem_of_list_delete {A} (l : list A) k x : x ∈ delete k l → x ∈ l.
Proof.
  revert k. induction l as [|y l IH]; intros [|k]; simpl; try done.
  - apply list_elem_of_further.
  - intros [->|Hx]%elem_of_cons; [apply list_elem_of_here|].
    apply list_elem_of_further. by eapply IH.
Qed.

Lemma indicators_ok_step ev e :
  indicators_ok e → env_enabled ev e → indicators_ok (env_handle ev e).
Proof.
  intros Hok Hen.
  destruct ev; simpl in *;
    try (apply indicators_ok_update; by destruct Hok).
  - destruct Hok as [Hel Hnd Htm Herr Hcnt].
    destruct (requests e !! k) as [hdrPath|] eqn:Hk; [|by destruct Hen].
    split; simpl; try done.
    + destruct (loadingElements e); simpl; [done|].
      by apply Forall_cons in Hel as [_ ?].
    + destruct (loadingElements e); simpl in *; [done|].
      by apply NoDup_cons in Hnd as [_ ?].
    + intros n x Hn Hx. apply (Herr n x Hn).
      destruct (loadingElements e); simpl in *; [done|].
      by apply list_elem_of_further.
    + rewrite length_delete_Some by done.
      pose proof (still_loading_tail (loadingElements e)). lia.
  - destruct Hok as [Hel Hnd Htm Herr Hcnt].
    destruct (requests e !! k) as [hdrPath|] eqn:Hk; [|by destruct Hen].
    unfold EnvironmentController.onError. simpl.
    destruct (loadingElements e) as [|x l] eqn:Hl.
    { apply lookup_lt_Some in Hk. simpl in Hcnt. lia. }
    split; simpl; try done.
    + apply Forall_cons in Hel as [? ?]. by apply Forall_cons.
    + apply Forall_app. split; [done|]. apply Forall_singleton.
      by apply Forall_cons in Hel as [? ?].
    + intros n y [Hn|Hn%list_elem_of_singleton]%elem_of_app
        [->|Hy]%elem_of_cons Heq; simpl in *; try done.
      * apply (Herr n y Hn); [by apply list_elem_of_further|done].
      * subst n. apply NoDup_cons in Hnd as [Hnot _]. exfalso. apply Hnot.
        rewrite <-Heq. by apply list_elem_of_fmap_2.
    + rewrite length_delete_Some by done.
      pose proof (still_loading_error x l). lia.
  - destruct Hok as [Hel Hnd Htm Herr Hcnt].
    destruct (timers e !! k) as [node|] eqn:Hk; [|by destruct Hen].
    split; simpl; try done.
    + rewrite Forall_forall in Hel. apply Forall_forall.
      intros x [_ Hx]%list_elem_of_filter. by apply Hel.
    + eapply sublist_NoDup; [exact Hnd|].
      apply fmap_sublist, sublist_filter.
    + by apply Forall_delete.
    + intros n x Hn%elem_of_list_delete [_ Hx]%list_elem_of_filter.
      by apply Herr.
    + rewrite still_loading_remove; [done|].
      intros x Hx Hn. apply (Herr node x); [|done..].
      by eapply list_elem_of_lookup_2.
Qed.

Lemma reachable_indicators_ok e : env_reachable e → indicators_ok e.
Proof.
  induction 1 as [|e ev _ IH Hen]; [|by apply indicators_ok_step].
  split; simpl; try done; try apply NoDup_nil_2.
  intros n x Hn. by apply elem_of_nil in Hn.
Qed.

(** X25: in every state of the environment panel, the elements that still
    read [Loading environment...] are at least as many as the loads the
    loader has not answered yet: as long as a load is running, the panel
    shows a loading indicator.  A completed load and a failed one each take
    at most one such element away, and the timer that clears an error
    message takes none.  The elements of the panel are distinct nodes. *)
Theorem loading_indicator_while_loading (e : Environment) :
  env_reachable e →
  (length (requests e) ≤ length (still_loading (loadingElements e)))%nat ∧
  NoDup (el_node <$> loadingElements e).
Proof. intros [_ ? _ _ ?]%reachable_indicators_ok. by split. Qed.

Lemma loading_indicator_while_loading_witness :
  (length (requests city_chosen)
   ≤ length (still_loading (loadingElements city_chosen)))%nat.
Proof.
  exact (proj1 (loading_indicator_while_loading city_chosen
                  reachable_city_chosen)).
Defined.

(** ** Loads and later choices *)

Lemma setting_keeps_requests ev e k hdrPath :
  is_setting ev = true → requests e !! k = Some hdrPath →
  requests (env_handle ev e) !! k = Some hdrPath.
Proof.
  intros Hev Hk. destruct ev; try discriminate; env_expose; simpl;
    case_decide; simpl; try done; by apply lookup_app_l_Some.
Qed.

Lemma settings_keep_requests evs e k hdrPath :
  forallb is_setting evs = true → requests e !! k = Some hdrPath →
  requests (env_run evs e) !! k = Some hdrPath.
Proof.
  revert e. induction evs as [|ev evs IH]; intros e Hevs Hk; [done|].
  simpl in Hevs. apply andb_true_iff in Hevs as [Hev Hevs].
  simpl. apply IH; [done|]. by apply setting_keeps_requests.
Qed.

(** X26: a load in flight is not cancelled by what is chosen afterwards.
    Whatever the three controls are set to while it runs, selecting [none]
    included, the load stays in flight, and when it completes its map
    becomes environment and background of the scene, with the exposure and
    the tone mapping the settings have then and the preset left as
    selected. *)
Theorem load_completes_whatever_was_chosen (e : Environment) (k : nat)
    (hdrPath : string) (evs : list EnvEvent) :
  requests e !! k = Some hdrPath →
  forallb is_setting evs = true →
  let e1 := env_run evs e in
  let e2 := env_handle (EnvironmentLoaded k) e1 in
  requests e1 !! k = Some hdrPath ∧
  environment e2 = Some (EnvironmentMap hdrPath) ∧
  background e2 = Some (EnvironmentMap hdrPath) ∧
  currentSettings e2 = currentSettings e1 ∧
  toneMappingExposure e2 = es_toneMappingExposure (currentSettings e1) ∧
  toneMapping e2 = es_toneMapping (currentSettings e1).
Proof.
  intros Hk Hevs. simpl.
  pose proof (settings_keep_requests evs e k hdrPath Hevs Hk) as Hk1.
  rewrite Hk1. by split_and!.
Qed.

Lemma load_completes_whatever_was_chosen_witness :
  let e2 :=
    env_handle (EnvironmentLoaded 0)
      (env_handle (PresetChange "none") city_chosen) in
  es_preset (currentSettings e2) = "none" ∧
  environment e2
  = Some (EnvironmentMap
            (EnvironmentController.baseHDRPath +:+ "potsdamer_platz_1k.hdr")).
Proof.
  destruct (load_completes_whatever_was_chosen city_chosen 0
              (EnvironmentController.baseHDRPath +:+ "potsdamer_platz_1k.hdr")
              [PresetChange "none"])
    as (_ & Henv & _ & Hs & _); [reflexivity..|].
  split; [|exact Henv]. reflexivity.
Defined.
